(** * leetob-site: the streaming decoder, the search aggregators, the
      proxy-chain fetchers and the intent classifier

    Shallow embedding of [src/api.js] (browser client), of the chat store
    ([src/store.js]) and of the MCP web-search server (its [index.ts]),
    followed by the theorems that settle the properties stated about them.

    Conventions.
    - A JavaScript string is the list of its UTF-16 code units ([jsstring]);
      literals are written [js "..."] and decoded from UTF-8.
    - A value produced by [JSON.parse] is a [json]; [undefined] is [None] of
      [option json].
    - A JavaScript exception is an explicit [Throw]; [try]/[catch] is a match
      on it.
    - The Cyrillic literals of [api.js] (patterns, keywords, labels) are
      written here as Cyrillic text.
    - Everything that comes from the network (response bodies, chunks, the
      answers of the search sources) is an argument of the embedded
      function. *)

From Stdlib Require Import String Ascii.
From Stdlib Require Import Bool Arith NArith ZArith QArith Qround Lia List.
From Stdlib Require Import Permutation Sorted.
Import ListNotations.
Close Scope Q_scope.
Open Scope nat_scope.
Open Scope list_scope.

Set Implicit Arguments.

(* ================================================================== *)
(** * Part I. Definitions                                              *)
(* ================================================================== *)

(* ------------------------------------------------------------------ *)
(** ** JavaScript strings                                              *)
(* ------------------------------------------------------------------ *)

Definition jsstring := list N.

(** UTF-8 decoding of a literal into code points. *)
Fixpoint utf8_decode (bs : list N) : list N :=
  match bs with
  | [] => []
  | b0 :: r0 =>
    if (b0 <? 128)%N then b0 :: utf8_decode r0
    else if (b0 <? 224)%N then
      match r0 with
      | b1 :: r1 =>
        N.lor (N.shiftl (N.land b0 31) 6) (N.land b1 63) :: utf8_decode r1
      | [] => [65533%N]
      end
    else if (b0 <? 240)%N then
      match r0 with
      | b1 :: b2 :: r2 =>
        N.lor (N.shiftl (N.land b0 15) 12)
              (N.lor (N.shiftl (N.land b1 63) 6) (N.land b2 63))
          :: utf8_decode r2
      | _ => [65533%N]
      end
    else
      match r0 with
      | b1 :: b2 :: b3 :: r3 =>
        N.lor (N.shiftl (N.land b0 7) 18)
              (N.lor (N.shiftl (N.land b1 63) 12)
                     (N.lor (N.shiftl (N.land b2 63) 6) (N.land b3 63)))
          :: utf8_decode r3
      | _ => [65533%N]
      end
  end.

(** A code point as one or two UTF-16 code units. *)
Definition utf16_units (cp : N) : list N :=
  if (cp <? 65536)%N then [cp]
  else let v := (cp - 65536)%N in
       [(55296 + N.shiftr v 10)%N; (56320 + N.land v 1023)%N].

Definition js (s : string) : jsstring :=
  flat_map utf16_units
           (utf8_decode (map N_of_ascii (list_ascii_of_string s))).

Definition newline : N := 10%N.

Definition str_eqb (a b : jsstring) : bool :=
  if list_eq_dec N.eq_dec a b then true else false.

Definition is_empty (s : jsstring) : bool :=
  match s with [] => true | _ => false end.

(** [WhiteSpace] and [LineTerminator] of ECMAScript, the characters that
    [String.prototype.trim] strips and that [\s] matches. *)
Definition is_white (c : N) : bool :=
  ((9 <=? c) && (c <=? 13) || (c =? 32) || (c =? 160) || (c =? 5760)
   || (8192 <=? c) && (c <=? 8202) || (c =? 8232) || (c =? 8233)
   || (c =? 8239) || (c =? 8287) || (c =? 12288) || (c =? 65279))%N.

Fixpoint trimStart (s : jsstring) : jsstring :=
  match s with
  | c :: s' => if is_white c then trimStart s' else s
  | [] => []
  end.

Definition trimEnd (s : jsstring) : jsstring := rev (trimStart (rev s)).

Definition trim (s : jsstring) : jsstring := trimEnd (trimStart s).

Fixpoint startsWith (s p : jsstring) : bool :=
  match p, s with
  | [], _ => true
  | a :: p', b :: s' => (a =? b)%N && startsWith s' p'
  | _ :: _, [] => false
  end.

(** [s.includes(p)] *)
Fixpoint includes (s p : jsstring) : bool :=
  startsWith s p || match s with [] => false | _ :: s' => includes s' p end.

(** [s.slice(n)] for a non-negative [n]. *)
Definition slice_from (n : nat) (s : jsstring) : jsstring := skipn n s.

(** [s.substring(a, b)]: the arguments are swapped when [a > b] and
    clamped to the length. *)
Definition substring (s : jsstring) (a b : nat) : jsstring :=
  skipn (Nat.min a b) (firstn (Nat.max a b) s).

(** [s.substring(a)] *)
Definition substring_from (s : jsstring) (a : nat) : jsstring := skipn a s.

(** [s.indexOf(c, from)] for a one-character needle; [None] is [-1]. *)
Fixpoint indexOf_aux (s : jsstring) (c : N) (pos : nat) : option nat :=
  match s with
  | [] => None
  | x :: s' => if (x =? c)%N then Some pos else indexOf_aux s' c (S pos)
  end.

Definition indexOf (s : jsstring) (c : N) (from : nat) : option nat :=
  indexOf_aux (skipn from s) c from.

(** [s.split(c)] for a one-character separator. *)
Fixpoint split (c : N) (s : jsstring) : list jsstring :=
  match s with
  | [] => [[]]
  | x :: s' =>
    if (x =? c)%N then [] :: split c s'
    else match split c s' with
         | l :: ls => (x :: l) :: ls
         | [] => [[x]]
         end
  end.

(** [toLowerCase] on the Basic Latin, Latin-1 and Cyrillic letters (the
    alphabets of the model identifiers, keywords and patterns of the
    program); other code units are left as they are. *)
Definition lower_unit (c : N) : N :=
  if ((65 <=? c) && (c <=? 90))%N then (c + 32)%N
  else if ((192 <=? c) && (c <=? 222) && negb (c =? 215))%N then (c + 32)%N
  else if ((1040 <=? c) && (c <=? 1071))%N then (c + 32)%N
  else if ((1024 <=? c) && (c <=? 1039))%N then (c + 80)%N
  else c.

Definition toLowerCase (s : jsstring) : jsstring := map lower_unit s.

(* ------------------------------------------------------------------ *)
(** ** JSON values and exceptions                                      *)
(* ------------------------------------------------------------------ *)

#[warnings="-register-all"]
Inductive json : Type :=
| JNull
| JBool (b : bool)
| JNum (q : Q)
| JStr (s : jsstring)
| JArr (items : list json)
| JObj (fields : list (jsstring * json)).

(** [None] is [undefined]. *)
Definition jsval := option json.

Inductive exn : Type :=
| SyntaxError
| TypeError
| URIError
| NetworkError
| UpstreamError (message : json)
| UpstreamStatus (status : N)
| FetchFailed.

Inductive outcome (A : Type) : Type :=
| Ok (a : A)
| Throw (e : exn).

Arguments Ok {A} a.
Arguments Throw {A} e.

(** ToBoolean *)
Definition truthy (v : json) : bool :=
  match v with
  | JNull => false
  | JBool b => b
  | JNum q => negb (Qeq_bool q 0)
  | JStr s => negb (is_empty s)
  | JArr _ => true
  | JObj _ => true
  end.

Definition truthy_val (v : jsval) : bool :=
  match v with
  | None => false
  | Some x => truthy x
  end.

Fixpoint assoc (k : jsstring) (fs : list (jsstring * json)) : jsval :=
  match fs with
  | [] => None
  | (k', v) :: fs' => if str_eqb k k' then Some v else assoc k fs'
  end.

(** [v.k] on a value that is neither [null] nor [undefined].  The names the
    program reads ([choices], [delta], [content], [text], [message],
    [candidates], [parts], [reasoning_content], [error], ...) are defined on
    no prototype, so only an object can hold them. *)
Definition get_prop (v : json) (k : jsstring) : jsval :=
  match v with
  | JObj fs => assoc k fs
  | _ => None
  end.

(** [v[0]] on a value that is neither [null] nor [undefined]. *)
Definition get_index0 (v : json) : jsval :=
  match v with
  | JArr items => nth_error items 0
  | JObj fs => assoc (js "0") fs
  | JStr (c :: _) => Some (JStr [c])
  | _ => None
  end.

(** Optional chaining: [v?.k] and [v?.[0]]. *)
Definition opt_prop (v : jsval) (k : jsstring) : jsval :=
  match v with
  | None | Some JNull => None
  | Some x => get_prop x k
  end.

Definition opt_index0 (v : jsval) : jsval :=
  match v with
  | None | Some JNull => None
  | Some x => get_index0 x
  end.

(** [json.k]: a [TypeError] on [null]. *)
Definition prop_of (v : json) (k : jsstring) : outcome jsval :=
  match v with
  | JNull => Throw TypeError
  | _ => Ok (get_prop v k)
  end.

(** [a || b] on values, with [null] for the right operand. *)
Definition or_null (v : jsval) : json :=
  match v with
  | Some x => if truthy x then x else JNull
  | None => JNull
  end.

(** [s += v] on a string [s] starts with [ToPrimitive(v)].  On a value
    that [JSON.parse] has produced, the conversion throws a [TypeError]
    exactly when it meets an object that has a property [toString] of its
    own: such a property holds no function, [valueOf] gives back the
    object itself, and no method is left to try.  The object may be [v],
    or an element of [v] that [Array.prototype.join] has to convert
    ([null] elements are skipped by [join]; an object without this
    property becomes ['[object Object]']).  [addable v] holds when the
    conversion returns. *)
Fixpoint addable (v : json) : bool :=
  match v with
  | JArr items => forallb addable items
  | JObj fields =>
    negb (existsb (fun kv => str_eqb (fst kv) (js "toString")) fields)
  | _ => true
  end.

(* ------------------------------------------------------------------ *)
(** ** The streaming decoder ([streamChatCompletion])                  *)
(* ------------------------------------------------------------------ *)

(** *** ContentExtractor *)

Definition k_choices := js "choices".
Definition k_delta := js "delta".
Definition k_content := js "content".
Definition k_text := js "text".
Definition k_message := js "message".
Definition k_candidates := js "candidates".
Definition k_parts := js "parts".
Definition k_reasoning := js "reasoning_content".

(** [json.choices?.[0]?.delta?.k], once [json.choices] has been read. *)
Definition delta_field (choices : jsval) (k : jsstring) : jsval :=
  opt_prop (opt_prop (opt_index0 choices) k_delta) k.

(** The seven shapes that [extractContent] looks for, in the order of its
    chain of [if] / [else if]: each is the value the condition reads (and
    the branch assigns to [content]). *)
Definition shapes (json0 : json) (choices : jsval) : list jsval :=
  [ delta_field choices k_content;                                  (* delta.content *)
    delta_field choices k_text;                                     (* delta.text *)
    opt_prop (opt_prop (opt_index0 choices) k_message) k_content;   (* message.content *)
    opt_prop (opt_index0 choices) k_text;                           (* choices[0].text *)
    opt_prop (opt_index0 (opt_prop (opt_prop
       (opt_index0 (get_prop json0 k_candidates)) k_content) k_parts))
       k_text;                                                      (* candidates[0].content.parts[0].text *)
    get_prop json0 k_content;                                       (* json.content *)
    get_prop json0 k_text ].                                        (* json.text *)

(** The first condition that holds decides; [content] stays [''] when none
    does. *)
Fixpoint first_truthy (conds : list jsval) : json :=
  match conds with
  | [] => JStr []
  | Some x :: rest => if truthy x then x else first_truthy rest
  | None :: rest => first_truthy rest
  end.

Definition first_shape (json0 : json) (choices : jsval) : json :=
  first_truthy (shapes json0 choices).

(** [extractContent(json)].  Reading [json.choices] of [null] throws; so
    does calling [.substring] on a truthy [reasoning_content] that is not a
    string (the logging branch).  The result is [content || null]. *)
Definition extractContent (json0 : json) : outcome json :=
  match prop_of json0 k_choices with
  | Throw e => Throw e
  | Ok choices =>
    match delta_field choices k_reasoning with
    | Some (JStr _) | None => Ok (or_null (Some (first_shape json0 choices)))
    | Some r =>
      if truthy r then Throw TypeError
      else Ok (or_null (Some (first_shape json0 choices)))
    end
  end.

Section Decoder.

(** [JSON.parse]; [None] when it throws a [SyntaxError]. *)
Variable JSON_parse : jsstring -> option json.

Definition data_prefix : jsstring := js "data: ".
Definition done_marker : jsstring := js "data: [DONE]".

Record LineResult : Type :=
  { content : json;        (* [null] is [JNull] *)
    incomplete : bool }.

(** *** ChunkFramer: one line *)
Definition processLine (line : jsstring) : LineResult :=
  let trimmed := trim line in
  if is_empty trimmed || str_eqb trimmed done_marker then
    {| content := JNull; incomplete := false |}
  else if negb (startsWith trimmed data_prefix) then
    {| content := JNull; incomplete := false |}
  else
    (* try *)
    let jsonStr := slice_from 6 trimmed in
    match JSON_parse jsonStr with
    | None => {| content := JNull; incomplete := true |}          (* catch *)
    | Some json0 =>
      match extractContent json0 with
      | Throw _ => {| content := JNull; incomplete := true |}     (* catch *)
      | Ok c => {| content := c; incomplete := false |}
      end
    end.

(** *** ChunkFramer: the inner [while (true)] over one buffer.
    [out] is the sequence of fragments yielded so far.  The loop ends at
    a [break], with the final [processedUpTo], or is left by the
    [TypeError] of [totalContentReceived += result.content] (l.240), which
    is evaluated before the [yield] and outside any [try]; the fragments
    yielded until then come with either.  [None] only when [fuel] runs
    out. *)
Fixpoint scan_buffer (fuel : nat) (buffer : jsstring)
         (processedUpTo searchStart : nat) (out : list json)
  : option (outcome nat * list json) :=
  match fuel with
  | O => None
  | S fuel' =>
    match indexOf buffer newline searchStart with
    | None => Some (Ok processedUpTo, out)                      (* break *)
    | Some newlineIndex =>
      let line := substring buffer processedUpTo newlineIndex in
      let trimmedLine := trim line in
      if is_empty trimmedLine then
        scan_buffer fuel' buffer (newlineIndex + 1) (newlineIndex + 1) out
      else
        let result := processLine line in
        if incomplete result then
          let searchStart' := newlineIndex + 1 in
          if length buffer <=? searchStart' then
            Some (Ok processedUpTo, out)                        (* break *)
          else scan_buffer fuel' buffer processedUpTo searchStart' out
        else if truthy (content result) then
          if addable (content result) then                      (* += *)
            scan_buffer fuel' buffer (newlineIndex + 1) (newlineIndex + 1)
                        (out ++ [content result])               (* yield *)
          else Some (Throw TypeError, out)
        else
          scan_buffer fuel' buffer (newlineIndex + 1) (newlineIndex + 1) out
    end
  end.

(** The outer [while (true)]: one iteration per chunk read; [remaining]
    is what [decoder.decode()] flushes when the reader is done.  The loop
    ends with the buffer left for the final pass, or is left by the
    exception of the inner loop. *)
Fixpoint read_loop (chunks : list jsstring) (remaining : jsstring)
         (buffer : jsstring) (out : list json)
  : option (outcome jsstring * list json) :=
  match chunks with
  | [] =>
    Some (Ok (if is_empty remaining then buffer else buffer ++ remaining),
          out)
  | rawChunk :: rest =>
    let buffer1 := buffer ++ rawChunk in
    match scan_buffer (S (length buffer1)) buffer1 0 0 out with
    | None => None
    | Some (Throw e, out1) => Some (Throw e, out1)
    | Some (Ok processedUpTo, out1) =>
      let buffer2 :=
          if 0 <? processedUpTo then substring_from buffer1 processedUpTo
          else buffer1 in
      read_loop rest remaining buffer2 out1
    end
  end.

(** One line of the buffer left at the end of the stream. *)
Definition final_line (line : jsstring) : list json :=
  let trimmed := trim line in
  if is_empty trimmed || str_eqb trimmed done_marker then []      (* continue *)
  else if negb (startsWith trimmed data_prefix) then []           (* continue *)
  else
    match JSON_parse (slice_from 6 trimmed) with
    | None => []                                                  (* catch *)
    | Some json0 =>
      match extractContent json0 with
      | Throw _ => []                                             (* catch *)
      | Ok c => if truthy c then [c] else []
      end
    end.

Definition final_pass (buffer : jsstring) : list json :=
  if negb (is_empty (trim buffer)) then
    flat_map final_line (split newline buffer)
  else [].

End Decoder.

(** *** StreamingPolicy, request and response *)

Record Options : Type :=
  { model : jsstring;
    forceNonStreaming : bool }.

(** The fields of the request body that the transport mode decides. *)
Record Request : Type :=
  { req_model : jsstring;
    req_stream : bool }.

Record Response : Type :=
  { resp_ok : bool;
    resp_status : N;
    resp_chunks : list jsstring;   (* the chunks read, in order, as decoded *)
    resp_flush : jsstring }.       (* what [decoder.decode()] returns at the end *)

Definition body_text (r : Response) : jsstring :=
  concat (resp_chunks r) ++ resp_flush r.

Definition isThinkingModel (model0 : jsstring) : bool :=
  includes (toLowerCase model0) (js "thinking").

Definition isGemini3Model (model0 : jsstring) : bool :=
  includes (toLowerCase model0) (js "gemini-3").

Definition needsNonStreaming (model0 : jsstring) : bool :=
  isThinkingModel model0 || isGemini3Model model0.

Definition useStreaming (opts : Options) : bool :=
  negb (forceNonStreaming opts) && negb (needsNonStreaming (model opts)).

Definition build_request (opts : Options) : Request :=
  {| req_model := model opts; req_stream := useStreaming opts |}.

(** What a run of the generator produces: the fragments it yields, and
    whether it returns or throws. *)
Inductive generated : Type :=
| Done (yields : list json)
| Threw (yields : list json) (e : exn).

Section StreamChatCompletion.

Variable JSON_parse : jsstring -> option json.

(** The streaming branch, from [response.body.getReader()] on: the read
    loop, then the final pass over the buffer, every line of which is
    read inside a [try]. *)
Definition decode_stream (chunks : list jsstring) (remaining : jsstring)
  : option generated :=
  match read_loop JSON_parse chunks remaining [] [] with
  | None => None
  | Some (Throw e, out) => Some (Threw out e)
  | Some (Ok buffer, out) => Some (Done (out ++ final_pass JSON_parse buffer))
  end.

(** The error thrown on a response that is not [ok]. *)
Definition api_error (response : Response) : exn :=
  match JSON_parse (body_text response) with
  | None => UpstreamError (JStr (js "Unknown error"))   (* [.catch(...)] *)
  | Some JNull => TypeError
  | Some err =>
    let message := opt_prop (get_prop err (js "error")) (js "message") in
    match message with
    | Some m => if truthy m then UpstreamError m
                else UpstreamStatus (resp_status response)
    | None => UpstreamStatus (resp_status response)
    end
  end.

(** The non-streaming branch: [data.choices?.[0]?.message?.content || '']
    is yielded when it is truthy. *)
Definition non_streaming (response : Response) : generated :=
  match JSON_parse (body_text response) with
  | None => Threw [] SyntaxError
  | Some data =>
    match prop_of data k_choices with
    | Throw e => Threw [] e
    | Ok choices =>
      match opt_prop (opt_prop (opt_index0 choices) k_message) k_content with
      | Some c => if truthy c then Done [c] else Done []
      | None => Done []
      end
    end
  end.

(** [streamChatCompletion(messages, options)], with the endpoint as the
    function [fetch].  [None] only when the fuel of the inner loop runs
    out. *)
Definition streamChatCompletion
           (fetch : Request -> outcome Response) (opts : Options)
  : option generated :=
  match fetch (build_request opts) with
  | Throw e => Some (Threw [] e)
  | Ok response =>
    if negb (resp_ok response) then Some (Threw [] (api_error response))
    else if negb (useStreaming opts) then Some (non_streaming response)
    else decode_stream (resp_chunks response) (resp_flush response)
  end.

End StreamChatCompletion.

(* ------------------------------------------------------------------ *)
(** ** A JSON reader                                                   *)
(* ------------------------------------------------------------------ *)

(** [JSON.parse] is a built-in; the decoder above takes it as an argument.
    [json_parse] below follows the JSON grammar (ECMA-404) and is the
    instance used for concrete runs.  A number is kept as the exact
    rational that its literal denotes, unless a double rounds it to zero;
    whether a number is zero is all that the program asks of it. *)

Definition json_ws (c : N) : bool :=
  ((c =? 32) || (c =? 9) || (c =? 10) || (c =? 13))%N.

Fixpoint skip_ws (s : jsstring) : jsstring :=
  match s with
  | c :: s' => if json_ws c then skip_ws s' else s
  | [] => []
  end.

Definition is_digit (c : N) : bool := ((48 <=? c) && (c <=? 57))%N.

Definition hex_digit (c : N) : option N :=
  if is_digit c then Some (c - 48)%N
  else if ((97 <=? c) && (c <=? 102))%N then Some (c - 87)%N
  else if ((65 <=? c) && (c <=? 70))%N then Some (c - 55)%N
  else None.

Definition unescape (c : N) : option N :=
  if (c =? 34)%N then Some 34%N            (* quotation mark *)
  else if (c =? 92)%N then Some 92%N       (* reverse solidus *)
  else if (c =? 47)%N then Some 47%N       (* solidus *)
  else if (c =? 98)%N then Some 8%N        (* backspace *)
  else if (c =? 102)%N then Some 12%N      (* form feed *)
  else if (c =? 110)%N then Some 10%N      (* line feed *)
  else if (c =? 114)%N then Some 13%N      (* carriage return *)
  else if (c =? 116)%N then Some 9%N       (* tab *)
  else None.

(** The characters after an opening quote, up to the closing one. *)
Fixpoint read_string (s acc : jsstring) : option (jsstring * jsstring) :=
  match s with
  | [] => None
  | c :: r =>
    if (c =? 34)%N then Some (rev acc, r)
    else if (c =? 92)%N then
      match r with
      | e :: r1 =>
        if (e =? 117)%N then
          match r1 with
          | h1 :: h2 :: h3 :: h4 :: r2 =>
            match hex_digit h1, hex_digit h2, hex_digit h3, hex_digit h4 with
            | Some a, Some b, Some c', Some d =>
              read_string r2 ((a * 4096 + b * 256 + c' * 16 + d)%N :: acc)
            | _, _, _, _ => None
            end
          | _ => None
          end
        else
          match unescape e with
          | Some x => read_string r1 (x :: acc)
          | None => None
          end
      | [] => None
      end
    else if (c <? 32)%N then None
    else read_string r (c :: acc)
  end.

(** A maximal run of digits: its value, its length and the rest. *)
Fixpoint read_digits (s : jsstring) (acc : N) (n : nat)
  : N * nat * jsstring :=
  match s with
  | c :: r => if is_digit c then read_digits r (acc * 10 + (c - 48))%N (S n)
              else (acc, n, s)
  | [] => (acc, n, [])
  end.

Definition pow10 (n : N) : positive :=
  match (10 ^ n)%N with Npos p => p | N0 => 1%positive end.

(** [-? int frac? exp?] *)
(** The numbers that a double rounds to zero: those up to [2^-1075] in
    magnitude, half the least positive double. *)
Definition rounds_to_zero (q : Q) : bool :=
  Qle_bool q (Qmake 1 (Pos.pow 2 1075))
  && Qle_bool (Qopp (Qmake 1 (Pos.pow 2 1075))) q.

Definition read_number (s : jsstring) : option (Q * jsstring) :=
  let '(neg, s1) :=
      match s with
      | c :: r => if (c =? 45)%N then (true, r) else (false, s)
      | [] => (false, s)
      end in
  let '(ip, ilen, s2) := read_digits s1 0%N 0 in
  if (ilen =? 0) || ((1 <? ilen) && startsWith s1 [48%N]) then None
  else
    let frac :=
        match s2 with
        | c :: r =>
          if (c =? 46)%N then
            let '(fp, flen, s3) := read_digits r 0%N 0 in
            if flen =? 0 then None else Some (fp, flen, s3)
          else Some (0%N, 0, s2)
        | [] => Some (0%N, 0, s2)
        end in
    match frac with
    | None => None
    | Some (fp, flen, s3) =>
      let expo :=
          match s3 with
          | c :: r =>
            if ((c =? 101) || (c =? 69))%N then
              let '(eneg, r1) :=
                  match r with
                  | d :: r' =>
                    if (d =? 45)%N then (true, r')
                    else if (d =? 43)%N then (false, r')
                    else (false, r)
                  | [] => (false, r)
                  end in
              let '(ep, elen, s4) := read_digits r1 0%N 0 in
              if elen =? 0 then None else Some (eneg, ep, s4)
            else Some (false, 0%N, s3)
          | [] => Some (false, 0%N, s3)
          end in
      match expo with
      | None => None
      | Some (eneg, ep, s4) =>
        let mant := (ip * N.pos (pow10 (N.of_nat flen)) + fp)%N in
        let num := if neg then Z.opp (Z.of_N mant) else Z.of_N mant in
        let q :=
            if eneg
            then Qmake num (pow10 (N.of_nat flen) * pow10 ep)
            else Qmake (num * Z.pos (pow10 ep)) (pow10 (N.of_nat flen)) in
        Some (if rounds_to_zero q then 0%Q else Qred q, s4)
      end
    end.

(** [obj[k] = v]: a repeated key keeps its place and takes the later value. *)
Fixpoint set_field (k : jsstring) (v : json) (fs : list (jsstring * json))
  : list (jsstring * json) :=
  match fs with
  | [] => [(k, v)]
  | (k', v') :: fs' =>
    if str_eqb k k' then (k', v) :: fs' else (k', v') :: set_field k v fs'
  end.

Fixpoint read_value (fuel : nat) (s : jsstring) : option (json * jsstring) :=
  match fuel with
  | O => None
  | S f =>
    match skip_ws s with
    | [] => None
    | c :: r =>
      if (c =? 123)%N then                                   (* { *)
        match skip_ws r with
        | d :: r' => if (d =? 125)%N then Some (JObj [], r')
                     else read_members f (skip_ws r) []
        | [] => None
        end
      else if (c =? 91)%N then                               (* [ *)
        match skip_ws r with
        | d :: r' => if (d =? 93)%N then Some (JArr [], r')
                     else read_elements f r []
        | [] => None
        end
      else if (c =? 34)%N then
        match read_string r [] with
        | Some (str, r') => Some (JStr str, r')
        | None => None
        end
      else if startsWith (c :: r) (js "true") then Some (JBool true, skipn 4 (c :: r))
      else if startsWith (c :: r) (js "false") then Some (JBool false, skipn 5 (c :: r))
      else if startsWith (c :: r) (js "null") then Some (JNull, skipn 4 (c :: r))
      else
        match read_number (c :: r) with
        | Some (q, r') => Some (JNum q, r')
        | None => None
        end
    end
  end
with read_elements (fuel : nat) (s : jsstring) (acc : list json)
     : option (json * jsstring) :=
  match fuel with
  | O => None
  | S f =>
    match read_value f s with
    | None => None
    | Some (v, r) =>
      match skip_ws r with
      | d :: r' =>
        if (d =? 44)%N then read_elements f r' (v :: acc)
        else if (d =? 93)%N then Some (JArr (rev (v :: acc)), r')
        else None
      | [] => None
      end
    end
  end
with read_members (fuel : nat) (s : jsstring) (acc : list (jsstring * json))
     : option (json * jsstring) :=
  match fuel with
  | O => None
  | S f =>
    match s with
    | q :: r0 =>
      if (q =? 34)%N then
        match read_string r0 [] with
        | None => None
        | Some (k, r1) =>
          match skip_ws r1 with
          | col :: r2 =>
            if (col =? 58)%N then
              match read_value f r2 with
              | None => None
              | Some (v, r3) =>
                match skip_ws r3 with
                | d :: r4 =>
                  if (d =? 44)%N then read_members f (skip_ws r4) (set_field k v acc)
                  else if (d =? 125)%N then Some (JObj (set_field k v acc), r4)
                  else None
                | [] => None
                end
              end
            else None
          | [] => None
          end
        end
      else None
    | [] => None
    end
  end.

(** A whole text is one value between optional white space. *)
Definition json_parse (s : jsstring) : option json :=
  match read_value (2 * length s + 2) s with
  | Some (v, r) => if is_empty (skip_ws r) then Some v else None
  | None => None
  end.

(** Literals of stream bodies: in [sse "..."] an apostrophe stands for the
    quotation mark and a vertical bar for the line feed. *)
Definition sse (s : string) : jsstring :=
  map (fun c => if (c =? 39)%N then 34%N
                else if (c =? 124)%N then newline else c) (js s).

(* ------------------------------------------------------------------ *)
(** ** URL building                                                    *)
(* ------------------------------------------------------------------ *)

Definition is_alnum (c : N) : bool :=
  (is_digit c || (65 <=? c) && (c <=? 90) || (97 <=? c) && (c <=? 122))%N.

(** The characters [encodeURIComponent] leaves as they are. *)
Definition uri_unreserved (c : N) : bool :=
  is_alnum c || existsb (N.eqb c) (js "-_.!~*'()").

Definition hex_upper (n : N) : N :=
  if (n <? 10)%N then (48 + n)%N else (55 + n)%N.

Definition percent (b : N) : jsstring :=
  [37%N; hex_upper (b / 16)%N; hex_upper (b mod 16)%N].

Definition utf8_bytes (cp : N) : list N :=
  if (cp <? 128)%N then [cp]
  else if (cp <? 2048)%N then
    [(192 + cp / 64)%N; (128 + cp mod 64)%N]
  else if (cp <? 65536)%N then
    [(224 + cp / 4096)%N; (128 + (cp / 64) mod 64)%N; (128 + cp mod 64)%N]
  else
    [(240 + cp / 262144)%N; (128 + (cp / 4096) mod 64)%N;
     (128 + (cp / 64) mod 64)%N; (128 + cp mod 64)%N].

Definition is_high_surrogate (c : N) : bool := ((55296 <=? c) && (c <=? 56319))%N.
Definition is_low_surrogate (c : N) : bool := ((56320 <=? c) && (c <=? 57343))%N.

Definition prepend (p : jsstring) (o : outcome jsstring) : outcome jsstring :=
  match o with
  | Ok s => Ok (p ++ s)
  | Throw e => Throw e
  end.

(** [encodeURIComponent(s)]; a lone surrogate makes it throw. *)
Fixpoint encodeURIComponent (s : jsstring) : outcome jsstring :=
  match s with
  | [] => Ok []
  | c :: r =>
    if uri_unreserved c then prepend [c] (encodeURIComponent r)
    else if is_low_surrogate c then Throw URIError
    else if is_high_surrogate c then
      match r with
      | d :: r' =>
        if is_low_surrogate d then
          prepend
            (flat_map percent
               (utf8_bytes (65536 + (c - 55296) * 1024 + (d - 56320))%N))
            (encodeURIComponent r')
        else Throw URIError
      | [] => Throw URIError
      end
    else prepend (flat_map percent (utf8_bytes c)) (encodeURIComponent r)
  end.

(** A template literal with one encoded hole at its end. *)
Definition with_encoded (prefix : string) (u : jsstring) : outcome jsstring :=
  prepend (js prefix) (encodeURIComponent u).

(** [a || d] on strings. *)
Definition or_default (a d : jsstring) : jsstring :=
  if is_empty a then d else a.

Fixpoint replace_all_fuel (fuel : nat) (pat rep s : jsstring) : jsstring :=
  match fuel with
  | O => s
  | S f =>
    match s with
    | [] => []
    | c :: r =>
      if startsWith s pat
      then rep ++ replace_all_fuel f pat rep (skipn (length pat) s)
      else c :: replace_all_fuel f pat rep r
    end
  end.

(** [s.replace(/pat/g, rep)] for a literal, non-empty [pat]. *)
Definition replace_all (pat rep s : jsstring) : jsstring :=
  replace_all_fuel (length s) pat rep s.

(* ------------------------------------------------------------------ *)
(** ** Search results and the accumulator monad                        *)
(* ------------------------------------------------------------------ *)

Record SearchResult : Type :=
  { title : jsstring;
    snippet : jsstring;
    url : jsstring;
    source : jsstring }.

(** What the network answers to one request: the promise rejects (network
    failure, timeout, unreadable body), the response is not [ok], or the
    decoded body. *)
Inductive reply (A : Type) : Type :=
| Rejected
| NotOk
| Body (a : A).

Arguments Rejected {A}.
Arguments NotOk {A}.
Arguments Body {A} a.

(** A computation over the array [allResults]: the array survives an
    exception, as the writes made before a [throw] do. *)
Definition M (A : Type) : Type :=
  list SearchResult -> outcome A * list SearchResult.

Definition ret {A} (a : A) : M A := fun st => (Ok a, st).

Definition bind {A B} (m : M A) (k : A -> M B) : M B :=
  fun st =>
    match m st with
    | (Ok a, st') => k a st'
    | (Throw e, st') => (Throw e, st')
    end.

Notation "x <- m ;; k" := (bind m (fun x => k))
  (at level 61, m at next level, right associativity).
Notation "m ;;; k" := (bind m (fun _ => k))
  (at level 61, right associativity).

Definition lift {A} (o : outcome A) : M A := fun st => (o, st).

(** [try { m } catch (e) { console.log(...) }] *)
Definition try_catch (m : M unit) : M unit :=
  fun st => (Ok tt, snd (m st)).

Definition get_all : M (list SearchResult) := fun st => (Ok st, st).
Definition push (r : SearchResult) : M unit := fun st => (Ok tt, st ++ [r]).
Definition unshift (r : SearchResult) : M unit := fun st => (Ok tt, r :: st).

Definition when (b : bool) (m : M unit) : M unit := if b then m else ret tt.

Fixpoint for_of {A} (l : list A) (body : A -> M unit) : M unit :=
  match l with
  | [] => ret tt
  | a :: l' => body a ;;; for_of l' body
  end.

(** [await fetch(...)], the [ok] test and [await response.json()]: the
    continuation runs on a decoded body only. *)
Definition on_body {A} (r : reply A) (k : A -> M unit) : M unit :=
  match r with
  | Rejected => lift (Throw NetworkError)
  | NotOk => ret tt
  | Body a => k a
  end.

(** [if (cond && !allResults.some(r => same r))  allResults.push(item)],
    the item being built (and possibly throwing) after the test. *)
Definition push_unless (same : SearchResult -> bool)
           (item : outcome SearchResult) : M unit :=
  all <- get_all ;;
  when (negb (existsb same all)) (r <- lift item ;; push r).

(* ------------------------------------------------------------------ *)
(** ** [performWebSearch] (api.js)                                     *)
(* ------------------------------------------------------------------ *)

(** The fields the aggregator reads in the sources' answers.  An absent
    text field is the empty string (both are falsy); an absent array is
    the empty list. *)

Record Topic : Type :=
  { Text : jsstring;
    FirstURL : jsstring;
    FirstURL_hostname : outcome jsstring }.   (* [new URL(FirstURL).hostname] *)

Record DdgAnswer : Type :=
  { Abstract : jsstring;
    Heading : jsstring;
    AbstractURL : jsstring;
    AbstractSource : jsstring;
    Answer : jsstring;
    RelatedTopics : list Topic }.

Record WikiHit : Type :=
  { wiki_title : jsstring;
    wiki_snippet : jsstring }.      (* [snippet] with its [<...>] markup removed *)

Record HnHit : Type :=
  { hit_title : jsstring;
    hit_url : jsstring;
    hit_objectID : jsstring;
    hit_line : jsstring }.          (* the [points | comments | by | date] line *)

Record SoItem : Type :=
  { item_title : jsstring;
    item_link : jsstring;
    item_line : jsstring }.         (* the [Score | Answers | Views] line *)

Record RedditData : Type :=
  { d_title : jsstring;
    d_permalink : jsstring;
    d_line : jsstring }.            (* the [r/... | upvotes | comments] line *)

Record RedditPost : Type :=
  { post_data : option RedditData }.   (* [post.data], possibly [undefined] *)

(** The network as [performWebSearch] sees it for one query. *)
Record Net : Type :=
  { fetch_text : jsstring -> reply jsstring;   (* [fetch(u)] then [.text()] *)
    ddg_api : reply DdgAnswer;
    wikipedia : reply (list WikiHit);
    ru_wikipedia : reply (list WikiHit);
    hn_algolia : reply (list HnHit);
    stackexchange : reply (list SoItem);
    reddit : reply (list RedditPost) }.

Record SearchOutput : Type :=
  { success : bool;
    results : list SearchResult;
    source_label : option jsstring;    (* [source], on success *)
    error : option jsstring }.         (* [error], on failure *)

Definition search_found (all : list SearchResult) : SearchOutput :=
  {| success := true; results := firstn 15 all;
     source_label := Some (js "multi-source"); error := None |}.

Definition search_failed : SearchOutput :=
  {| success := false; results := [];
     source_label := None;
     error := Some (js "Search failed - no results from any source") |}.

(** The four proxy URL builders of [performWebSearch]. *)
Definition corsProxies4 : list (jsstring -> outcome jsstring) :=
  [ with_encoded "https://api.allorigins.win/raw?url=";
    with_encoded "https://corsproxy.io/?";
    with_encoded "https://api.codetabs.com/v1/proxy?quest=";
    fun u => Ok (js "https://thingproxy.freeboard.io/fetch/" ++ u) ].

(** [/[а-яё]/i.test(query)] *)
Definition hasRussian (query : jsstring) : bool :=
  existsb (fun c => let l := lower_unit c in
                    ((1072 <=? l) && (l <=? 1103) || (l =? 1105))%N) query.

Definition progKeywords : list jsstring :=
  map js [ "code"; "error"; "function"; "how to"; "tutorial"; "example";
           "javascript"; "python"; "react"; "typescript"; "css"; "html";
           "api"; "программирование"; "ошибка"; "код" ]%string.

Definition isProgrammingQuery (query : jsstring) : bool :=
  existsb (fun kw => includes (toLowerCase query) kw) progKeywords.

Definition same_url (u : jsstring) (r : SearchResult) : bool := str_eqb (url r) u.
Definition same_title (t : jsstring) (r : SearchResult) : bool := str_eqb (title r) t.
Definition same_snippet (s : jsstring) (r : SearchResult) : bool := str_eqb (snippet r) s.

Section PerformWebSearch.

(** The scraper of the result page (l.1391), regular expressions over
    the markup; it throws when [decodeURIComponent] does. *)
Variable parseSearchResults : jsstring -> outcome (list SearchResult).

Variable net : Net.

(** [fetchWithProxies(url)]: [None] is [null]. *)
Fixpoint fetchWithProxies_from (proxies : list (jsstring -> outcome jsstring))
         (u : jsstring) : option jsstring :=
  match proxies with
  | [] => None
  | getProxyUrl :: rest =>
    match getProxyUrl u with
    | Throw _ => fetchWithProxies_from rest u                    (* catch *)
    | Ok proxyUrl =>
      match fetch_text net proxyUrl with
      | Body html => Some html
      | NotOk => fetchWithProxies_from rest u
      | Rejected => fetchWithProxies_from rest u                 (* catch *)
      end
    end
  end.

Definition fetchWithProxies := fetchWithProxies_from corsProxies4.

(** SOURCE 1: the scraped result page. *)
Definition source_html (query : jsstring) : M unit :=
  try_catch (
    searchUrl <- lift (with_encoded "https://html.duckduckgo.com/html/?q=" query) ;;
    match fetchWithProxies searchUrl with
    | None => ret tt
    | Some html =>
      when (negb (is_empty html)) (
        scrapedResults <- lift (parseSearchResults html) ;;
        for_of scrapedResults (fun result =>
          push_unless (same_url (url result)) (Ok result)))
    end).

(** SOURCE 2: the instant-answer API.  The abstract and the answer go to
    the front of the list ... *)
Definition quick_answers (data0 : DdgAnswer) : M unit :=
  when (negb (is_empty (Abstract data0)) && (30 <? length (Abstract data0)))
       (unshift {| title := or_default (Heading data0) (js "Quick Answer");
                   snippet := Abstract data0;
                   url := AbstractURL data0;
                   source := or_default (AbstractSource data0) (js "DuckDuckGo") |}) ;;;
  when (negb (is_empty (Answer data0)))
       (unshift {| title := js "Direct Answer";
                   snippet := Answer data0;
                   url := [];
                   source := js "DuckDuckGo" |}).

(** ... and the first three related topics to its end. *)
Definition related_topics (data0 : DdgAnswer) : M unit :=
  for_of (firstn 3 (RelatedTopics data0)) (fun topic =>
    when (negb (is_empty (Text topic)))
         (push_unless (same_snippet (Text topic))
            (match (if is_empty (FirstURL topic) then Ok (js "Related")
                    else FirstURL_hostname topic) with
             | Throw e => Throw e
             | Ok t => Ok {| title := t;
                             snippet := Text topic;
                             url := FirstURL topic;
                             source := js "DuckDuckGo" |}
             end))).

Definition source_instant (query : jsstring) : M unit :=
  try_catch (
    _ <- lift (encodeURIComponent query) ;;
    on_body (ddg_api net) (fun data0 =>
      quick_answers data0 ;;; related_topics data0)).

(** SOURCES 3 and 4: the Wikipedia search of one language. *)
Definition source_wiki (query : jsstring) (answer : reply (list WikiHit))
           (base : string) (label : jsstring) : M unit :=
  try_catch (
    _ <- lift (encodeURIComponent query) ;;
    on_body answer (fun searchResults =>
      for_of searchResults (fun result =>
        when (negb (is_empty (wiki_snippet result)))
             (push_unless (same_title (wiki_title result))
                (match with_encoded base
                         (map (fun c => if (c =? 32)%N then 95%N else c)
                              (wiki_title result)) with
                 | Throw e => Throw e
                 | Ok u => Ok {| title := wiki_title result;
                                 snippet := wiki_snippet result;
                                 url := u;
                                 source := label |}
                 end))))).

(** SOURCE 5: Hacker News. *)
Definition source_hn (query : jsstring) : M unit :=
  try_catch (
    _ <- lift (encodeURIComponent query) ;;
    on_body (hn_algolia net) (fun hits =>
      for_of (firstn 5 hits) (fun hit =>
        when (negb (is_empty (hit_title hit)))
             (push_unless (same_title (hit_title hit))
                (Ok {| title := hit_title hit;
                       snippet := hit_line hit;
                       url := or_default (hit_url hit)
                                (js "https://news.ycombinator.com/item?id="
                                    ++ hit_objectID hit);
                       source := js "Hacker News" |}))))).

Definition decode_entities (t : jsstring) : jsstring :=
  replace_all (js "&amp;") (js "&")
    (replace_all (js "&#39;") (js "'")
       (replace_all (js "&quot;") [34%N] t)).

(** SOURCE 6: Stack Overflow. *)
Definition source_so (query : jsstring) : M unit :=
  try_catch (
    _ <- lift (encodeURIComponent query) ;;
    on_body (stackexchange net) (fun items =>
      for_of (firstn 3 items) (fun item =>
        when (negb (is_empty (item_title item)))
             (push_unless (same_url (item_link item))
                (Ok {| title := decode_entities (item_title item);
                       snippet := item_line item;
                       url := item_link item;
                       source := js "Stack Overflow" |}))))).

(** SOURCE 7: Reddit. *)
Definition source_reddit (query : jsstring) : M unit :=
  try_catch (
    _ <- lift (encodeURIComponent query) ;;
    on_body (reddit net) (fun children =>
      for_of (firstn 3 children) (fun post =>
        match post_data post with
        | None => lift (Throw TypeError)     (* [d.title] of [undefined] *)
        | Some d =>
          let u := js "https://reddit.com" ++ d_permalink d in
          when (negb (is_empty (d_title d)))
               (push_unless (same_url u)
                  (Ok {| title := d_title d;
                         snippet := d_line d;
                         url := u;
                         source := js "Reddit" |}))
        end))).

(** The seven sources in program order. *)
Definition sources (query : jsstring) : list (M unit) :=
  [ source_html query;
    source_instant query;
    source_wiki query (wikipedia net) "https://en.wikipedia.org/wiki/"
                (js "Wikipedia");
    when (hasRussian query)
         (source_wiki query (ru_wikipedia net) "https://ru.wikipedia.org/wiki/"
                      (js "Википедия"));
    source_hn query;
    when (isProgrammingQuery query) (source_so query);
    source_reddit query ].

Definition gather (query : jsstring) : M unit :=
  for_of (sources query) (fun s => s).

(** [performWebSearch(query)] *)
Definition performWebSearch (query : jsstring) : outcome SearchOutput :=
  match gather query [] with
  | (Throw e, _) => Throw e
  | (Ok _, allResults) =>
    if 0 <? length allResults
    then Ok (search_found allResults)
    else Ok search_failed
  end.

End PerformWebSearch.

(* ------------------------------------------------------------------ *)
(** ** [web_search] (MCP server, index.ts)                             *)
(* ------------------------------------------------------------------ *)

Record WikiSummary : Type :=
  { extract : jsstring;
    summary_title : jsstring;
    summary_page : jsstring }.      (* [content_urls?.desktop?.page] *)

(** One [.result] element of the scraped page, as cheerio reads it. *)
Record ResultElement : Type :=
  { el_title : jsstring;            (* [.result__a] text, trimmed *)
    el_href : jsstring;             (* [.result__a] href, or the empty string *)
    el_snippet : jsstring }.        (* [.result__snippet] text, trimmed *)

(** The network as the server sees it for one query; [webClient.get]
    throws on every failure, a status outside 2xx included. *)
Record McpNet : Type :=
  { mcp_ddg : outcome DdgAnswer;
    mcp_wiki : outcome WikiSummary;
    mcp_page : jsstring -> outcome (list ResultElement);
    mcp_hn : outcome (list HnHit) }.

Inductive ToolResult : Type :=
| InvalidArguments                                  (* the schema rejects *)
| NoResults
| Listing (shown : list SearchResult) (found : nat)
| ToolError (e : exn).

(** The three proxy URL builders of the server and of [fetchUrlContent]. *)
Definition corsProxies : list (jsstring -> outcome jsstring) :=
  [ with_encoded "https://api.allorigins.win/raw?url=";
    with_encoded "https://corsproxy.io/?";
    with_encoded "https://api.codetabs.com/v1/proxy?quest=" ].

Definition techKeywords : list jsstring :=
  map js [ "programming"; "software"; "code"; "developer"; "tech"; "api";
           "javascript"; "python"; "react"; "ai"; "machine learning";
           "startup" ]%string.

Definition len_Q (l : list SearchResult) : Q := inject_Z (Z.of_nat (length l)).

(** [results.length < max_results] and [results.length >= max_results] *)
Definition below (l : list SearchResult) (max_results : Q) : bool :=
  negb (Qle_bool max_results (len_Q l)).
Definition reached (l : list SearchResult) (max_results : Q) : bool :=
  Qle_bool max_results (len_Q l).

(** [ToIntegerOrInfinity] on a finite number: truncation towards zero. *)
Definition to_integer (q : Q) : Z :=
  if Qle_bool 0 q then Qfloor q else Z.opp (Qfloor (Qopp q)).

(** [l.slice(0, n)] *)
Definition slice0 {A} (l : list A) (n : Q) : list A :=
  let e := to_integer n in
  if (e <? 0)%Z then firstn (Z.to_nat (Z.max (Z.of_nat (length l) + e) 0)) l
  else firstn (Z.to_nat e) l.

(** [z.number().min(1).max(20).optional()] *)
Definition schema_accepts (max_results : option Q) : bool :=
  match max_results with
  | None => true
  | Some m => Qle_bool 1 m && Qle_bool m 20
  end.

Section WebSearchTool.

Variable net : McpNet.

Definition mcp_instant (query : jsstring) : M unit :=
  try_catch (
    _ <- lift (encodeURIComponent query) ;;
    data <- lift (mcp_ddg net) ;;
    when (negb (is_empty (Abstract data)))
         (push {| title := or_default (Heading data) (js "DuckDuckGo Result");
                  snippet := Abstract data;
                  url := AbstractURL data;
                  source := or_default (AbstractSource data) (js "DuckDuckGo") |}) ;;;
    when (negb (is_empty (Answer data)))
         (push {| title := js "Direct Answer";
                  snippet := Answer data;
                  url := [];
                  source := js "DuckDuckGo" |}) ;;;
    for_of (firstn 5 (RelatedTopics data)) (fun topic =>
      when (negb (is_empty (Text topic)))
           (t <- lift (if is_empty (FirstURL topic) then Ok (js "Related")
                       else FirstURL_hostname topic) ;;
            push {| title := t;
                    snippet := Text topic;
                    url := FirstURL topic;
                    source := js "DuckDuckGo" |}))).

Definition mcp_wikipedia (query : jsstring) : M unit :=
  try_catch (
    q <- lift (encodeURIComponent query) ;;
    w <- lift (mcp_wiki net) ;;
    when (negb (is_empty (extract w)) && (50 <? length (extract w)))
         (push {| title := or_default (summary_title w) query;
                  snippet := extract w;
                  url := or_default (summary_page w)
                           (js "https://en.wikipedia.org/wiki/" ++ q);
                  source := js "Wikipedia" |})).

(** The callback of [$(".result").each]: [return false] stops the
    iteration once the cap is reached. *)
Fixpoint each_result (max_results : Q) (elems : list ResultElement) : M unit :=
  match elems with
  | [] => ret tt
  | elem :: rest =>
    all <- get_all ;;
    if reached all max_results then ret tt
    else
      when (negb (is_empty (el_title elem)) && negb (is_empty (el_snippet elem)))
           (push_unless
              (fun r => str_eqb (url r) (el_href elem)
                        || str_eqb (snippet r) (el_snippet elem))
              (Ok {| title := el_title elem;
                     url := el_href elem;
                     snippet := el_snippet elem;
                     source := js "Web" |})) ;;;
      each_result max_results rest
  end.

(** The loop over the proxies of the scraping step; an iteration that
    throws is abandoned ([continue]), one that fills the list ends the
    loop ([break]). *)
Fixpoint scrape_with (query : jsstring) (max_results : Q)
         (proxies : list (jsstring -> outcome jsstring)) : M unit :=
  match proxies with
  | [] => ret tt
  | getProxyUrl :: rest =>
    try_catch (
      searchUrl <- lift (with_encoded "https://html.duckduckgo.com/html/?q=" query) ;;
      proxyUrl <- lift (getProxyUrl searchUrl) ;;
      elems <- lift (mcp_page net proxyUrl) ;;
      each_result max_results elems) ;;;
    all <- get_all ;;
    if reached all max_results then ret tt
    else scrape_with query max_results rest
  end.

Definition mcp_scrape (query : jsstring) (max_results : Q) : M unit :=
  all <- get_all ;;
  when (below all max_results) (scrape_with query max_results corsProxies).

(** The loop over the hits: [break] once the cap is reached. *)
Fixpoint each_hit (max_results : Q) (hits : list HnHit) : M unit :=
  match hits with
  | [] => ret tt
  | hit :: rest =>
    all <- get_all ;;
    if reached all max_results then ret tt
    else
      push {| title := or_default (hit_title hit) (js "Hacker News");
              snippet := hit_line hit;
              url := or_default (hit_url hit)
                       (js "https://news.ycombinator.com/item?id="
                           ++ hit_objectID hit);
              source := js "Hacker News" |} ;;;
      each_hit max_results rest
  end.

Definition mcp_hacker_news (query : jsstring) (max_results : Q) : M unit :=
  when (existsb (fun kw => includes (toLowerCase query) kw) techKeywords)
       (try_catch (
          _ <- lift (encodeURIComponent query) ;;
          hits <- lift (mcp_hn net) ;;
          each_hit max_results hits)).

(** All the results collected by the handler, before the final cut. *)
Definition collect (query : jsstring) (max_results : Q) : M unit :=
  mcp_instant query ;;;
  mcp_wikipedia query ;;;
  mcp_scrape query max_results ;;;
  mcp_hacker_news query max_results.

(** The handler of the tool, [max_results] already defaulted. *)
Definition web_search_handler (query : jsstring) (max_results : Q)
  : ToolResult :=
  match collect query max_results [] with
  | (Throw e, _) => ToolError e                           (* outer catch *)
  | (Ok _, all) =>
    if length all =? 0 then NoResults
    else Listing (slice0 all max_results) (length all)
  end.

(** The tool as the server exposes it: arguments checked against the
    schema, then [max_results = 10] by default. *)
Definition web_search (query : jsstring) (max_results : option Q)
  : ToolResult :=
  if schema_accepts max_results then
    web_search_handler query
      (match max_results with Some m => m | None => inject_Z 10 end)
  else InvalidArguments.

End WebSearchTool.

(* ------------------------------------------------------------------ *)
(** ** Fetcher / ProxyChain                                            *)
(* ------------------------------------------------------------------ *)

(** Both fetchers return, next to their result, the list of the URLs they
    requested, in order: the observable sequence of attempts. *)

(** The object returned by [fetchUrlContent]. *)
Inductive FetchOutcome : Type :=
| FetchSuccess (target content page_title : jsstring)
| FetchFailure (target error : jsstring).

Section FetchUrlContent.

(** [extractTextFromHtml] and [extractTitle] (l.1091-1151): regular
    expressions over the markup, total. *)
Variable extractTextFromHtml : jsstring -> jsstring -> jsstring.
Variable extractTitle : jsstring -> jsstring.

(** [fetch(u)] followed by [response.text()]. *)
Variable fetch_page : jsstring -> reply jsstring.

Fixpoint fetchUrlContent_from (proxies : list (jsstring -> outcome jsstring))
         (target : jsstring) : FetchOutcome * list jsstring :=
  match proxies with
  | [] =>
    (FetchFailure target
       (js "Failed to fetch URL content through available proxies"), [])
  | getProxyUrl :: rest =>
    match getProxyUrl target with
    | Throw _ => fetchUrlContent_from rest target                (* catch *)
    | Ok proxyUrl =>
      match fetch_page proxyUrl with
      | Body html =>
        (FetchSuccess target (extractTextFromHtml html target)
                      (extractTitle html), [proxyUrl])
      | NotOk | Rejected =>                                      (* continue *)
        let (r, attempts) := fetchUrlContent_from rest target in
        (r, proxyUrl :: attempts)
      end
    end
  end.

(** [fetchUrlContent(url)] (api.js) *)
Definition fetchUrlContent (target : jsstring) : FetchOutcome * list jsstring :=
  fetchUrlContent_from corsProxies target.

End FetchUrlContent.

Record AxiosResponse : Type :=
  { content_type : jsstring;
    data : jsstring }.

(** The result of the [fetch_url] tool: the response it goes on to format,
    or the error text of its [catch]. *)
Inductive FetchUrlResult : Type :=
| UrlContent (response : AxiosResponse)
| UrlError (message : jsstring).

Section FetchUrlTool.

(** [webClient.get(u)]: throws on every failure. *)
Variable webClient_get : jsstring -> outcome AxiosResponse.

Fixpoint via_proxies (proxies : list (jsstring -> outcome jsstring))
         (target : jsstring) : option AxiosResponse * list jsstring :=
  match proxies with
  | [] => (None, [])
  | getProxyUrl :: rest =>
    match getProxyUrl target with
    | Throw _ => via_proxies rest target                         (* continue *)
    | Ok proxyUrl =>
      match webClient_get proxyUrl with
      | Ok response => (Some response, [proxyUrl])               (* break *)
      | Throw _ =>                                               (* continue *)
        let (r, attempts) := via_proxies rest target in
        (r, proxyUrl :: attempts)
      end
    end
  end.

(** [fetch_url({url})] (index.ts), up to the response it formats. *)
Definition fetch_url (target : jsstring) : FetchUrlResult * list jsstring :=
  let (response, attempts) :=
      match webClient_get target with
      | Ok response => (Some response, [target])
      | Throw _ =>
        let (r, attempts) := via_proxies corsProxies target in
        (r, target :: attempts)
      end in
  match response with
  | Some r => (UrlContent r, attempts)
  | None =>
    (UrlError (js "Failed to fetch URL through all available methods"),
     attempts)
  end.

End FetchUrlTool.

(* ------------------------------------------------------------------ *)
(** ** Regular expressions                                             *)
(* ------------------------------------------------------------------ *)

(** The fragment of the pattern language that [detectQueryIntent] uses,
    matched with the [i] flag. *)
Inductive regex : Type :=
| Never                          (* matches nothing *)
| Empty                          (* the empty pattern *)
| Chr (c : N)                    (* one literal character *)
| Class (cs : jsstring)          (* [[...]] *)
| Digit                          (* [\d] *)
| Space                          (* [\s] *)
| Dot                            (* [.] *)
| Seq (r1 r2 : regex)
| Alt (r1 r2 : regex)
| Star (r : regex).              (* [r*], and [r*?] for a mere [test] *)

(** [Canonicalize] under the [i] flag, on the alphabets of [lower_unit]. *)
Definition canonicalize (c : N) : N :=
  if ((97 <=? c) && (c <=? 122))%N then (c - 32)%N
  else if ((224 <=? c) && (c <=? 254) && negb (c =? 247))%N then (c - 32)%N
  else if ((1072 <=? c) && (c <=? 1103))%N then (c - 32)%N
  else if ((1104 <=? c) && (c <=? 1119))%N then (c - 80)%N
  else c.

Definition same_char (a b : N) : bool := (canonicalize a =? canonicalize b)%N.

Definition line_terminator (c : N) : bool :=
  ((c =? 10) || (c =? 13) || (c =? 8232) || (c =? 8233))%N.

Fixpoint nullable (r : regex) : bool :=
  match r with
  | Never => false
  | Empty => true
  | Chr _ | Class _ | Digit | Space | Dot => false
  | Seq r1 r2 => nullable r1 && nullable r2
  | Alt r1 r2 => nullable r1 || nullable r2
  | Star _ => true
  end.

Definition seq (r1 r2 : regex) : regex :=
  match r1, r2 with
  | Never, _ => Never
  | _, Never => Never
  | Empty, _ => r2
  | _, _ => Seq r1 r2
  end.

Definition alt (r1 r2 : regex) : regex :=
  match r1, r2 with
  | Never, _ => r2
  | _, Never => r1
  | _, _ => Alt r1 r2
  end.

Definition accepts (b : bool) : regex := if b then Empty else Never.

(** What remains to be matched once [x] has been read. *)
Fixpoint deriv (x : N) (r : regex) : regex :=
  match r with
  | Never | Empty => Never
  | Chr c => accepts (same_char c x)
  | Class cs => accepts (existsb (fun c => same_char c x) cs)
  | Digit => accepts (is_digit x)
  | Space => accepts (is_white x)
  | Dot => accepts (negb (line_terminator x))
  | Seq r1 r2 =>
    if nullable r1 then alt (seq (deriv x r1) r2) (deriv x r2)
    else seq (deriv x r1) r2
  | Alt r1 r2 => alt (deriv x r1) (deriv x r2)
  | Star r1 => seq (deriv x r1) (Star r1)
  end.

(** A match that starts at the head of [s]. *)
Fixpoint match_here (r : regex) (s : jsstring) : bool :=
  nullable r ||
  match s with
  | [] => false
  | x :: s' => match_here (deriv x r) s'
  end.

(** [r.test(s)]: a match that starts anywhere. *)
Fixpoint test (r : regex) (s : jsstring) : bool :=
  match_here r s ||
  match s with
  | [] => false
  | _ :: s' => test r s'
  end.

(** The strings of a pattern, as the language of the pattern defines
    them. *)
Inductive matches : regex -> jsstring -> Prop :=
| MEmpty : matches Empty []
| MChr c x : same_char c x = true -> matches (Chr c) [x]
| MClass cs x :
    existsb (fun c => same_char c x) cs = true -> matches (Class cs) [x]
| MDigit x : is_digit x = true -> matches Digit [x]
| MSpace x : is_white x = true -> matches Space [x]
| MDot x : line_terminator x = false -> matches Dot [x]
| MSeq r1 r2 s1 s2 :
    matches r1 s1 -> matches r2 s2 -> matches (Seq r1 r2) (s1 ++ s2)
| MAltL r1 r2 s : matches r1 s -> matches (Alt r1 r2) s
| MAltR r1 r2 s : matches r2 s -> matches (Alt r1 r2) s
| MStarNil r : matches (Star r) []
| MStarApp r s1 s2 :
    matches r s1 -> matches (Star r) s2 -> matches (Star r) (s1 ++ s2).

Definition lit (s : string) : regex := fold_right (fun c r => Seq (Chr c) r) Empty (js s).
Definition opt (r : regex) : regex := Alt r Empty.
Definition plus (r : regex) : regex := Seq r (Star r).
Definition cls (s : string) : regex := Class (js s).
Definition any_of (l : list string) : regex :=
  fold_right (fun s r => Alt (lit s) r) Never l.
Fixpoint cat (l : list regex) : regex :=
  match l with
  | [] => Empty
  | r :: l' => Seq r (cat l')
  end.

(* ------------------------------------------------------------------ *)
(** ** IntentClassifier ([detectQueryIntent])                          *)
(* ------------------------------------------------------------------ *)

Inductive Intent : Type := time | weather | currency | news | search.

Definition spaces : regex := Star Space.       (* [\s*] *)
Definition spaces1 : regex := plus Space.      (* [\s+] *)
Definition anything : regex := Star Dot.       (* [.*?] *)

Definition timePatterns : list regex :=
  [ cat [lit "како"; opt (lit "е"); spaces;
         opt (cat [lit "сегодня"; spaces]);
         any_of ["число"; "дата"; "время"; "день"]%string];
    cat [lit "сколько"; spaces; opt (cat [lit "сейчас"; spaces]);
         any_of ["времени"; "время"]%string];
    cat [lit "который"; spaces1; lit "час"];
    cat [lit "what"; spaces; opt (cat [lit "is"; spaces; lit "the"; spaces]);
         any_of ["time"; "date"; "day"]%string];
    cat [lit "current"; spaces; any_of ["time"; "date"]%string] ].

Definition weatherPatterns : list regex :=
  [ cat [lit "погод"; cls "аеуы"];
    lit "weather";
    cat [lit "температур"; cls "аеуы"];
    lit "temperature";
    cat [lit "какая"; spaces1; lit "погода"] ].

Definition currencyPatterns : list regex :=
  [ lit "курс";
    cat [lit "exchange"; spaces; lit "rate"];
    cat [lit "сколько"; spaces1; any_of ["стоит"; "будет"]%string; anything;
         any_of ["доллар"; "евро"; "рубл"; "bitcoin"; "btc"; "eth"]%string];
    cat [lit "convert"; anything; any_of ["usd"; "eur"; "rub"; "btc"]%string];
    cat [plus Digit; spaces;
         any_of ["usd"; "eur"; "rub"; "dollar"; "euro"; "рубл"]%string] ].

(** The second and third characters of the last pattern are two U+FFFD
    replacement characters in the program text. *)
Definition newsPatterns : list regex :=
  [ cat [lit "новост"; cls "иья"];
    lit "news";
    cat [lit "что"; spaces1; any_of ["нового"; "происходит"; "случилось"]%string];
    cat [lit "п"; Chr 65533; Chr 65533; lit "следние"; spaces1;
         any_of ["события"; "новости"]%string] ].

(** [patterns.some(p => p.test(s))] *)
Definition some_test (patterns : list regex) (s : jsstring) : bool :=
  existsb (fun p => test p s) patterns.

Definition detectQueryIntent (query : jsstring) : Intent :=
  let lowerQuery := toLowerCase query in
  if some_test timePatterns lowerQuery then time
  else if some_test weatherPatterns lowerQuery then weather
  else if some_test currencyPatterns lowerQuery then currency
  else if some_test newsPatterns lowerQuery then news
  else search.

(* ------------------------------------------------------------------ *)
(** ** The framing of a body, line by line                             *)
(* ------------------------------------------------------------------ *)

(** A text without line feed. *)
Definition nl_free (l : jsstring) : Prop := ~ In newline l.

(** The lines of [s] that end with a line feed (without it), and what
    follows the last line feed. *)
Fixpoint lines_rest (s : jsstring) : list jsstring * jsstring :=
  match s with
  | [] => ([], [])
  | x :: s' =>
    let (ls, r) := lines_rest s' in
    if (x =? newline)%N then ([] :: ls, r)
    else match ls with
         | [] => ([], x :: r)
         | l :: ls' => ((x :: l) :: ls', r)
         end
  end.

Section Framing.

Variable JSON_parse : jsstring -> option json.

(** What the scan of [scan_buffer] amounts to on the complete lines [ls]
    that follow the text [pending], kept back because no frame could be
    read from it yet: a blank or readable line is consumed together with
    [pending]; an unreadable one joins it.  [out] collects the fragments
    read; the scan yields them one by one, up to the first that cannot be
    added to a string (see [addable_prefix] below). *)
Fixpoint consume (pending : jsstring) (ls : list jsstring) (out : list json)
  : jsstring * list json :=
  match ls with
  | [] => (pending, out)
  | l :: ls' =>
    let line := pending ++ l in
    if is_empty (trim line) then consume [] ls' out
    else
      let result := processLine JSON_parse line in
      if incomplete result then consume (line ++ [newline]) ls' out
      else consume [] ls'
                   (if truthy (content result) then out ++ [content result]
                    else out)
  end.

(** The buffer and the fragments read once the whole text [body] has
    gone through the read loop, however it was cut into chunks. *)
Definition framed (body : jsstring) : jsstring * list json :=
  let (ls, r) := lines_rest body in
  let (pending, out) := consume [] ls [] in
  (pending ++ r, out).

(** The fragments of a whole stream, from its text: those that the read
    loop reads, then those of the final pass. *)
Definition fragments_of (body remaining : jsstring) : list json :=
  let (buffer, out) := framed body in
  out ++ final_pass JSON_parse
                    (if is_empty remaining then buffer else buffer ++ remaining).

End Framing.

(** The fragments that the read loop yields of those it reads in [frags]:
    the ones before the first that cannot be added to a string. *)
Fixpoint addable_prefix (frags : list json) : list json :=
  match frags with
  | [] => []
  | f :: rest => if addable f then f :: addable_prefix rest else []
  end.

(** How the read loop ends when the lines it scans give the fragments
    [frags] and leave [buffer]: at the end of the stream, or at the
    [TypeError] of l.240. *)
Definition loop_end (buffer : jsstring) (frags : list json)
  : outcome jsstring * list json :=
  if forallb addable frags then (Ok buffer, frags)
  else (Throw TypeError, addable_prefix frags).

(** The run of the streaming branch when the read loop reads the fragments
    [frags] and the final pass the fragments [last]. *)
Definition stream_end (frags last : list json) : generated :=
  if forallb addable frags then Done (frags ++ last)
  else Threw (addable_prefix frags) TypeError.

(** The run of the streaming branch on a whole stream, from its text. *)
Definition stream_run (JSON_parse : jsstring -> option json)
           (body remaining : jsstring) : generated :=
  stream_end (snd (framed JSON_parse body))
             (final_pass JSON_parse
                (if is_empty remaining then fst (framed JSON_parse body)
                 else fst (framed JSON_parse body) ++ remaining)).

(** One run after another: what the second yields follows what the first
    yields, unless the first throws. *)
Definition run_then (g1 g2 : generated) : generated :=
  match g1 with
  | Threw ys e => Threw ys e
  | Done ys1 =>
    match g2 with
    | Done ys2 => Done (ys1 ++ ys2)
    | Threw ys2 e => Threw (ys1 ++ ys2) e
    end
  end.

Section KeptBack.

Variable JSON_parse : jsstring -> option json.

(** A text that a new scan of the buffer keeps back again as it is: it
    ends with a line feed (or is empty), and scanning its lines anew
    leads to the state in which it is kept back. *)
Definition kept_back (p : jsstring) : Prop :=
  snd (lines_rest p) = []
  /\ forall ls out,
      consume JSON_parse [] (fst (lines_rest p) ++ ls) out
      = consume JSON_parse p ls out.

End KeptBack.

(** A response delivered in other chunks, and an endpoint that always
    answers with the same response. *)
Definition rechunk (r : Response) (chunks : list jsstring) : Response :=
  {| resp_ok := resp_ok r;
     resp_status := resp_status r;
     resp_chunks := chunks;
     resp_flush := resp_flush r |}.


Definition serve (r : Response) : Request -> outcome Response :=
  fun _ => Ok r.

(** The fragments of a run. *)
Definition yields_of (g : option generated) : list json :=
  match g with
  | Some (Done ys) => ys
  | Some (Threw ys _) => ys
  | None => []
  end.

(* ------------------------------------------------------------------ *)
(** ** Sample streams                                                  *)
(* ------------------------------------------------------------------ *)

Definition flash_options : Options :=
  {| model := js "gemini-2.5-flash"; forceNonStreaming := false |}.

Definition opus_thinking_options (force : bool) : Options :=
  {| model := js "claude-opus-4.5-thinking"; forceNonStreaming := force |}.

(** A complete stream of two events and the end marker. *)
Definition hello_body : jsstring :=
  sse "data: {'choices':[{'delta':{'content':'Hel'}}]}||data: {'choices':[{'delta':{'content':'lo'}}]}|data: [DONE]|".

(** A stream cut in the middle of its second event. *)
Definition cut_head : jsstring :=
  sse "data: {'choices':[{'delta':{'content':'Hel'}}]}|".
Definition cut_remnant : jsstring :=
  sse "data: {'choices':[{'delta':{'conte".

Definition ok_response (chunks : list jsstring) : Response :=
  {| resp_ok := true; resp_status := 200%N;
     resp_chunks := chunks; resp_flush := [] |}.

(** A stream of bytes cut inside a Cyrillic letter of its second event:
    the decoder keeps the first byte of the letter back and flushes
    U+FFFD for it when the reader is done. *)
Definition letter_remnant : jsstring :=
  sse "data: {'choices':[{'delta':{'content':'При".

Definition cut_in_letter : Response :=
  {| resp_ok := true; resp_status := 200%N;
     resp_chunks := [cut_head; letter_remnant];
     resp_flush := [65533%N] |}.

(** An event whose content cannot be added to a string, then an event
    cut in the middle of its JSON. *)
Definition unaddable_then_cut : jsstring :=
  sse "data: {'content':{'toString':1}}|data: {'choices':[{'delta':{'conte".

(** The event [{choices:[{delta:{content:''}}], content:'x'}]. *)
Definition empty_delta_event : json :=
  JObj [ (k_choices, JArr [JObj [(k_delta, JObj [(k_content, JStr [])])]]);
         (k_content, JStr (js "x")) ].

Definition empty_delta_text : jsstring :=
  sse "{'choices':[{'delta':{'content':''}}],'content':'x'}".

(** A non-streaming answer whose message content is [Hello]. *)
Definition hello_message_text : jsstring :=
  sse "{'choices':[{'message':{'role':'assistant','content':'Hello'}}]}".

(** A non-streaming answer that holds reasoning and an empty content. *)
Definition reasoning_only_text : jsstring :=
  sse "{'choices':[{'message':{'role':'assistant','content':'','reasoning_content':'Let me think.'}}]}".

(** An endpoint that streams when asked to and answers with one JSON
    document otherwise. *)
Definition hello_endpoint (request : Request) : outcome Response :=
  if req_stream request then Ok (ok_response [hello_body])
  else Ok (ok_response [hello_message_text]).

(** [data.choices?.[0]?.message?.content] of a non-streaming answer. *)
Definition message_content (data0 : json) : jsval :=
  opt_prop (opt_prop (opt_index0 (get_prop data0 k_choices)) k_message) k_content.

(** What every fragment is: a truthy value, hence neither the empty string
    nor [null]. *)
Definition proper_fragment (f : json) : Prop :=
  truthy f = true /\ f <> JStr [] /\ f <> JNull.

(** One block of text, as the content arrays of some providers carry it. *)
Definition text_part : json :=
  JObj [(js "type", JStr (js "text")); (js "text", JStr (js "hi"))].

(** A stream whose only event carries its content as an array of blocks. *)
Definition parts_body : jsstring :=
  sse "data: {'type':'message','role':'assistant','content':[{'type':'text','text':'hi'}]}|data: [DONE]|".

(** An event whose [delta.content] is an array of blocks. *)
Definition parts_event : json :=
  JObj [ (k_choices,
          JArr [JObj [(k_delta, JObj [(k_content, JArr [text_part])])]]);
         (k_content, JStr (js "x")) ].

(* ------------------------------------------------------------------ *)
(** ** The attempts of a proxy chain                                   *)
(* ------------------------------------------------------------------ *)

(** The URLs that a list of builders gives for a target, in order; a
    builder that throws gives none. *)
Definition built_urls (proxies : list (jsstring -> outcome jsstring))
           (target : jsstring) : list jsstring :=
  flat_map (fun getProxyUrl =>
              match getProxyUrl target with
              | Ok u => [u]
              | Throw _ => []
              end) proxies.

Definition proxy_urls (target : jsstring) : list jsstring :=
  built_urls corsProxies target.

(** An attempt of [fetchUrlContent] fails when the request is rejected or
    the answer is not [ok]; one of [fetch_url] fails when [get] throws. *)
Definition page_fails (fetch_page : jsstring -> reply jsstring) (u : jsstring) : Prop :=
  fetch_page u = Rejected \/ fetch_page u = NotOk.

Definition get_fails (webClient_get : jsstring -> outcome AxiosResponse)
           (u : jsstring) : Prop :=
  exists e, webClient_get u = Throw e.

(** "Direct retrieval first": the first request is for the target itself. *)
Definition direct_first (attempts : list jsstring) (target : jsstring) : Prop :=
  exists rest, attempts = target :: rest.

(** A page that answers directly, behind proxies that are all down. *)
Definition example_url : jsstring := js "https://example.com/".

Definition only_direct (u : jsstring) : reply jsstring :=
  if str_eqb u example_url then Body (js "<title>Example</title>") else Rejected.

(** The third proxy alone answers. *)
Definition third_proxy_only (u : jsstring) : outcome AxiosResponse :=
  if startsWith u (js "https://api.codetabs.com/")
  then Ok {| content_type := js "text/plain"; data := js "through codetabs" |}
  else Throw NetworkError.

(* ------------------------------------------------------------------ *)
(** ** Notions for the aggregators                                     *)
(* ------------------------------------------------------------------ *)

Definition by_url (x r : SearchResult) : bool := str_eqb (url x) (url r).
Definition by_title (x r : SearchResult) : bool := str_eqb (title x) (title r).
Definition by_snippet (x r : SearchResult) : bool := str_eqb (snippet x) (snippet r).
Definition by_url_or_snippet (x r : SearchResult) : bool :=
  str_eqb (url x) (url r) || str_eqb (snippet x) (snippet r).
Definition unchecked (x r : SearchResult) : bool := false.

(** The results [added] after the list [st] were each new, in the sense of
    [same], among all the results listed before it. *)
Definition fresh_run (same : SearchResult -> SearchResult -> bool)
           (st added : list SearchResult) : Prop :=
  forall a1 r a2,
    added = a1 ++ r :: a2 ->
    forall x, In x (st ++ a1) -> same x r = false.

(** A computation that only appends to the list, each result new in the
    sense of [same]; whether it returns or throws. *)
Definition adds {A} (same : SearchResult -> SearchResult -> bool) (m : M A)
  : Prop :=
  forall st, exists added,
      snd (m st) = st ++ added /\ fresh_run same st added.

(** A computation that never throws. *)
Definition total (m : M unit) : Prop := forall st, fst (m st) = Ok tt.

(** How many results each computation of a sequence leaves in the list
    beyond those it found there. *)
Fixpoint contributions (ms : list (M unit)) (st : list SearchResult)
  : list nat :=
  match ms with
  | [] => []
  | m :: ms' =>
    (length (snd (m st)) - length st) :: contributions ms' (snd (m st))
  end.

(** An answer that brings nothing: the request fails, or the list it
    returns is empty. *)
Definition brings_nothing {A} (r : reply (list A)) : Prop :=
  r = Rejected \/ r = NotOk \/ r = Body [].

Definition instant_brings_nothing (r : reply DdgAnswer) : Prop :=
  r = Rejected \/ r = NotOk
  \/ exists d, r = Body d /\ Abstract d = [] /\ Answer d = []
               /\ RelatedTopics d = [].

Definition page_brings_nothing
           (parseSearchResults : jsstring -> outcome (list SearchResult))
           (fetch : jsstring -> reply jsstring) : Prop :=
  forall u html,
    fetch u = Body html ->
    html = [] \/ parseSearchResults html = Ok []
    \/ exists e, parseSearchResults html = Throw e.

Definition all_sources_silent
           (parseSearchResults : jsstring -> outcome (list SearchResult))
           (net : Net) : Prop :=
  page_brings_nothing parseSearchResults (fetch_text net)
  /\ instant_brings_nothing (ddg_api net)
  /\ brings_nothing (wikipedia net)
  /\ brings_nothing (ru_wikipedia net)
  /\ brings_nothing (hn_algolia net)
  /\ brings_nothing (stackexchange net)
  /\ brings_nothing (reddit net).

(* ------------------------------------------------------------------ *)
(** ** Sample answers of the network                                   *)
(* ------------------------------------------------------------------ *)

(** A scraper that finds nothing, and a network on which every request is
    rejected. *)
Definition no_scraper (html : jsstring) : outcome (list SearchResult) := Ok [].

Definition dead_net : Net :=
  {| fetch_text := fun _ => Rejected;
     ddg_api := Rejected;
     wikipedia := Rejected;
     ru_wikipedia := Rejected;
     hn_algolia := Rejected;
     stackexchange := Rejected;
     reddit := Rejected |}.

Definition dead_mcp : McpNet :=
  {| mcp_ddg := Throw NetworkError;
     mcp_wiki := Throw NetworkError;
     mcp_page := fun _ => Throw NetworkError;
     mcp_hn := Throw NetworkError |}.

(** Hacker News alone answers, with one article submitted twice under two
    titles. *)
Definition article_url : jsstring := js "https://blog.rust-lang.org/2024/".

Definition twice_submitted : list HnHit :=
  [ {| hit_title := js "Rust in 2024"; hit_url := article_url;
       hit_objectID := js "1"; hit_line := js "120 points | 45 comments" |};
    {| hit_title := js "The state of Rust"; hit_url := article_url;
       hit_objectID := js "2"; hit_line := js "3 points | 0 comments" |} ].

Definition hn_only : Net :=
  {| fetch_text := fun _ => Rejected;
     ddg_api := Rejected;
     wikipedia := Rejected;
     ru_wikipedia := Rejected;
     hn_algolia := Body twice_submitted;
     stackexchange := Rejected;
     reddit := Rejected |}.

(** A result listed for the article, and an element of the scraped page
    that leads to the same address. *)
Definition article_result : SearchResult :=
  {| title := js "Rust in 2024"; snippet := js "A look at the year";
     url := article_url; source := js "DuckDuckGo" |}.

Definition article_element : ResultElement :=
  {| el_title := js "Rust 2024 recap"; el_href := article_url;
     el_snippet := js "A look back" |}.

(** The instant answer and the Wikipedia summary point to the same page. *)
Definition rust_page : jsstring := js "https://en.wikipedia.org/wiki/Rust".
Definition rust_abstract : jsstring :=
  js "Rust is a general-purpose programming language emphasizing performance, type safety, and concurrency.".

Definition same_page_mcp : McpNet :=
  {| mcp_ddg := Ok {| Abstract := rust_abstract; Heading := js "Rust";
                      AbstractURL := rust_page; AbstractSource := js "Wikipedia";
                      Answer := []; RelatedTopics := [] |};
     mcp_wiki := Ok {| extract := rust_abstract; summary_title := js "Rust";
                       summary_page := rust_page |};
     mcp_page := fun _ => Throw NetworkError;
     mcp_hn := Throw NetworkError |}.

(** Sixteen results: an abstract, an answer, three related topics, three
    Wikipedia hits, five Hacker News hits and three Reddit posts. *)
Definition numbered (prefix : string) (n : N) : jsstring :=
  js prefix ++ [(48 + n)%N].

Definition busy_net : Net :=
  {| fetch_text := fun _ => Rejected;
     ddg_api :=
       Body {| Abstract := rust_abstract; Heading := js "Rust";
               AbstractURL := rust_page; AbstractSource := js "Wikipedia";
               Answer := js "A programming language";
               RelatedTopics :=
                 map (fun n => {| Text := numbered "Related topic " n;
                                  FirstURL := [];
                                  FirstURL_hostname := Throw TypeError |})
                     [1; 2; 3]%N |};
     wikipedia :=
       Body (map (fun n => {| wiki_title := numbered "Article " n;
                              wiki_snippet := numbered "About article " n |})
                 [1; 2; 3]%N);
     ru_wikipedia := Rejected;
     hn_algolia :=
       Body (map (fun n => {| hit_title := numbered "Story " n;
                              hit_url := numbered "https://example.com/story/" n;
                              hit_objectID := numbered "4000" n;
                              hit_line := js "1 points | 0 comments" |})
                 [1; 2; 3; 4; 5]%N);
     stackexchange := Rejected;
     reddit :=
       Body (map (fun n => {| post_data :=
                                Some {| d_title := numbered "Post " n;
                                        d_permalink := numbered "/r/rust/" n;
                                        d_line := js "r/rust | 1 upvotes" |} |})
                 [1; 2; 3]%N) |}.

Section ValidStreams.

Variable JSON_parse : jsstring -> option json.

(** A line that the scan consumes on the spot: blank, or read without
    error. *)
Definition complete_frame (line : jsstring) : Prop :=
  is_empty (trim line) = true
  \/ incomplete (processLine JSON_parse line) = false.

(** A valid body: each of its lines that ends with a line feed is a
    complete frame. *)
Definition valid_body (body : jsstring) : Prop :=
  Forall complete_frame (fst (lines_rest body)).

End ValidStreams.

(* ------------------------------------------------------------------ *)
(** ** [chatCompletion] (api.js)                                       *)
(* ------------------------------------------------------------------ *)

(** The request of [chatCompletion]: built as [streamChatCompletion]
    builds its own, with [stream: false]. *)
Definition chat_request (opts : Options) : Request :=
  {| req_model := model opts; req_stream := false |}.

(** [a || ''] *)
Definition or_empty (v : jsval) : json :=
  match v with
  | Some x => if truthy x then x else JStr []
  | None => JStr []
  end.

(** [chatCompletion(messages, options)]: the value the promise resolves
    to, or the exception it rejects with. *)
Definition chatCompletion (JSON_parse : jsstring -> option json)
           (fetch : Request -> outcome Response) (opts : Options)
  : outcome json :=
  match fetch (chat_request opts) with
  | Throw e => Throw e
  | Ok response =>
    if negb (resp_ok response) then Throw (api_error JSON_parse response)
    else
      match JSON_parse (body_text response) with
      | None => Throw SyntaxError
      | Some data =>
        match prop_of data k_choices with
        | Throw e => Throw e
        | Ok choices =>
          Ok (or_empty (opt_prop (opt_prop (opt_index0 choices) k_message)
                                 k_content))
        end
      end
  end.

(** A text that is empty or ends with a line feed. *)
Definition ends_lines (body : jsstring) : Prop :=
  body = [] \/ exists b, body = b ++ [newline].

(* ------------------------------------------------------------------ *)
(** ** [extractUrls], [shouldAutoAnalyzeUrls] (api.js)                 *)
(* ------------------------------------------------------------------ *)

(** The characters that the class of [URL_REGEX] admits: all but white
    space, the angle brackets, the quotation mark, the braces, the
    vertical bar, the backslash, the caret, the backquote and the square
    brackets. *)
Definition url_char (c : N) : bool :=
  negb (is_white c
        || existsb (N.eqb c)
                   [60; 62; 34; 123; 125; 124; 92; 94; 96; 91; 93]%N).

(** The longest prefix of [s] made of characters that satisfy [p], and
    what follows it: what a greedy [[...]*] takes. *)
Fixpoint span (p : N -> bool) (s : jsstring) : jsstring * jsstring :=
  match s with
  | c :: s' =>
    if p c then let (run, rest) := span p s' in (c :: run, rest)
    else ([], s)
  | [] => ([], [])
  end.

(** A literal matched at the head of [s] under the [i] flag: the text
    matched and what follows it. *)
Fixpoint literal_at (p s : jsstring) : option (jsstring * jsstring) :=
  match p, s with
  | [], _ => Some ([], s)
  | a :: p', b :: s' =>
    if same_char a b then
      match literal_at p' s' with
      | Some (m, rest) => Some (b :: m, rest)
      | None => None
      end
    else None
  | _ :: _, [] => None
  end.

(** [https?:\/\/] at the head of [s]. *)
Definition scheme_at (s : jsstring) : option (jsstring * jsstring) :=
  match literal_at (js "https://") s with
  | Some found => Some found
  | None => literal_at (js "http://") s
  end.

(** A match of [URL_REGEX] that starts at the head of [s]: the scheme,
    then one or more characters of the class, as many as there are. *)
Definition url_at (s : jsstring) : option (jsstring * jsstring) :=
  match scheme_at s with
  | Some (scheme, rest) =>
    match span url_char rest with
    | ([], _) => None
    | (run, rest') => Some (scheme ++ run, rest')
    end
  | None => None
  end.

(** [text.match(URL_REGEX)] with the [g] flag: the matches from left to
    right, each search starting where the last match ended.  [skip] is
    the number of characters of [s] that belong to the last match. *)
Fixpoint match_urls (skip : nat) (s : jsstring) : list jsstring :=
  match s with
  | [] => []
  | _ :: s' =>
    match skip with
    | S skip' => match_urls skip' s'
    | O =>
      match url_at s with
      | Some (m, _) => m :: match_urls (length m - 1) s'
      | None => match_urls 0 s'
      end
    end
  end.

(** [[...new Set(matches)]]: each string once, at its first place. *)
Fixpoint unique_from (seen l : list jsstring) : list jsstring :=
  match l with
  | [] => []
  | x :: l' =>
    if existsb (str_eqb x) seen then unique_from seen l'
    else x :: unique_from (x :: seen) l'
  end.

(** [extractUrls(text)] *)
Definition extractUrls (text : jsstring) : list jsstring :=
  unique_from [] (match_urls 0 text).

(** [shouldAutoAnalyzeUrls(message)] *)
Definition shouldAutoAnalyzeUrls (message : jsstring) : bool :=
  0 <? length (extractUrls message).

(** A URL, as [URL_REGEX] defines it: [http://] or [https://] in any
    case, followed by at least one character, none of which is white
    space or one of the characters that the class excludes. *)
Definition is_url (u : jsstring) : Prop :=
  exists scheme rest,
    u = scheme ++ rest
    /\ (map canonicalize scheme = map canonicalize (js "http://")
        \/ map canonicalize scheme = map canonicalize (js "https://"))
    /\ rest <> []
    /\ forallb url_char rest = true.

(** The text [u] occurs in [text], and is not followed there by a
    character that a URL may hold. *)
Definition occurs_whole (u text : jsstring) : Prop :=
  exists before after,
    text = before ++ u ++ after
    /\ match after with
       | c :: _ => url_char c = false
       | [] => True
       end.

(* ------------------------------------------------------------------ *)
(** ** [extractTitle] (api.js)                                         *)
(* ------------------------------------------------------------------ *)

Definition not_gt (c : N) : bool := negb (c =? 62)%N.   (* [[^>]] *)
Definition not_lt (c : N) : bool := negb (c =? 60)%N.   (* [[^<]] *)

(** A match of [<title[^>]*>([^<]+)<\/title>], with the [i] flag, that
    starts at the head of [s]: its group.  Each of the two classes
    excludes the character that has to follow it, so that the greedy run
    is the only one that can be followed by it. *)
Definition title_at (s : jsstring) : option jsstring :=
  match literal_at (js "<title") s with
  | Some (_, rest) =>
    match snd (span not_gt rest) with
    | _ :: rest' =>
      match span not_lt rest' with
      | ([], _) => None
      | (text, rest'') =>
        match literal_at (js "</title>") rest'' with
        | Some _ => Some text
        | None => None
        end
      end
    | [] => None
    end
  | None => None
  end.

(** [html.match(...)]: the group of the leftmost match. *)
Fixpoint first_title (html : jsstring) : option jsstring :=
  match title_at html with
  | Some text => Some text
  | None =>
    match html with
    | [] => None
    | _ :: html' => first_title html'
    end
  end.

(** [extractTitle(html)] *)
Definition extractTitle (html : jsstring) : jsstring :=
  match first_title html with
  | Some text => trim text
  | None => []
  end.

(** The matches of the pattern of [extractTitle] at the head of a text,
    as the pattern defines them: the opening tag with its attributes, the
    text of the group, the closing tag. *)
Definition title_element (s text : jsstring) : Prop :=
  exists tag attrs close after,
    s = tag ++ attrs ++ [62%N] ++ text ++ close ++ after
    /\ map canonicalize tag = map canonicalize (js "<title")
    /\ forallb not_gt attrs = true
    /\ text <> [] /\ forallb not_lt text = true
    /\ map canonicalize close = map canonicalize (js "</title>").

(** Neither the first nor the last character of [s] is white space. *)
Definition trimmed (s : jsstring) : Prop :=
  forall c,
    (exists r, s = c :: r) \/ (exists r, s = r ++ [c]) -> is_white c = false.

(* ------------------------------------------------------------------ *)
(** ** The currency pair of a query ([streamWebSearchCompletion])      *)
(* ------------------------------------------------------------------ *)

Inductive Currency : Type := USD | EUR | RUB.

(** The five patterns of the branch [intent === 'currency'] (l.1551-1555),
    all with the [i] flag. *)
Definition euro_named : regex := Alt (lit "евро") (lit "eur").
Definition dollar_named : regex :=
  Alt (lit "доллар") (Alt (lit "usd") (Chr 36)).            (* [\$] *)
Definition rouble_named : regex :=
  Alt (lit "рубл") (Alt (lit "rub") (Chr 8381)).            (* the rouble sign *)
Definition into_euro : regex :=
  Alt (cat [lit "в"; spaces; lit "евро"]) (cat [lit "to"; spaces; lit "eur"]).
Definition into_dollar : regex :=
  Alt (cat [lit "в"; spaces; lit "доллар"]) (cat [lit "to"; spaces; lit "usd"]).

(** [let from = 'USD', to = 'RUB'] and the five tests that follow, each
    one overriding the ones before: the arguments [from] and [to] of the
    call of [getExchangeRate]. *)
Definition currency_pair (query : jsstring) : Currency * Currency :=
  let from := USD in
  let to := RUB in
  let from := if test euro_named query then EUR else from in
  let from := if test dollar_named query then USD else from in
  let to := if test rouble_named query then RUB else to in
  let to := if test into_euro query then EUR else to in
  let to := if test into_dollar query then USD else to in
  (from, to).

(* ------------------------------------------------------------------ *)
(** ** The instant answers of [performWebSearch]                       *)
(* ------------------------------------------------------------------ *)

(** The results that [performWebSearch] makes of the direct answer and of
    the abstract of the instant-answer API. *)
Definition direct_answer (d : DdgAnswer) : SearchResult :=
  {| title := js "Direct Answer"; snippet := Answer d; url := [];
     source := js "DuckDuckGo" |}.

Definition abstract_answer (d : DdgAnswer) : SearchResult :=
  {| title := or_default (Heading d) (js "Quick Answer");
     snippet := Abstract d;
     url := AbstractURL d;
     source := or_default (AbstractSource d) (js "DuckDuckGo") |}.

(** The instant answers that a query gets: the direct answer, if there is
    one, then the abstract, if it is longer than 30 characters. *)
Definition instant_front (net : Net) (query : jsstring) : list SearchResult :=
  match encodeURIComponent query, ddg_api net with
  | Ok _, Body d =>
    (if is_empty (Answer d) then [] else [direct_answer d])
      ++ (if 30 <? length (Abstract d) then [abstract_answer d] else [])
  | _, _ => []
  end.

(** A network on which the instant-answer API gives a direct answer, and
    Hacker News two hits. *)
Definition answering_net : Net :=
  {| fetch_text := fun _ => Rejected;
     ddg_api := Body {| Abstract := []; Heading := []; AbstractURL := [];
                        AbstractSource := []; Answer := js "42";
                        RelatedTopics := [] |};
     wikipedia := Rejected;
     ru_wikipedia := Rejected;
     hn_algolia := hn_algolia hn_only;
     stackexchange := Rejected;
     reddit := Rejected |}.

(* ------------------------------------------------------------------ *)
(** ** News headlines: [getNewsHeadlines] (api.js), [get_news] (MCP)   *)
(* ------------------------------------------------------------------ *)

(** [l.length < n] *)
Definition shorter {A} (l : list A) (n : Q) : bool :=
  negb (Qle_bool n (inject_Z (Z.of_nat (length l)))).

Module News.

(** The fields read in a hit of the Hacker News search and in an entry of
    the [news] array of the Wikipedia feed.  An absent text is the empty
    string, an absent number is zero (all of them falsy), an absent array
    the empty list. *)
Record Hit : Type :=
  { hit_title : jsstring;
    hit_url : jsstring;
    hit_objectID : jsstring;
    hit_points : Q;
    hit_num_comments : Q;
    hit_created_at : jsstring }.

Record Story : Type :=
  { story : jsstring;
    page : jsstring }.      (* [links?.[0]?.content_urls?.desktop?.page] *)

(** A headline.  [None] is a field that the item does not have, or that
    is [undefined]. *)
Record Item : Type :=
  { title : jsstring;
    url : jsstring;
    source : jsstring;
    points : option Q;
    comments : option Q;
    date : option jsstring }.

(** The two requests to the Hacker News search, and the one to the
    Wikipedia feed of the day. *)
Inductive Request : Type :=
| FrontPage (hitsPerPage : Q)
| Stories (query : jsstring) (hitsPerPage : Q)
| Featured.

(** The world of the browser: [fetch] with its three outcomes, and the
    formatting of dates ([toLocaleDateString('ru-RU')]). *)
Record Env : Type :=
  { hn : Request -> reply (list Hit);
    featured : reply (list Story);
    date_of : jsstring -> jsstring;
    today : jsstring }.

(** The world of the server: [webClient.get] throws when it fails. *)
Record McpEnv : Type :=
  { get_hn : Request -> outcome (list Hit);
    get_featured : outcome (list Story);
    mcp_date_of : jsstring -> jsstring;
    mcp_today : jsstring }.

Record Headlines : Type :=
  { success : bool;
    results : list Item;
    topic : jsstring }.

(** [topic ? `...query=${encodeURIComponent(topic)}...` : `...front_page...`] *)
Definition endpoint (topic0 : option jsstring) (maxResults : Q)
  : outcome Request :=
  match topic0 with
  | None => Ok (FrontPage maxResults)
  | Some t =>
    if is_empty t then Ok (FrontPage maxResults)
    else match encodeURIComponent t with
         | Ok encoded => Ok (Stories encoded maxResults)
         | Throw e => Throw e
         end
  end.

(** [n || 0] *)
Definition or_zero (n : Q) : Q := if Qeq_bool n 0 then 0%Q else n.

Definition item_url (hit : Hit) : jsstring :=
  or_default (hit_url hit)
             (js "https://news.ycombinator.com/item?id=" ++ hit_objectID hit).

(** The item pushed for a hit by [getNewsHeadlines]. *)
Definition hn_item (env : Env) (hit : Hit) : Item :=
  {| title := or_default (hit_title hit) (js "Untitled");
     url := item_url hit;
     source := js "Hacker News";
     points := Some (or_zero (hit_points hit));
     comments := Some (or_zero (hit_num_comments hit));
     date := if is_empty (hit_created_at hit) then None
             else Some (date_of env (hit_created_at hit)) |}.

(** [s.replace(/<[^>]+>/g, '')]: an angle bracket, the longest run of
    characters other than the closing bracket, at least one, and the
    closing bracket are removed; [skip] counts the characters of [s] that
    belong to the match being removed. *)
Fixpoint strip_tags_from (skip : nat) (s : jsstring) : jsstring :=
  match s with
  | [] => []
  | c :: s' =>
    match skip with
    | S skip' => strip_tags_from skip' s'
    | O =>
      if (c =? 60)%N then
        match span not_gt s' with
        | ((_ :: _) as run, _ :: _) => strip_tags_from (length run + 1) s'
        | _ => c :: strip_tags_from 0 s'
        end
      else c :: strip_tags_from 0 s'
    end
  end.

Definition strip_tags (s : jsstring) : jsstring := strip_tags_from 0 s.

(** The items pushed for [wikiData.news.slice(0, 5)]. *)
Definition wiki_items (label date0 : jsstring) (entries : list Story)
  : list Item :=
  flat_map (fun n =>
              if is_empty (story n) then []
              else [ {| title := strip_tags (story n);
                        url := page n;
                        source := label;
                        points := None; comments := None;
                        date := Some date0 |} ])
           (firstn 5 entries).

(** The first [try] block of [getNewsHeadlines]: the items, and the
    request made, if any. *)
Definition hn_part (env : Env) (topic0 : option jsstring) (maxResults : Q)
  : list Item * list Request :=
  match endpoint topic0 maxResults with
  | Throw _ => ([], [])                                         (* catch *)
  | Ok request =>
    match hn env request with
    | Body hits => (map (hn_item env) hits, [request])
    | NotOk | Rejected => ([], [request])
    end
  end.

(** [getNewsHeadlines(topic, maxResults)], with the requests it makes, in
    order. *)
Definition getNewsHeadlines (env : Env) (topic0 : option jsstring)
           (maxResults : Q) : Headlines * list Request :=
  let (items, asked) := hn_part env topic0 maxResults in
  let (results0, asked0) :=
      if shorter items maxResults then
        (items ++ match featured env with
                  | Body entries =>
                    wiki_items (js "Wikipedia") (today env) entries
                  | NotOk | Rejected => []
                  end,
         asked ++ [Featured])
      else (items, asked) in
  ({| success := 0 <? length results0;
      results := results0;
      topic := match topic0 with
               | Some t => or_default t (js "general")
               | None => js "general"
               end |},
   asked0).

(** The item pushed for a hit by [get_news]. *)
Definition mcp_hn_item (env : McpEnv) (hit : Hit) : Item :=
  {| title := or_default (hit_title hit) (js "Untitled");
     url := item_url hit;
     source := js "Hacker News";
     points := None; comments := None;
     date := if is_empty (hit_created_at hit) then None
             else Some (mcp_date_of env (hit_created_at hit)) |}.

(** What the tool answers: the arguments are refused, no headline was
    found, or the headlines listed. *)
Inductive Answer : Type :=
| Refused
| NoNews
| Listed (shown : list Item).

(** The handler of [get_news], [max_results] already defaulted. *)
Definition get_news_handler (env : McpEnv) (topic0 : option jsstring)
           (max_results : Q) : Answer :=
  let items :=
      match endpoint topic0 max_results with
      | Throw _ => []                                           (* catch *)
      | Ok request =>
        match get_hn env request with
        | Ok hits => map (mcp_hn_item env) hits
        | Throw _ => []                                         (* catch *)
        end
      end in
  let results0 :=
      if shorter items max_results then
        items ++ match get_featured env with
                 | Ok entries =>
                   wiki_items (js "Wikipedia Current Events") (mcp_today env)
                              entries
                 | Throw _ => []                                (* catch *)
                 end
      else items in
  if length results0 =? 0 then NoNews
  else Listed (slice0 results0 max_results).

(** [get_news({ topic, max_results })]: the arguments checked against the
    schema, then [max_results = 10] by default. *)
Definition get_news (env : McpEnv) (topic0 : option jsstring)
           (max_results : option Q) : Answer :=
  if schema_accepts max_results then
    get_news_handler env topic0
      (match max_results with Some m => m | None => inject_Z 10 end)
  else Refused.

End News.

(** The world of the server that answers as the world [env] of the
    browser does: a request fails when [fetch] rejects or the response is
    not [ok]. *)
Definition as_outcome {A} (r : reply A) : outcome A :=
  match r with
  | Body a => Ok a
  | NotOk => Throw (UpstreamStatus 0)
  | Rejected => Throw NetworkError
  end.

Definition server_world (env : News.Env) : News.McpEnv :=
  {| News.get_hn := fun request => as_outcome (News.hn env request);
     News.get_featured := as_outcome (News.featured env);
     News.mcp_date_of := News.date_of env;
     News.mcp_today := News.today env |}.

(** What a headline says and where it leads. *)
Definition headline (i : News.Item) : jsstring * jsstring :=
  (News.title i, News.url i).

(** The search service returns no more hits than the request asks for. *)
Definition honours_page_size (env : News.Env) : Prop :=
  forall request hits,
    News.hn env request = Body hits ->
    match request with
    | News.FrontPage n | News.Stories _ n =>
      (inject_Z (Z.of_nat (length hits)) <= n)%Q
    | News.Featured => True
    end.

(** A world in which the front page has two stories, one of them without
    title and address, and the feed of the day six entries. *)
Definition two_hits : list News.Hit :=
  [ {| News.hit_title := js "Rust 2.0"; News.hit_url := js "https://rust.example/";
       News.hit_objectID := js "1"; News.hit_points := 10;
       News.hit_num_comments := 0; News.hit_created_at := js "2024-01-01" |};
    {| News.hit_title := []; News.hit_url := [];
       News.hit_objectID := js "2"; News.hit_points := 0;
       News.hit_num_comments := 0; News.hit_created_at := [] |} ].

Definition six_stories : list News.Story :=
  map (fun n => {| News.story := js "<b>Story</b> " ++ [n];
                   News.page := js "https://en.wikipedia.org/wiki/" ++ [n] |})
      [49; 50; 51; 52; 53; 54]%N.

Definition news_world : News.Env :=
  {| News.hn := fun request =>
                  match request with
                  | News.FrontPage n =>
                    if Qle_bool 2 n then Body two_hits else NotOk
                  | _ => NotOk
                  end;
     News.featured := Body six_stories;
     News.date_of := fun d => d;
     News.today := js "01.01.2024" |}.

(** A markup tag in a text, as the pattern of [strip_tags] defines it:
    an opening angle bracket, one or more characters other than the
    closing bracket, and the closing bracket. *)
Definition has_tag (s : jsstring) : Prop :=
  exists a run b,
    s = a ++ [60%N] ++ run ++ [62%N] ++ b
    /\ run <> [] /\ forallb not_gt run = true.

(* ------------------------------------------------------------------ *)
(** ** The chat store ([store.js])                                     *)
(* ------------------------------------------------------------------ *)

(** The state that [create(persist(...))] holds and its actions, each a
    function of the state.  [generateId()] and [Date.now()] are arguments
    of the actions that call them ([fresh], [now]); an action is
    synchronous, and the clock readings of one action are taken to be the
    same.  An action that returns a value returns it next to the new
    state. *)
Module Store.

(** A message of a chat: [{ id, ...message, timestamp }].  [more] holds
    the fields of the message other than [role] and [content]
    ([attachments], [type], [image]). *)
Record Message : Type :=
  { msg_id : jsstring;
    role : jsstring;
    content : jsstring;
    more : list (jsstring * json);
    timestamp : Z }.

(** The argument of [addMessage], as the interface builds it: an object
    with [role], [content] and other fields, and no [id]. *)
Record Draft : Type :=
  { draft_role : jsstring;
    draft_content : jsstring;
    draft_more : list (jsstring * json) }.

(** A file of the virtual file system of a chat. *)
Record File : Type :=
  { filename : jsstring;
    code : jsstring;
    file_more : list (jsstring * json) }.

Record Chat : Type :=
  { id : jsstring;
    title : jsstring;
    messages : list Message;
    pinned : bool;
    createdAt : Z;
    updatedAt : Z;
    files : list File }.

(** A stored image: [{ id, ...image, createdAt }]. *)
Record Image : Type :=
  { image_id : jsstring;
    image_fields : list (jsstring * json);
    image_createdAt : Z }.

Record State : Type :=
  { chats : list Chat;
    currentChatId : option jsstring;          (* [None] is [null] *)
    settings : list (jsstring * json);
    gallery : list Image;
    sidebarOpen : bool;
    settingsOpen : bool;
    galleryOpen : bool }.

Definition new_chat_title : jsstring := js "New Chat".

(** [set({ chats, currentChatId })] *)
Definition set_chats (s : State) (cs : list Chat) (cur : option jsstring)
  : State :=
  {| chats := cs; currentChatId := cur; settings := settings s;
     gallery := gallery s; sidebarOpen := sidebarOpen s;
     settingsOpen := settingsOpen s; galleryOpen := galleryOpen s |}.

Definition set_gallery (s : State) (g : list Image) : State :=
  {| chats := chats s; currentChatId := currentChatId s;
     settings := settings s; gallery := g; sidebarOpen := sidebarOpen s;
     settingsOpen := settingsOpen s; galleryOpen := galleryOpen s |}.

(** [state.chats.find(c => c.id === state.currentChatId)] *)
Definition getCurrentChat (s : State) : option Chat :=
  match currentChatId s with
  | None => None
  | Some cur => find (fun c => str_eqb (id c) cur) (chats s)
  end.

(** [createChat()] *)
Definition createChat (fresh : jsstring) (now : Z) (s : State)
  : jsstring * State :=
  let fresh_chat :=
      {| id := fresh; title := new_chat_title; messages := [];
         pinned := false; createdAt := now; updatedAt := now;
         files := [] |} in
  match getCurrentChat s with
  | Some currentChat =>
    if (length (messages currentChat) =? 0)
       && str_eqb (title currentChat) new_chat_title
    then (id currentChat, s)
    else (fresh, set_chats s (fresh_chat :: chats s) (Some fresh))
  | None => (fresh, set_chats s (fresh_chat :: chats s) (Some fresh))
  end.

(** [newChats[0]?.id || null] *)
Definition first_id (cs : list Chat) : option jsstring :=
  match cs with
  | c :: _ => if is_empty (id c) then None else Some (id c)
  | [] => None
  end.

(** [state.currentChatId === chatId] *)
Definition is_current (s : State) (chatId : jsstring) : bool :=
  match currentChatId s with
  | Some cur => str_eqb cur chatId
  | None => false
  end.

(** [deleteChat(chatId)] *)
Definition deleteChat (chatId : jsstring) (s : State) : State :=
  let newChats := filter (fun c => negb (str_eqb (id c) chatId)) (chats s) in
  let newCurrentId :=
      if is_current s chatId then first_id newChats else currentChatId s in
  set_chats s newChats newCurrentId.

(** [selectChat(chatId)] *)
Definition selectChat (chatId : jsstring) (s : State) : State :=
  set_chats s (chats s) (Some chatId).

(** [state.chats.map(chat => chat.id === chatId ? f(chat) : chat)] *)
Definition on_chat (chatId : jsstring) (f : Chat -> Chat) (s : State)
  : State :=
  set_chats s
            (map (fun chat => if str_eqb (id chat) chatId then f chat
                              else chat) (chats s))
            (currentChatId s).

(** [pinChat(chatId)] *)
Definition pinChat (chatId : jsstring) (s : State) : State :=
  on_chat chatId
          (fun chat =>
             {| id := id chat; title := title chat;
                messages := messages chat; pinned := negb (pinned chat);
                createdAt := createdAt chat; updatedAt := updatedAt chat;
                files := files chat |}) s.

(** [deleteAllChats()] *)
Definition deleteAllChats (s : State) : State :=
  let pinnedChats := filter pinned (chats s) in
  set_chats s pinnedChats (first_id pinnedChats).

(** [updateChatTitle(chatId, title)] *)
Definition updateChatTitle (chatId title0 : jsstring) (now : Z) (s : State)
  : State :=
  on_chat chatId
          (fun chat =>
             {| id := id chat; title := title0;
                messages := messages chat; pinned := pinned chat;
                createdAt := createdAt chat; updatedAt := now;
                files := files chat |}) s.

(** [{ ...chat, messages, title, updatedAt: Date.now() }] *)
Definition with_messages (chat : Chat) (ms : list Message)
           (title0 : jsstring) (now : Z) : Chat :=
  {| id := id chat; title := title0; messages := ms;
     pinned := pinned chat; createdAt := createdAt chat;
     updatedAt := now; files := files chat |}.

(** The title made from the first message of the user:
    [content.slice(0, 50) + (content.length > 50 ? '...' : '')]. *)
Definition auto_title (text : jsstring) : jsstring :=
  firstn 50 text ++ (if 50 <? length text then js "..." else []).

(** [addMessage(chatId, message)] *)
Definition addMessage (chatId : jsstring) (message : Draft)
           (fresh : jsstring) (now : Z) (s : State) : jsstring * State :=
  let messageWithId :=
      {| msg_id := fresh; role := draft_role message;
         content := draft_content message; more := draft_more message;
         timestamp := now |} in
  (msg_id messageWithId,
   on_chat chatId
           (fun chat =>
              let messages0 := messages chat ++ [messageWithId] in
              let title0 :=
                  if str_eqb (title chat) new_chat_title
                     && str_eqb (draft_role message) (js "user")
                  then auto_title (draft_content message)
                  else title chat in
              with_messages chat messages0 title0 now) s).

(** [updateMessage(chatId, messageId, content)] *)
Definition updateMessage (chatId messageId content0 : jsstring) (now : Z)
           (s : State) : State :=
  on_chat chatId
          (fun chat =>
             with_messages chat
               (map (fun msg =>
                       if str_eqb (msg_id msg) messageId
                       then {| msg_id := msg_id msg; role := role msg;
                               content := content0; more := more msg;
                               timestamp := timestamp msg |}
                       else msg) (messages chat))
               (title chat) now) s.

(** [deleteMessage(chatId, messageId)] *)
Definition deleteMessage (chatId messageId : jsstring) (now : Z) (s : State)
  : State :=
  on_chat chatId
          (fun chat =>
             with_messages chat
               (filter (fun msg => negb (str_eqb (msg_id msg) messageId))
                       (messages chat))
               (title chat) now) s.

(** [{ ...chat, files, updatedAt: Date.now() }] *)
Definition with_files (chat : Chat) (fs : list File) (now : Z) : Chat :=
  {| id := id chat; title := title chat; messages := messages chat;
     pinned := pinned chat; createdAt := createdAt chat;
     updatedAt := now; files := fs |}.

Definition named (name : jsstring) (f : File) : bool :=
  str_eqb (filename f) name.

(** The body of [addFiles] on the files of one chat. *)
Definition merge_files (existing0 files0 : list File) : list File :=
  let newFiles :=
      filter (fun f => negb (existsb (named (filename f)) existing0))
             files0 in
  let updatedFiles :=
      map (fun existing =>
             match find (named (filename existing)) files0 with
             | Some updated =>
               {| filename := filename existing; code := code updated;
                  file_more := file_more existing |}
             | None => existing
             end) existing0 in
  updatedFiles ++ newFiles.

(** [addFiles(chatId, files)] *)
Definition addFiles (chatId : jsstring) (files0 : list File) (now : Z)
           (s : State) : State :=
  on_chat chatId
          (fun chat => with_files chat (merge_files (files chat) files0) now)
          s.

(** [clearFiles(chatId)] *)
Definition clearFiles (chatId : jsstring) (now : Z) (s : State) : State :=
  on_chat chatId (fun chat => with_files chat [] now) s.

(** [{ ...a, ...b }] *)
Definition spread (a b : list (jsstring * json)) : list (jsstring * json) :=
  fold_left (fun acc kv => set_field (fst kv) (snd kv) acc) b a.

(** [updateSettings(updates)] *)
Definition updateSettings (updates : list (jsstring * json)) (s : State)
  : State :=
  {| chats := chats s; currentChatId := currentChatId s;
     settings := spread (settings s) updates; gallery := gallery s;
     sidebarOpen := sidebarOpen s; settingsOpen := settingsOpen s;
     galleryOpen := galleryOpen s |}.

(** [addToGallery(image)] *)
Definition addToGallery (image : list (jsstring * json)) (fresh : jsstring)
           (now : Z) (s : State) : jsstring * State :=
  let imageWithId :=
      {| image_id := fresh; image_fields := image;
         image_createdAt := now |} in
  (image_id imageWithId, set_gallery s (imageWithId :: gallery s)).

(** [removeFromGallery(imageId)] *)
Definition removeFromGallery (imageId : jsstring) (s : State) : State :=
  set_gallery s
              (filter (fun img => negb (str_eqb (image_id img) imageId))
                      (gallery s)).

(** [clearGallery()] *)
Definition clearGallery (s : State) : State := set_gallery s [].

(** The comparator of [getSortedChats]. *)
Definition compare_chats (a b : Chat) : Z :=
  if negb (Bool.eqb (pinned a) (pinned b))
  then (if pinned a then -1 else 1)%Z
  else (updatedAt b - updatedAt a)%Z.

(** [Array.prototype.sort] with a comparator: the sort is stable, and with
    a consistent comparator its result is the one of this insertion sort,
    which puts an element before the first later element that does not
    have to precede it. *)
Fixpoint insert_by {A} (cmp : A -> A -> Z) (x : A) (l : list A) : list A :=
  match l with
  | [] => [x]
  | y :: l' =>
    if (cmp x y <=? 0)%Z then x :: y :: l' else y :: insert_by cmp x l'
  end.

Definition sort_by {A} (cmp : A -> A -> Z) (l : list A) : list A :=
  fold_right (insert_by cmp) [] l.

(** [getSortedChats()] *)
Definition getSortedChats (s : State) : list Chat :=
  sort_by compare_chats (chats s).

End Store.

(** *** Notions for the store *)

(** The state the store starts from. *)
Definition initial_store : Store.State :=
  {| Store.chats := []; Store.currentChatId := None;
     Store.settings :=
       [ (js "apiKey", JStr (js "sk-public"));
         (js "systemPrompt", JStr (js "You are a helpful assistant."));
         (js "temperature", JNum (7 # 10));
         (js "darkMode", JBool true);
         (js "agentMode", JBool false);
         (js "currentModel", JStr (js "gemini-2.5-flash"));
         (js "currentImageModel", JStr (js "gemini-2.5-flash-image"));
         (js "generationMode", JStr (js "text")) ];
     Store.gallery := [];
     Store.sidebarOpen := false; Store.settingsOpen := false;
     Store.galleryOpen := false |}.

(** The actions of the store on chats, settings and gallery, apart from
    [selectChat]. *)
Inductive StoreAction : Type :=
| CreateChat (fresh : jsstring) (now : Z)
| DeleteChat (chatId : jsstring)
| PinChat (chatId : jsstring)
| DeleteAllChats
| UpdateChatTitle (chatId title0 : jsstring) (now : Z)
| AddMessage (chatId : jsstring) (message : Store.Draft) (fresh : jsstring)
             (now : Z)
| UpdateMessage (chatId messageId content0 : jsstring) (now : Z)
| DeleteMessage (chatId messageId : jsstring) (now : Z)
| AddFiles (chatId : jsstring) (files0 : list Store.File) (now : Z)
| ClearFiles (chatId : jsstring) (now : Z)
| UpdateSettings (updates : list (jsstring * json))
| AddToGallery (image : list (jsstring * json)) (fresh : jsstring) (now : Z)
| RemoveFromGallery (imageId : jsstring)
| ClearGallery.

Definition run_action (a : StoreAction) (s : Store.State) : Store.State :=
  match a with
  | CreateChat fresh now => snd (Store.createChat fresh now s)
  | DeleteChat chatId => Store.deleteChat chatId s
  | PinChat chatId => Store.pinChat chatId s
  | DeleteAllChats => Store.deleteAllChats s
  | UpdateChatTitle chatId title0 now =>
    Store.updateChatTitle chatId title0 now s
  | AddMessage chatId message fresh now =>
    snd (Store.addMessage chatId message fresh now s)
  | UpdateMessage chatId messageId content0 now =>
    Store.updateMessage chatId messageId content0 now s
  | DeleteMessage chatId messageId now =>
    Store.deleteMessage chatId messageId now s
  | AddFiles chatId files0 now => Store.addFiles chatId files0 now s
  | ClearFiles chatId now => Store.clearFiles chatId now s
  | UpdateSettings updates => Store.updateSettings updates s
  | AddToGallery image fresh now =>
    snd (Store.addToGallery image fresh now s)
  | RemoveFromGallery imageId => Store.removeFromGallery imageId s
  | ClearGallery => Store.clearGallery s
  end.

(** The states the interface can reach: it runs the actions above, and
    selects a chat of the list. *)
Inductive reachable : Store.State -> Prop :=
| reach_initial : reachable initial_store
| reach_action a s : reachable s -> reachable (run_action a s)
| reach_select c s :
    reachable s -> In c (Store.chats s) ->
    reachable (Store.selectChat (Store.id c) s).

(** The current chat is [null] or the id of a chat of the list. *)
Definition current_listed (s : Store.State) : Prop :=
  match Store.currentChatId s with
  | None => True
  | Some cur => In cur (map Store.id (Store.chats s))
  end.

(** The loop of the interface over the fragments of an answer:
    [fullContent += chunk; updateMessage(chatId, messageId, fullContent)],
    each fragment with the time of its arrival. *)
Fixpoint stream_into (chatId messageId : jsstring)
         (chunks : list (jsstring * Z)) (fullContent : jsstring)
         (s : Store.State) : Store.State :=
  match chunks with
  | [] => s
  | (chunk, now) :: rest =>
    let fullContent' := fullContent ++ chunk in
    stream_into chatId messageId rest fullContent'
                (Store.updateMessage chatId messageId fullContent' now s)
  end.

(** The chats named [chatId] marked as updated at [now], nothing else
    changed. *)
Definition touch (chatId : jsstring) (now : Z) (s : Store.State)
  : Store.State :=
  Store.on_chat chatId
    (fun chat =>
       Store.with_messages chat (Store.messages chat) (Store.title chat) now)
    s.

(** No message of a chat named [chatId] has the id [messageId]. *)
Definition fresh_message (chatId messageId : jsstring) (s : Store.State)
  : Prop :=
  forall chat msg,
    In chat (Store.chats s) -> Store.id chat = chatId ->
    In msg (Store.messages chat) -> Store.msg_id msg <> messageId.

(** The order of [getSortedChats]: pinned chats first, then the most
    recently updated first. *)
Definition listed_before (a b : Store.Chat) : Prop :=
  (Store.pinned a = true /\ Store.pinned b = false)
  \/ (Store.pinned a = Store.pinned b
      /\ (Store.updatedAt b <= Store.updatedAt a)%Z).

(** [files.find(f => f.filename === name)?.code] *)
Definition code_of (name : jsstring) (fs : list Store.File) : option jsstring :=
  option_map Store.code (find (Store.named name) fs).

(* ------------------------------------------------------------------ *)
(** ** [smartWebSearch] (api.js)                                       *)
(* ------------------------------------------------------------------ *)

(** What [getWeather] and [getExchangeRate] return: an object with
    [success: true] and the data, or [{ success: false, error }]. *)
Inductive Report (A : Type) : Type :=
| Succeeded (a : A)
| Failed (message : jsstring).

Arguments Succeeded {A} a.
Arguments Failed {A} message.

(** [results.data] *)
Inductive SmartData (T W R : Type) : Type :=
| NoData                                   (* [null] *)
| TimeData (d : T)
| WeatherData (r : Report W)
| RateData (r : Report R)
| NewsData (h : News.Headlines).

Arguments NoData {T W R}.
Arguments TimeData {T W R} d.
Arguments WeatherData {T W R} r.
Arguments RateData {T W R} r.
Arguments NewsData {T W R} h.

(** [results.data?.success]: the object that [getCurrentDateTime] returns
    has no such field. *)
Definition data_success {T W R} (d : SmartData T W R) : bool :=
  match d with
  | NoData => false
  | TimeData _ => false
  | WeatherData (Succeeded _) => true
  | WeatherData (Failed _) => false
  | RateData (Succeeded _) => true
  | RateData (Failed _) => false
  | NewsData h => News.success h
  end.

Record SmartResults (T W R : Type) : Type :=
  { smart_intent : Intent;
    smart_data : SmartData T W R;
    searchResults : option (outcome SearchOutput) }.   (* [None] is [null] *)

(** [/(\d+)?\s*(usd|eur|rub|dollar|euro|...)/gi] *)
Definition currency_word : regex :=
  cat [opt (plus Digit); spaces;
       any_of ["usd"; "eur"; "rub"; "dollar"; "euro"; "доллар"; "евро";
               "рубл"]%string].

(** [query.match(/\d+/)?.[0] || '1']: the first run of digits. *)
Fixpoint first_digits (s : jsstring) : jsstring :=
  match s with
  | [] => js "1"
  | c :: s' => if is_digit c then fst (span is_digit s) else first_digits s'
  end.

Section SmartWebSearch.

Variable parseSearchResults : jsstring -> outcome (list SearchResult).
Variable net : Net.
Variable news_env : News.Env.

(** The objects with the date and time, the weather and the rate. *)
Variables DateTime Weather Rate : Type.

(** [getCurrentDateTime(timezone)], [getWeather(location)] and
    [getExchangeRate(from, to, amount)], the amount as the digits that
    [parseFloat] reads: none of them throws. *)
Variable getCurrentDateTime : jsstring -> DateTime.
Variable getWeather : jsstring -> Report Weather.
Variable getExchangeRate : jsstring -> jsstring -> jsstring -> Report Rate.

(** The group of the match of the location pattern, and of the first of
    the two topic patterns that matches; [None] when there is no match. *)
Variable location_group : jsstring -> option jsstring.
Variable topic_group : jsstring -> option jsstring.

(** The [switch] over the intent. *)
Definition special_data (intent : Intent) (query : jsstring)
  : SmartData DateTime Weather Rate :=
  match intent with
  | time => TimeData (getCurrentDateTime (js "Asia/Yakutsk"))
  | weather =>
    let location := match location_group query with
                    | Some g => trim g
                    | None => js "Moscow"
                    end in
    WeatherData (getWeather location)
  | currency =>
    if test currency_word query
    then RateData (getExchangeRate (js "USD") (js "RUB") (first_digits query))
    else NoData
  | news =>
    let topic0 := match topic_group query with
                  | Some g => Some (trim g)
                  | None => None
                  end in
    NewsData (fst (News.getNewsHeadlines news_env topic0 5))
  | search => NoData
  end.

Definition is_search (intent : Intent) : bool :=
  match intent with search => true | _ => false end.

(** [smartWebSearch(query)] *)
Definition smartWebSearch (query : jsstring)
  : SmartResults DateTime Weather Rate :=
  let intent := detectQueryIntent query in
  let data0 := special_data intent query in
  {| smart_intent := intent;
     smart_data := data0;
     searchResults :=
       if is_search intent || negb (data_success data0)
       then Some (performWebSearch parseSearchResults net query)
       else None |}.

End SmartWebSearch.

(* ------------------------------------------------------------------ *)
(** ** An event without object                                         *)
(* ------------------------------------------------------------------ *)

(** The line [data: null], and the event made of it. *)
Definition null_line : jsstring := js "data: null".
Definition null_event : jsstring := null_line ++ [newline].

(** The lines [ls], each followed by its line feed. *)
Definition joined (ls : list jsstring) : jsstring :=
  concat (map (fun l => l ++ [newline]) ls).

(** A stream whose last event is written on two lines. *)
Definition wrapped_first : jsstring := sse "data: {'content':".
Definition wrapped_second : jsstring := sse "'wrapped'}".

(* ------------------------------------------------------------------ *)
(** ** The count announced by [web_search]                             *)
(* ------------------------------------------------------------------ *)

(** A step appends at most [n] results to the list. *)
Definition grows {A} (n : nat) (m : M A) : Prop :=
  forall st, exists added, snd (m st) = st ++ added /\ length added <= n.

(** A step leaves the list as it is, or leaves it with fewer than
    [cap + 1] results. *)
Definition capped {A} (cap : Q) (m : M A) : Prop :=
  forall st, snd (m st) = st \/ (len_Q (snd (m st)) < cap + 1)%Q.

(* ================================================================== *)
(** * Part II. Theorems                                                *)
(* ================================================================== *)

Unset Implicit Arguments.

(* ------------------------------------------------------------------ *)
(** ** Strings                                                         *)
(* ------------------------------------------------------------------ *)

Lemma str_eqb_eq (a b : jsstring) : str_eqb a b = true <-> a = b.
Proof.
  unfold str_eqb. destruct (list_eq_dec N.eq_dec a b); split; congruence.
Qed.

Lemma str_eqb_refl (a : jsstring) : str_eqb a a = true.
Proof. now apply str_eqb_eq. Qed.

Lemma str_eqb_neq (a b : jsstring) : str_eqb a b = false <-> a <> b.
Proof.
  unfold str_eqb. destruct (list_eq_dec N.eq_dec a b); split; congruence.
Qed.

Lemma is_empty_nil (s : jsstring) : is_empty s = true <-> s = [].
Proof. destruct s; simpl; split; congruence. Qed.

Lemma indexOf_aux_some (s : jsstring) (c : N) :
  forall pos n,
    indexOf_aux s c pos = Some n ->
    exists l rest, s = l ++ c :: rest /\ ~ In c l /\ n = pos + length l.
Proof.
  induction s as [|x s IH]; simpl; intros pos n H; [discriminate|].
  destruct (N.eqb_spec x c) as [->|Hx].
  - inversion H; subst. exists [], s. simpl. split; [reflexivity|].
    split; [tauto | lia].
  - destruct (IH _ _ H) as (l & rest & -> & Hl & ->).
    exists (x :: l), rest. simpl. split; [reflexivity|].
    split; [intros [E|E]; [congruence | tauto] | lia].
Qed.

Lemma indexOf_aux_none (s : jsstring) (c : N) :
  forall pos, indexOf_aux s c pos = None -> ~ In c s.
Proof.
  induction s as [|x s IH]; simpl; intros pos H; [tauto|].
  destruct (N.eqb_spec x c) as [->|Hx]; [discriminate|].
  intros [E|E]; [congruence | exact (IH _ H E)].
Qed.

Lemma indexOf_some (b : jsstring) (c : N) (from n : nat) :
  from <= length b ->
  indexOf b c from = Some n ->
  exists l rest, skipn from b = l ++ c :: rest /\ ~ In c l /\ n = from + length l.
Proof. intros _ H. exact (indexOf_aux_some _ _ _ _ H). Qed.

Lemma indexOf_none (b : jsstring) (c : N) (from : nat) :
  indexOf b c from = None -> ~ In c (skipn from b).
Proof. apply indexOf_aux_none. Qed.

Lemma substring_le (b : jsstring) (p n : nat) :
  p <= n -> substring b p n = skipn p (firstn n b).
Proof.
  intros H. unfold substring.
  now rewrite Nat.min_l, Nat.max_r by lia.
Qed.

Lemma substring_same (b : jsstring) (p : nat) : substring b p p = [].
Proof.
  rewrite substring_le by lia. apply skipn_all2.
  rewrite length_firstn. lia.
Qed.

(** The text between [p] and a position inside what follows [s]. *)
Lemma substring_extend (b l rest : jsstring) (p s : nat) :
  p <= s -> s <= length b -> skipn s b = l ++ rest ->
  substring b p (s + length l) = substring b p s ++ l.
Proof.
  intros Hp Hs Hk.
  rewrite !substring_le by lia.
  assert (Hb : b = firstn s b ++ l ++ rest)
    by (rewrite <- Hk; symmetry; apply firstn_skipn).
  assert (Hf : length (firstn s b) = s) by (rewrite length_firstn; lia).
  assert (E : firstn (s + length l) b = firstn s b ++ l).
  { rewrite Hb at 1. rewrite <- Hf at 1.
    rewrite firstn_app_2. now rewrite firstn_app, firstn_all, Nat.sub_diag, app_nil_r. }
  rewrite E, skipn_app, Hf.
  replace (p - s) with 0 by lia. reflexivity.
Qed.

Lemma skipn_split (b : jsstring) (p s : nat) :
  p <= s -> skipn p b = substring b p s ++ skipn s b.
Proof.
  intros H. rewrite substring_le by lia.
  rewrite <- (firstn_skipn s b) at 1.
  rewrite skipn_app.
  destruct (Nat.le_gt_cases s (length b)) as [Hs|Hs].
  - rewrite length_firstn, Nat.min_l by lia.
    replace (p - s) with 0 by lia. reflexivity.
  - rewrite (skipn_all2 (n := s)) by lia.
    rewrite !app_nil_r. rewrite skipn_all2 with (n := p - _); [now rewrite app_nil_r|].
    simpl. lia.
Qed.

Lemma skipn_past (b l rest : jsstring) (c : N) (s : nat) :
  skipn s b = l ++ c :: rest -> skipn (s + length l + 1) b = rest.
Proof.
  intros H.
  replace (s + length l + 1) with (length (l ++ [c]) + s)
    by (rewrite length_app; simpl; lia).
  rewrite <- skipn_skipn, H.
  replace (l ++ c :: rest) with ((l ++ [c]) ++ rest) by (now rewrite <- app_assoc).
  rewrite skipn_app, skipn_all, Nat.sub_diag. reflexivity.
Qed.

Lemma skipn_length_lt (b l rest : jsstring) (c : N) (s : nat) :
  skipn s b = l ++ c :: rest -> s + length l < length b.
Proof.
  intros H. assert (E : length (skipn s b) = length (l ++ c :: rest)) by now rewrite H.
  rewrite length_skipn, length_app in E. simpl in E. lia.
Qed.

(* ------------------------------------------------------------------ *)
(** ** Lines                                                           *)
(* ------------------------------------------------------------------ *)

Lemma lines_rest_free (l : jsstring) : nl_free l -> lines_rest l = ([], l).
Proof.
  unfold nl_free. induction l as [|x l IH]; simpl; intros H; [reflexivity|].
  rewrite IH by tauto.
  destruct (N.eqb_spec x newline); [tauto | reflexivity].
Qed.

Lemma lines_rest_line (l s : jsstring) :
  nl_free l ->
  lines_rest (l ++ newline :: s)
  = (l :: fst (lines_rest s), snd (lines_rest s)).
Proof.
  unfold nl_free. induction l as [|x l IH]; simpl; intros H.
  - destruct (lines_rest s). reflexivity.
  - rewrite IH by tauto. simpl.
    destruct (N.eqb_spec x newline); [tauto | reflexivity].
Qed.

Lemma lines_rest_app (a b : jsstring) :
  lines_rest (a ++ b)
  = (fst (lines_rest a) ++ fst (lines_rest (snd (lines_rest a) ++ b)),
     snd (lines_rest (snd (lines_rest a) ++ b))).
Proof.
  induction a as [|x a IH]; simpl.
  - now destruct (lines_rest b).
  - rewrite IH. destruct (lines_rest a) as [la ra]. simpl.
    destruct (lines_rest (ra ++ b)) as [lb rb] eqn:Eb. simpl.
    destruct (N.eqb_spec x newline) as [->|Hx]; simpl.
    + now rewrite Eb.
    + destruct la as [|l la]; simpl.
      * rewrite Eb. simpl.
        destruct (N.eqb_spec x newline); [tauto|].
        now destruct lb.
      * now rewrite Eb.
Qed.

Lemma lines_rest_nl_free (s : jsstring) :
  Forall nl_free (fst (lines_rest s)) /\ nl_free (snd (lines_rest s)).
Proof.
  unfold nl_free. induction s as [|x s [IH1 IH2]]; simpl.
  - split; [constructor | tauto].
  - destruct (lines_rest s) as [ls r]. simpl in *.
    destruct (N.eqb_spec x newline) as [->|Hx]; simpl.
    + split; [constructor; [tauto | assumption] | assumption].
    + destruct ls as [|l ls]; simpl.
      * split; [constructor | intros [E|E]; [congruence | tauto]].
      * inversion IH1; subst. split; [|assumption].
        constructor; [|assumption].
        intros [E|E]; [congruence | tauto].
Qed.

Lemma lines_rest_count (s : jsstring) :
  length (fst (lines_rest s)) <= length s.
Proof.
  induction s as [|x s IH]; simpl; [lia|].
  destruct (lines_rest s) as [ls r]. simpl in *.
  destruct (x =? newline)%N; simpl; [lia|].
  destruct ls; simpl in *; lia.
Qed.

(** [split] is the complete lines followed by the rest. *)
Lemma split_lines_rest (s : jsstring) :
  split newline s = fst (lines_rest s) ++ [snd (lines_rest s)].
Proof.
  induction s as [|x s IH]; simpl; [reflexivity|].
  rewrite IH. destruct (lines_rest s) as [ls r]. simpl.
  destruct (x =? newline)%N; simpl; [reflexivity|].
  destruct ls; reflexivity.
Qed.

(* ------------------------------------------------------------------ *)
(** ** The framer: the scan of a buffer and the framing of a body      *)
(* ------------------------------------------------------------------ *)

Section FramingProofs.

Variable JSON_parse : jsstring -> option json.

Lemma consume_app (l1 l2 : list jsstring) :
  forall pending out,
    consume JSON_parse pending (l1 ++ l2) out
    = consume JSON_parse (fst (consume JSON_parse pending l1 out)) l2 (snd (consume JSON_parse pending l1 out)).
Proof.
  induction l1 as [|l l1 IH]; simpl; intros pending out; [reflexivity|].
  destruct (is_empty (trim (pending ++ l))); [apply IH|].
  destruct (incomplete (processLine JSON_parse (pending ++ l))); apply IH.
Qed.

(** One line of the scan. *)
Lemma consume_cons (pending l : jsstring) (ls : list jsstring) (out : list json) :
  consume JSON_parse pending (l :: ls) out
  = if is_empty (trim (pending ++ l)) then consume JSON_parse [] ls out
    else if incomplete (processLine JSON_parse (pending ++ l))
         then consume JSON_parse ((pending ++ l) ++ [newline]) ls out
         else consume JSON_parse [] ls
                (if truthy (content (processLine JSON_parse (pending ++ l)))
                 then out ++ [content (processLine JSON_parse (pending ++ l))]
                 else out).
Proof. reflexivity. Qed.

(** The fragments found so far stay in front of those of the lines that
    follow. *)
Lemma consume_out (ls : list jsstring) :
  forall p out,
    consume JSON_parse p ls out
    = (fst (consume JSON_parse p ls []),
       out ++ snd (consume JSON_parse p ls [])).
Proof.
  induction ls as [|l ls IH]; intros p out; cbn [consume].
  - cbn. now rewrite app_nil_r.
  - destruct (is_empty (trim (p ++ l))); [apply IH|].
    destruct (incomplete (processLine JSON_parse (p ++ l))); [apply IH|].
    destruct (truthy (content (processLine JSON_parse (p ++ l)))); [|apply IH].
    rewrite (IH [] (out ++ _)), (IH [] ([] ++ _)). cbn [fst snd].
    now rewrite <- !app_assoc.
Qed.

Lemma addable_prefix_all (frags : list json) :
  forallb addable frags = true -> addable_prefix frags = frags.
Proof.
  induction frags as [|f frags IH]; cbn [forallb addable_prefix];
    [reflexivity|].
  intros H. apply andb_true_iff in H. destruct H as [Hf H].
  now rewrite Hf, IH.
Qed.

Lemma addable_prefix_app (a b : list json) :
  forallb addable a = true ->
  addable_prefix (a ++ b) = a ++ addable_prefix b.
Proof.
  induction a as [|f a IH]; cbn [forallb addable_prefix app];
    [reflexivity|].
  intros H. apply andb_true_iff in H. destruct H as [Hf H].
  now rewrite Hf, IH.
Qed.

Lemma addable_prefix_stop (a b : list json) :
  forallb addable a = false ->
  addable_prefix (a ++ b) = addable_prefix a.
Proof.
  induction a as [|f a IH]; cbn [forallb addable_prefix app];
    [discriminate|].
  destruct (addable f); [|reflexivity].
  intros H. now rewrite IH.
Qed.

Lemma addable_prefix_incl (frags : list json) (P : json -> Prop) :
  Forall P frags -> Forall P (addable_prefix frags).
Proof.
  induction 1 as [|f frags Hf _ IH]; cbn [addable_prefix]; [constructor|].
  destruct (addable f); constructor; assumption.
Qed.

(** The scan of [scan_buffer] from [processedUpTo] and [searchStart]
    follows [consume] on the lines that start at [searchStart], with the
    text between the two positions kept back.  When every fragment of
    these lines can be added to a string, it ends with all of them
    yielded, and the final [processedUpTo] is where the text kept back
    starts; otherwise it throws at the first fragment that cannot, with
    the fragments before it yielded. *)
Lemma scan_buffer_consume (fuel : nat) (buffer : jsstring) :
  forall processedUpTo searchStart out,
    processedUpTo <= searchStart -> searchStart <= length buffer ->
    length (fst (lines_rest (skipn searchStart buffer))) < fuel ->
    (forallb addable
             (snd (consume JSON_parse (substring buffer processedUpTo searchStart)
                           (fst (lines_rest (skipn searchStart buffer))) []))
     = true ->
     exists p',
       scan_buffer JSON_parse fuel buffer processedUpTo searchStart out
       = Some (Ok p',
               out ++ snd (consume JSON_parse
                                   (substring buffer processedUpTo searchStart)
                                   (fst (lines_rest (skipn searchStart buffer)))
                                   []))
       /\ skipn p' buffer
          = fst (consume JSON_parse (substring buffer processedUpTo searchStart)
                         (fst (lines_rest (skipn searchStart buffer))) [])
            ++ snd (lines_rest (skipn searchStart buffer)))
    /\ (forallb addable
                (snd (consume JSON_parse
                              (substring buffer processedUpTo searchStart)
                              (fst (lines_rest (skipn searchStart buffer))) []))
        = false ->
        scan_buffer JSON_parse fuel buffer processedUpTo searchStart out
        = Some (Throw TypeError,
                out ++ addable_prefix
                         (snd (consume JSON_parse
                                       (substring buffer processedUpTo searchStart)
                                       (fst (lines_rest (skipn searchStart buffer)))
                                       [])))).
Proof.
  induction fuel as [|fuel IH]; intros p s out Hp Hs Hfuel; [lia|].
  cbn [scan_buffer].
  destruct (indexOf buffer newline s) as [n|] eqn:Ei.
  - destruct (indexOf_some _ _ _ _ Hs Ei) as (l & rest & Hk & Hl & ->).
    assert (Hlt := skipn_length_lt _ _ _ _ _ Hk).
    assert (Hrest := skipn_past _ _ _ _ _ Hk).
    rewrite Hk, (lines_rest_line _ rest Hl) in *.
    cbn [fst snd length] in Hfuel |- *.
    rewrite consume_cons.
    rewrite (substring_extend _ _ _ _ _ Hp Hs Hk).
    assert (Hnext : substring buffer p (s + length l + 1)
                    = (substring buffer p s ++ l) ++ [newline]).
    { replace (s + length l + 1) with (s + length (l ++ [newline]))
        by (rewrite length_app; simpl; lia).
      rewrite (substring_extend buffer (l ++ [newline]) rest p s Hp Hs).
      - now rewrite app_assoc.
      - now rewrite <- app_assoc. }
    destruct (is_empty (trim (substring buffer p s ++ l))).
    + specialize (IH (s + length l + 1) (s + length l + 1) out).
      rewrite substring_same, Hrest in IH.
      apply IH; lia.
    + destruct (incomplete (processLine JSON_parse (substring buffer p s ++ l))).
      * destruct (Nat.leb_spec (length buffer) (s + length l + 1)) as [Hb|Hb].
        -- assert (rest = []) as ->.
           { rewrite <- Hrest. apply skipn_all2. lia. }
           cbn [lines_rest consume fst snd forallb addable_prefix].
           split; [intros _ | discriminate].
           exists p. rewrite !app_nil_r. split; [reflexivity|].
           rewrite <- Hnext.
           rewrite (skipn_split buffer p (s + length l + 1)) by lia.
           rewrite Hrest. now rewrite app_nil_r.
        -- specialize (IH p (s + length l + 1) out).
           rewrite Hnext, Hrest in IH.
           apply IH; lia.
      * set (f := content (processLine JSON_parse (substring buffer p s ++ l))).
        destruct (truthy f).
        -- rewrite (consume_out (fst (lines_rest rest)) [] ([] ++ [f])).
           cbn [fst snd app forallb addable_prefix].
           destruct (addable f).
           ++ specialize (IH (s + length l + 1) (s + length l + 1) (out ++ [f])).
              rewrite substring_same, Hrest in IH.
              cbn [andb].
              replace (out ++ f :: snd (consume JSON_parse [] (fst (lines_rest rest)) []))
                with ((out ++ [f])
                        ++ snd (consume JSON_parse [] (fst (lines_rest rest)) []))
                by now rewrite <- app_assoc.
              replace (out ++ f :: addable_prefix
                                     (snd (consume JSON_parse [] (fst (lines_rest rest)) [])))
                with ((out ++ [f])
                        ++ addable_prefix
                             (snd (consume JSON_parse [] (fst (lines_rest rest)) [])))
                by now rewrite <- app_assoc.
              apply IH; lia.
           ++ cbn [andb]. split; [discriminate | intros _].
              now rewrite app_nil_r.
        -- specialize (IH (s + length l + 1) (s + length l + 1) out).
           rewrite substring_same, Hrest in IH.
           apply IH; lia.
  - apply indexOf_none in Ei.
    rewrite (lines_rest_free _ Ei).
    cbn [fst snd consume forallb addable_prefix].
    split; [intros _ | discriminate].
    exists p. rewrite app_nil_r. split; [reflexivity|]. now apply skipn_split.
Qed.

(** A scan always ends with the fuel that [read_loop] gives it. *)
Lemma scan_buffer_whole (buffer : jsstring) (out : list json) :
  (forallb addable (snd (consume JSON_parse [] (fst (lines_rest buffer)) []))
   = true ->
   exists p',
     scan_buffer JSON_parse (S (length buffer)) buffer 0 0 out
     = Some (Ok p',
             out ++ snd (consume JSON_parse [] (fst (lines_rest buffer)) []))
     /\ skipn p' buffer
        = fst (consume JSON_parse [] (fst (lines_rest buffer)) [])
          ++ snd (lines_rest buffer))
  /\ (forallb addable (snd (consume JSON_parse [] (fst (lines_rest buffer)) []))
      = false ->
      scan_buffer JSON_parse (S (length buffer)) buffer 0 0 out
      = Some (Throw TypeError,
              out ++ addable_prefix
                       (snd (consume JSON_parse [] (fst (lines_rest buffer)) [])))).
Proof.
  pose proof (scan_buffer_consume (S (length buffer)) buffer 0 0 out) as H.
  rewrite substring_same in H. cbn [skipn] in H.
  apply H; [lia | lia |].
  pose proof (lines_rest_count buffer). lia.
Qed.

End FramingProofs.

Section DecoderProofs.

Variable JSON_parse : jsstring -> option json.

Lemma kept_back_nil : kept_back JSON_parse [].
Proof. split; reflexivity. Qed.

Lemma kept_back_line (p l : jsstring) :
  kept_back JSON_parse p -> nl_free l ->
  is_empty (trim (p ++ l)) = false ->
  incomplete (processLine JSON_parse (p ++ l)) = true ->
  kept_back JSON_parse ((p ++ l) ++ [newline]).
Proof.
  intros [Hr Hk] Hl Hb Hi.
  assert (E : lines_rest ((p ++ l) ++ [newline])
              = (fst (lines_rest p) ++ [l], [])).
  { rewrite <- app_assoc, lines_rest_app, Hr. simpl.
    now rewrite (lines_rest_line l [] Hl). }
  split; rewrite E; [reflexivity|].
  intros ls out. simpl. rewrite <- app_assoc. simpl.
  rewrite Hk. simpl. now rewrite Hb, Hi.
Qed.

Lemma consume_kept_back (ls : list jsstring) :
  forall p out,
    Forall nl_free ls -> kept_back JSON_parse p ->
    kept_back JSON_parse (fst (consume JSON_parse p ls out)).
Proof.
  induction ls as [|l ls IH]; simpl; intros p out Hls Hp; [assumption|].
  inversion Hls; subst.
  destruct (is_empty (trim (p ++ l))) eqn:Hb.
  - apply IH; [assumption | apply kept_back_nil].
  - destruct (incomplete (processLine JSON_parse (p ++ l))) eqn:Hi.
    + apply IH; [assumption | now apply kept_back_line].
    + apply IH; [assumption | apply kept_back_nil].
Qed.

Lemma framed_kept_back (body : jsstring) :
  kept_back JSON_parse
            (fst (consume JSON_parse [] (fst (lines_rest body)) [])).
Proof.
  apply consume_kept_back; [apply lines_rest_nl_free | apply kept_back_nil].
Qed.

(** One more chunk: scanning the buffer left by [body], extended with the
    chunk, gives the state of [body ++ chunk]. *)
Lemma framed_step (body chunk : jsstring) :
  let buffer1 := fst (framed JSON_parse body) ++ chunk in
  framed JSON_parse (body ++ chunk)
  = (fst (consume JSON_parse [] (fst (lines_rest buffer1))
                  (snd (framed JSON_parse body)))
     ++ snd (lines_rest buffer1),
     snd (consume JSON_parse [] (fst (lines_rest buffer1))
                  (snd (framed JSON_parse body)))).
Proof.
  intros buffer1. subst buffer1. unfold framed.
  pose proof (framed_kept_back body) as [Hr Hk].
  rewrite (lines_rest_app body chunk).
  destruct (lines_rest body) as [ls r]. simpl in *.
  rewrite consume_app.
  destruct (consume JSON_parse [] ls []) as [p o]. simpl in *.
  rewrite <- app_assoc, (lines_rest_app p (r ++ chunk)), Hr. simpl.
  rewrite Hk.
  destruct (consume JSON_parse p (fst (lines_rest (r ++ chunk))) o).
  reflexivity.
Qed.

(** The fragments of a text, then those of what follows it. *)
Lemma framed_out (body chunk : jsstring) :
  snd (framed JSON_parse (body ++ chunk))
  = snd (framed JSON_parse body)
    ++ snd (consume JSON_parse []
                    (fst (lines_rest (fst (framed JSON_parse body) ++ chunk)))
                    []).
Proof.
  pose proof (framed_step body chunk) as H. cbv zeta in H. rewrite H.
  cbn [snd]. now rewrite consume_out.
Qed.

Lemma framed_buffer (body chunk : jsstring) :
  fst (framed JSON_parse (body ++ chunk))
  = fst (consume JSON_parse []
                 (fst (lines_rest (fst (framed JSON_parse body) ++ chunk))) [])
    ++ snd (lines_rest (fst (framed JSON_parse body) ++ chunk)).
Proof.
  pose proof (framed_step body chunk) as H. cbv zeta in H. rewrite H.
  cbn [fst]. now rewrite consume_out.
Qed.

Lemma loop_end_stop (buffer : jsstring) (frags extra : list json) :
  forallb addable frags = false ->
  loop_end buffer (frags ++ extra) = (Throw TypeError, addable_prefix frags).
Proof.
  intros H. unfold loop_end.
  now rewrite forallb_app, H, (addable_prefix_stop frags extra H).
Qed.

(** The fragments of a longer text start with those of the text. *)
Lemma framed_grows (body more : jsstring) :
  exists extra,
    snd (framed JSON_parse (body ++ more))
    = snd (framed JSON_parse body) ++ extra.
Proof. eexists. apply framed_out. Qed.

(** The read loop, chunk after chunk, from the state that the text
    [body] has led to without an exception. *)
Lemma read_loop_framed (chunks : list jsstring) (remaining : jsstring) :
  forall body,
    forallb addable (snd (framed JSON_parse body)) = true ->
    read_loop JSON_parse chunks remaining
              (fst (framed JSON_parse body)) (snd (framed JSON_parse body))
    = Some (loop_end
              (if is_empty remaining
               then fst (framed JSON_parse (body ++ concat chunks))
               else fst (framed JSON_parse (body ++ concat chunks))
                        ++ remaining)
              (snd (framed JSON_parse (body ++ concat chunks)))).
Proof.
  induction chunks as [|chunk chunks IH]; intros body Hb.
  - cbn [read_loop concat]. rewrite app_nil_r. unfold loop_end.
    now rewrite Hb.
  - cbn [read_loop concat]. rewrite app_assoc.
    pose proof (scan_buffer_whole JSON_parse
                  (fst (framed JSON_parse body) ++ chunk)
                  (snd (framed JSON_parse body))) as [Hok Hthrow].
    pose proof (framed_out body chunk) as Ho.
    pose proof (framed_buffer body chunk) as Hf.
    destruct (forallb addable
                (snd (consume JSON_parse []
                        (fst (lines_rest (fst (framed JSON_parse body) ++ chunk)))
                        []))) eqn:Ha.
    + destruct (Hok eq_refl) as (p' & E1 & E2). rewrite E1.
      assert (E3 : (if 0 <? p'
                    then substring_from (fst (framed JSON_parse body) ++ chunk) p'
                    else fst (framed JSON_parse body) ++ chunk)
                   = skipn p' (fst (framed JSON_parse body) ++ chunk)).
      { destruct p'; reflexivity. }
      rewrite E3, E2, <- Hf, <- Ho.
      apply IH. now rewrite Ho, forallb_app, Hb, Ha.
    + rewrite (Hthrow eq_refl).
      destruct (framed_grows (body ++ chunk) (concat chunks)) as (extra & ->).
      rewrite loop_end_stop by now rewrite Ho, forallb_app, Hb, Ha.
      now rewrite Ho, (addable_prefix_app _ _ Hb).
Qed.

(** The streaming branch always ends, and its run is a function of the
    text of the body alone. *)
Lemma decode_stream_fragments (chunks : list jsstring) (remaining : jsstring) :
  decode_stream JSON_parse chunks remaining
  = Some (stream_run JSON_parse (concat chunks) remaining).
Proof.
  unfold decode_stream, stream_run, stream_end.
  pose proof (read_loop_framed chunks remaining [] eq_refl) as H.
  change (fst (framed JSON_parse [])) with (@nil N) in H.
  change (snd (framed JSON_parse [])) with (@nil json) in H.
  rewrite H. cbn [app]. unfold loop_end.
  now destruct (forallb addable (snd (framed JSON_parse (concat chunks)))).
Qed.

(** While every fragment read by the loop can be added to a string, the
    run returns the fragments of the text. *)
Lemma stream_run_done (body remaining : jsstring) :
  forallb addable (snd (framed JSON_parse body)) = true ->
  stream_run JSON_parse body remaining
  = Done (fragments_of JSON_parse body remaining).
Proof.
  intros H. unfold stream_run, stream_end, fragments_of. rewrite H.
  now destruct (framed JSON_parse body).
Qed.

(** A run of the streaming branch returns, or throws the [TypeError] of
    l.240. *)
Lemma stream_end_cases (frags last : list json) :
  exists ys, stream_end frags last = Done ys
             \/ stream_end frags last = Threw ys TypeError.
Proof.
  unfold stream_end. destruct (forallb addable frags); eauto.
Qed.

End DecoderProofs.

(* ------------------------------------------------------------------ *)
(** ** Chunking independence                                           *)
(* ------------------------------------------------------------------ *)

Lemma concat_singletons (s : jsstring) : concat (map (fun c => [c]) s) = s.
Proof. induction s as [|c s IH]; simpl; congruence. Qed.

Lemma streamChatCompletion_body (JSON_parse : jsstring -> option json)
      (opts : Options) (r1 r2 : Response) :
  resp_ok r1 = resp_ok r2 -> resp_status r1 = resp_status r2 ->
  resp_flush r1 = resp_flush r2 ->
  concat (resp_chunks r1) = concat (resp_chunks r2) ->
  streamChatCompletion JSON_parse (serve r1) opts
  = streamChatCompletion JSON_parse (serve r2) opts.
Proof.
  intros Hok Hst Hfl Hc.
  unfold streamChatCompletion, serve, api_error, non_streaming, body_text.
  rewrite !decode_stream_fragments, Hok, Hst, Hfl, Hc. reflexivity.
Qed.

Lemma streamChatCompletion_streaming (JSON_parse : jsstring -> option json)
      (opts : Options) (r : Response) :
  resp_ok r = true -> useStreaming opts = true ->
  streamChatCompletion JSON_parse (serve r) opts
  = Some (stream_run JSON_parse (concat (resp_chunks r)) (resp_flush r)).
Proof.
  intros Hok Hs. unfold streamChatCompletion, serve.
  now rewrite Hok, Hs, decode_stream_fragments.
Qed.

(** C1 (chunking independence).  Whatever the body of a response, the run
    of [streamChatCompletion] is the same however the body is cut into
    chunks: cut at any places, delivered as one chunk, or one character
    at a time; the fragments yielded are therefore the same, one by one
    and concatenated.  On the streaming branch the run always ends: it
    returns, or it throws the [TypeError] of l.240; and it returns when
    every fragment that the read loop finds can be added to a string, as
    every text can. *)
Theorem chunking_independence
        (JSON_parse : jsstring -> option json) (opts : Options) (r : Response) :
  (forall chunks,
      concat chunks = concat (resp_chunks r) ->
      streamChatCompletion JSON_parse (serve (rechunk r chunks)) opts
      = streamChatCompletion JSON_parse (serve r) opts)
  /\ streamChatCompletion JSON_parse
       (serve (rechunk r [concat (resp_chunks r)])) opts
     = streamChatCompletion JSON_parse (serve r) opts
  /\ streamChatCompletion JSON_parse
       (serve (rechunk r (map (fun c => [c]) (concat (resp_chunks r))))) opts
     = streamChatCompletion JSON_parse (serve r) opts
  /\ (resp_ok r = true -> useStreaming opts = true ->
      (exists frags,
          streamChatCompletion JSON_parse (serve r) opts = Some (Done frags)
          \/ streamChatCompletion JSON_parse (serve r) opts
             = Some (Threw frags TypeError))
      /\ (forallb addable (snd (framed JSON_parse (concat (resp_chunks r))))
          = true ->
          streamChatCompletion JSON_parse (serve r) opts
          = Some (Done (fragments_of JSON_parse (concat (resp_chunks r))
                                     (resp_flush r))))).
Proof.
  assert (H : forall chunks,
             concat chunks = concat (resp_chunks r) ->
             streamChatCompletion JSON_parse (serve (rechunk r chunks)) opts
             = streamChatCompletion JSON_parse (serve r) opts).
  { intros chunks Hc. now apply streamChatCompletion_body. }
  split; [exact H|].
  split; [apply H; simpl; apply app_nil_r|].
  split; [apply H; apply concat_singletons|].
  intros Hok Hs. rewrite (streamChatCompletion_streaming _ _ _ Hok Hs).
  split.
  - unfold stream_run.
    destruct (stream_end_cases
                (snd (framed JSON_parse (concat (resp_chunks r))))
                (final_pass JSON_parse
                   (if is_empty (resp_flush r)
                    then fst (framed JSON_parse (concat (resp_chunks r)))
                    else fst (framed JSON_parse (concat (resp_chunks r)))
                             ++ resp_flush r)))
      as (ys & [E|E]); exists ys; rewrite E; [now left | now right].
  - intros Ha. now rewrite stream_run_done.
Qed.

Lemma chunking_independence_witness :
  concat [firstn 20 hello_body; skipn 20 hello_body]
  = concat (resp_chunks (ok_response [hello_body]))
  /\ resp_ok (ok_response [hello_body]) = true
  /\ useStreaming flash_options = true
  /\ streamChatCompletion json_parse
       (serve (rechunk (ok_response [hello_body])
                       [firstn 20 hello_body; skipn 20 hello_body]))
       flash_options
     = streamChatCompletion json_parse (serve (ok_response [hello_body]))
                            flash_options
  /\ streamChatCompletion json_parse (serve (ok_response [hello_body]))
                          flash_options
     = Some (Done (fragments_of json_parse
                     (concat (resp_chunks (ok_response [hello_body])))
                     (resp_flush (ok_response [hello_body])))).
Proof.
  pose proof (chunking_independence json_parse flash_options
                                    (ok_response [hello_body])) as (H1 & _ & _ & H4).
  split; [vm_compute; reflexivity|].
  split; [reflexivity|].
  split; [vm_compute; reflexivity|].
  split.
  - apply H1. vm_compute. reflexivity.
  - apply H4; vm_compute; reflexivity.
Defined.

Example hello_one_chunk :
  streamChatCompletion json_parse (serve (ok_response [hello_body])) flash_options
  = Some (Done [JStr (js "Hel"); JStr (js "lo")]).
Proof. vm_compute. reflexivity. Qed.

Example hello_char_by_char :
  streamChatCompletion json_parse
    (serve (ok_response (map (fun c => [c]) hello_body))) flash_options
  = Some (Done [JStr (js "Hel"); JStr (js "lo")]).
Proof. vm_compute. reflexivity. Qed.

(* ------------------------------------------------------------------ *)
(** ** Valid streams                                                   *)
(* ------------------------------------------------------------------ *)

Section ValidStreamProofs.

Variable JSON_parse : jsstring -> option json.

(** On a complete frame the scan and the final pass yield the same. *)
Lemma final_line_complete (l : jsstring) :
  incomplete (processLine JSON_parse l) = false ->
  final_line JSON_parse l
  = if truthy (content (processLine JSON_parse l))
    then [content (processLine JSON_parse l)] else [].
Proof.
  unfold processLine, final_line.
  destruct (is_empty (trim l) || str_eqb (trim l) done_marker); [reflexivity|].
  destruct (negb (startsWith (trim l) data_prefix)); [reflexivity|].
  destruct (JSON_parse (slice_from 6 (trim l))) as [j|]; [|discriminate].
  destruct (extractContent j) as [c|e]; [reflexivity | discriminate].
Qed.

Lemma final_line_blank (l : jsstring) :
  is_empty (trim l) = true -> final_line JSON_parse l = [].
Proof. intros H. unfold final_line. now rewrite H. Qed.

(** Nothing is kept back while the lines are complete frames. *)
Lemma consume_complete (ls : list jsstring) :
  forall out,
    Forall (complete_frame JSON_parse) ls ->
    consume JSON_parse [] ls out
    = ([], out ++ flat_map (final_line JSON_parse) ls).
Proof.
  induction ls as [|l ls IH]; simpl; intros out H.
  - now rewrite app_nil_r.
  - inversion H as [|? ? Hl Hls]; subst.
    destruct (is_empty (trim l)) eqn:Hb.
    + rewrite (final_line_blank l Hb). now apply IH.
    + destruct Hl as [Hl|Hl]; [congruence|].
      rewrite Hl, (final_line_complete l Hl), IH by assumption.
      now destruct (truthy _); rewrite <- ?app_assoc.
Qed.

(** The fragments of a valid body are those of its lines, in order. *)
Lemma valid_body_fragments (body : jsstring) :
  valid_body JSON_parse body ->
  fragments_of JSON_parse body []
  = flat_map (final_line JSON_parse) (split newline body).
Proof.
  intros H. unfold fragments_of, framed, valid_body in *.
  rewrite split_lines_rest, flat_map_app.
  pose proof (lines_rest_nl_free body) as [_ Hr].
  destruct (lines_rest body) as [ls r]. simpl in *.
  rewrite (consume_complete ls [] H). simpl. f_equal.
  unfold final_pass.
  rewrite split_lines_rest, (lines_rest_free r Hr). simpl.
  destruct (is_empty (trim r)) eqn:Hb; simpl; [|reflexivity].
  now rewrite (final_line_blank r Hb).
Qed.

End ValidStreamProofs.

Example hello_body_valid : valid_body json_parse hello_body.
Proof.
  unfold valid_body.
  let ls := eval vm_compute in (fst (lines_rest hello_body)) in
  assert (E : fst (lines_rest hello_body) = ls) by (vm_compute; reflexivity).
  rewrite E. repeat (constructor; [vm_compute; tauto|]). constructor.
Qed.

(* ------------------------------------------------------------------ *)
(** ** White space                                                     *)
(* ------------------------------------------------------------------ *)

Lemma is_empty_rev (s : jsstring) : is_empty (rev s) = is_empty s.
Proof.
  destruct s as [|c s]; [reflexivity|]. simpl.
  destruct (rev s ++ [c]) eqn:E; [|reflexivity].
  now apply app_eq_nil in E.
Qed.

Lemma forallb_rev (f : N -> bool) (s : jsstring) :
  forallb f (rev s) = forallb f s.
Proof.
  induction s as [|c s IH]; [reflexivity|]. simpl.
  rewrite forallb_app, IH. simpl. rewrite andb_true_r. apply andb_comm.
Qed.

Lemma trimStart_empty (s : jsstring) :
  is_empty (trimStart s) = forallb is_white s.
Proof.
  induction s as [|c s IH]; [reflexivity|]. simpl.
  destruct (is_white c); [exact IH | reflexivity].
Qed.

Lemma trimStart_white (s : jsstring) :
  forallb is_white (trimStart s) = forallb is_white s.
Proof.
  induction s as [|c s IH]; [reflexivity|]. simpl.
  destruct (is_white c) eqn:E; [exact IH|]. simpl. now rewrite E.
Qed.

(** A line is blank for [trim] exactly when it is made of white space. *)
Lemma trim_empty (s : jsstring) : is_empty (trim s) = forallb is_white s.
Proof.
  unfold trim, trimEnd.
  now rewrite is_empty_rev, trimStart_empty, forallb_rev, trimStart_white.
Qed.

Lemma trim_nil : trim [] = [].
Proof. reflexivity. Qed.

(* ------------------------------------------------------------------ *)
(** ** The end of the stream                                           *)
(* ------------------------------------------------------------------ *)

Lemma lines_rest_ends_nl (b : jsstring) :
  snd (lines_rest (b ++ [newline])) = [].
Proof.
  rewrite lines_rest_app.
  pose proof (lines_rest_nl_free b) as [_ Hr].
  now rewrite (lines_rest_line _ [] Hr).
Qed.

Section EndOfStream.

Variable JSON_parse : jsstring -> option json.



(** The text kept back by a scan is empty or not blank. *)
Lemma consume_pending (ls : list jsstring) :
  forall p out,
    p = [] \/ forallb is_white p = false ->
    fst (consume JSON_parse p ls out) = []
    \/ forallb is_white (fst (consume JSON_parse p ls out)) = false.
Proof.
  induction ls as [|l ls IH]; simpl; intros p out Hp; [assumption|].
  destruct (is_empty (trim (p ++ l))) eqn:Hb; [apply IH; now left|].
  destruct (incomplete (processLine JSON_parse (p ++ l))).
  - apply IH. right. rewrite trim_empty in Hb.
    rewrite forallb_app, Hb. reflexivity.
  - apply IH. now left.
Qed.

(** A last line without line feed that yields nothing leaves the final
    pass as it is without it. *)
Lemma final_pass_remnant (p remnant : jsstring) :
  kept_back JSON_parse p ->
  p = [] \/ forallb is_white p = false ->
  nl_free remnant ->
  final_line JSON_parse remnant = [] ->
  final_pass JSON_parse (p ++ remnant) = final_pass JSON_parse p.
Proof.
  intros [Hr _] Hp Hn Hf. unfold final_pass.
  rewrite !split_lines_rest, lines_rest_app, Hr. simpl.
  rewrite (lines_rest_free remnant Hn). simpl.
  rewrite app_nil_r, !flat_map_app. simpl.
  rewrite Hf, !trim_empty.
  destruct Hp as [-> | Hp].
  - simpl. now destruct (negb (forallb is_white remnant)).
  - rewrite forallb_app, Hp. reflexivity.
Qed.






End EndOfStream.



Example cut_stream_run :
  streamChatCompletion json_parse
    (serve (ok_response [cut_head; cut_remnant])) flash_options
  = Some (Done [JStr (js "Hel")]).
Proof. vm_compute. reflexivity. Qed.

(** The stream cut inside a letter yields the fragment of its first event
    and returns. *)
Example cut_in_letter_run :
  streamChatCompletion json_parse (serve cut_in_letter) flash_options
  = Some (Done [JStr (js "Hel")]).
Proof. vm_compute. reflexivity. Qed.

(** A number too small for a double is zero, and yields nothing. *)
Example tiny_number_is_zero :
  json_parse (js "1e-400") = Some (JNum 0)
  /\ json_parse (js "5e-324") <> Some (JNum 0)
  /\ streamChatCompletion json_parse
       (serve (ok_response [sse "data: {'content':1e-400}|"])) flash_options
     = Some (Done []).
Proof.
  split; [vm_compute; reflexivity|].
  split; [vm_compute; discriminate | vm_compute; reflexivity].
Qed.

(** The exception of l.240 is raised by the event that cannot be added,
    not by the line that ends the stream. *)
Example unaddable_then_cut_run :
  streamChatCompletion json_parse (serve (ok_response [unaddable_then_cut]))
                       flash_options
  = Some (Threw [] TypeError).
Proof. vm_compute. reflexivity. Qed.

(* ------------------------------------------------------------------ *)
(** ** Fragments are never empty                                       *)
(* ------------------------------------------------------------------ *)

Lemma truthy_proper (f : json) : truthy f = true -> proper_fragment f.
Proof.
  intros H. split; [assumption|].
  split; intros ->; discriminate.
Qed.

Lemma or_null_cases (v : jsval) : or_null v = JNull \/ truthy (or_null v) = true.
Proof.
  destruct v as [x|]; simpl; [|now left].
  destruct (truthy x) eqn:E; [now right | now left].
Qed.

(** The extractor returns [null] or a truthy value, never the empty
    string. *)
Lemma extractContent_cases (json0 : json) :
  match extractContent json0 with
  | Ok c => c = JNull \/ truthy c = true
  | Throw _ => True
  end.
Proof.
  unfold extractContent.
  destruct (prop_of json0 k_choices) as [choices|e]; [|exact I].
  destruct (delta_field choices k_reasoning) as [[ |b|q|s|l|fs]|];
    try apply or_null_cases;
    match goal with |- context [if ?b then _ else _] => destruct b end;
    try exact I; apply or_null_cases.
Qed.

Section FragmentsProofs.

Variable JSON_parse : jsstring -> option json.

Lemma consume_truthy (ls : list jsstring) :
  forall p out,
    Forall proper_fragment out ->
    Forall proper_fragment (snd (consume JSON_parse p ls out)).
Proof.
  induction ls as [|l ls IH]; simpl; intros p out Hout; [assumption|].
  destruct (is_empty (trim (p ++ l))); [now apply IH|].
  destruct (incomplete (processLine JSON_parse (p ++ l))); [now apply IH|].
  apply IH.
  destruct (truthy (content (processLine JSON_parse (p ++ l)))) eqn:E;
    [|assumption].
  apply Forall_app. split; [assumption|].
  constructor; [now apply truthy_proper | constructor].
Qed.

Lemma final_line_truthy (l : jsstring) :
  Forall proper_fragment (final_line JSON_parse l).
Proof.
  unfold final_line.
  destruct (is_empty (trim l) || str_eqb (trim l) done_marker); [constructor|].
  destruct (negb (startsWith (trim l) data_prefix)); [constructor|].
  destruct (JSON_parse (slice_from 6 (trim l))) as [j|]; [|constructor].
  destruct (extractContent j) as [c|e]; [|constructor].
  destruct (truthy c) eqn:E; [|constructor].
  constructor; [now apply truthy_proper | constructor].
Qed.

Lemma final_pass_truthy (buffer : jsstring) :
  Forall proper_fragment (final_pass JSON_parse buffer).
Proof.
  unfold final_pass.
  destruct (negb (is_empty (trim buffer))); [|constructor].
  induction (split newline buffer) as [|l ls IH]; simpl; [constructor|].
  apply Forall_app. split; [apply final_line_truthy | exact IH].
Qed.

Lemma fragments_of_truthy (body remaining : jsstring) :
  Forall proper_fragment (fragments_of JSON_parse body remaining).
Proof.
  unfold fragments_of, framed.
  pose proof (consume_truthy (fst (lines_rest body)) [] [] (Forall_nil _)) as H.
  destruct (lines_rest body) as [ls r]. simpl in H.
  destruct (consume JSON_parse [] ls []) as [p o]. simpl in H.
  apply Forall_app. split; [assumption | apply final_pass_truthy].
Qed.

Lemma non_streaming_truthy (r : Response) :
  Forall proper_fragment (yields_of (Some (non_streaming JSON_parse r))).
Proof.
  unfold non_streaming.
  destruct (JSON_parse (body_text r)) as [d|]; [|constructor].
  destruct (prop_of d k_choices) as [choices|e]; [|constructor].
  destruct (opt_prop _ _) as [c|]; [|constructor].
  destruct (truthy c) eqn:E; [|constructor].
  constructor; [now apply truthy_proper | constructor].
Qed.

End FragmentsProofs.

(** No fragment is empty.  Every fragment yielded by a run of
    [streamChatCompletion], on the streaming branch and on the
    non-streaming one, whether the run returns or throws, is a truthy
    value: it is never the empty string (nor [null]).  The extractor
    returns [null] or a truthy value, and [null] is not truthy, so that an
    event without content yields nothing. *)
Theorem no_empty_fragment
        (JSON_parse : jsstring -> option json)
        (fetch : Request -> outcome Response) (opts : Options) :
  Forall (fun f => truthy f = true /\ f <> JStr [] /\ f <> JNull)
         (yields_of (streamChatCompletion JSON_parse fetch opts))
  /\ (forall json0,
         match extractContent json0 with
         | Ok c => c = JNull \/ (truthy c = true /\ c <> JStr [])
         | Throw _ => True
         end)
  /\ truthy JNull = false.
Proof.
  split; [|split; [|reflexivity]].
  - unfold streamChatCompletion.
    destruct (fetch (build_request opts)) as [r|e]; [|constructor].
    destruct (negb (resp_ok r)); [constructor|].
    destruct (negb (useStreaming opts)); [apply non_streaming_truthy|].
    rewrite decode_stream_fragments. unfold stream_run, stream_end.
    pose proof (fragments_of_truthy JSON_parse (concat (resp_chunks r))
                                    (resp_flush r)) as H.
    unfold fragments_of in H.
    destruct (framed JSON_parse (concat (resp_chunks r))) as [buffer out].
    cbn [fst snd] in *.
    destruct (forallb addable out); cbn [yields_of]; [exact H|].
    apply addable_prefix_incl. apply Forall_app in H. tauto.
  - intros json0. pose proof (extractContent_cases json0) as H.
    destruct (extractContent json0) as [c|e]; [|exact I].
    destruct H as [H|H]; [now left | right].
    split; [assumption | intros ->; discriminate].
Qed.

(** C3, at the failing input.  The extractor and [processLine] are to
    give a string or [null] (the comment of l.153), and the read loop and
    the interface add the fragments to a string; yet no branch of
    [extractContent] tests the type of the field it takes.  On a stream
    whose event carries its content as an array of blocks, the array
    itself is yielded: the fragment is truthy, and it is not a string. *)
Lemma parts_fragment_not_a_string :
  streamChatCompletion json_parse (serve (ok_response [parts_body]))
                       flash_options
  = Some (Done [JArr [text_part]])
  /\ ~ (forall f,
          In f (yields_of (streamChatCompletion json_parse
                             (serve (ok_response [parts_body])) flash_options)) ->
          exists s, f = JStr s /\ s <> []).
Proof.
  split; [vm_compute; reflexivity|].
  intros H.
  destruct (H (JArr [text_part])) as (s & E & _).
  - vm_compute. left. reflexivity.
  - discriminate E.
Qed.

(* ------------------------------------------------------------------ *)
(** ** The streaming policy                                            *)
(* ------------------------------------------------------------------ *)

Lemma opus_thinking_needs_non_streaming :
  needsNonStreaming (js "claude-opus-4.5-thinking") = true.
Proof. vm_compute. reflexivity. Qed.

Lemma prop_of_ok (v : json) (k : jsstring) :
  v <> JNull -> prop_of v k = Ok (get_prop v k).
Proof. destruct v; simpl; congruence. Qed.

Lemma message_content_null : message_content JNull = None.
Proof. reflexivity. Qed.

Lemma non_streaming_content (JSON_parse : jsstring -> option json)
      (r : Response) (data0 c : json) :
  JSON_parse (body_text r) = Some data0 ->
  message_content data0 = Some c ->
  non_streaming JSON_parse r = if truthy c then Done [c] else Done [].
Proof.
  intros Hp Hc. unfold non_streaming. rewrite Hp.
  assert (Hn : data0 <> JNull) by (intros ->; discriminate Hc).
  rewrite (prop_of_ok data0 k_choices Hn).
  unfold message_content in Hc. now rewrite Hc.
Qed.

(** An empty or missing message content yields no fragment at all. *)
Lemma non_streaming_empty (JSON_parse : jsstring -> option json)
      (r : Response) (data0 : json) :
  JSON_parse (body_text r) = Some data0 ->
  data0 <> JNull ->
  truthy_val (message_content data0) = false ->
  non_streaming JSON_parse r = Done [].
Proof.
  intros Hp Hn Hc. unfold non_streaming. rewrite Hp.
  rewrite (prop_of_ok data0 k_choices Hn).
  unfold message_content in Hc.
  destruct (opt_prop _ _) as [c|]; [|reflexivity].
  simpl in Hc. now rewrite Hc.
Qed.

(** C7 (Scenario A), as the code has it.  For the model
    [claude-opus-4.5-thinking] the policy turns streaming off whatever the
    caller's [forceNonStreaming]: the request carries [stream = false].
    On a successful answer the run then yields exactly one fragment, the
    message content, when this content is a non-empty string; and it
    yields no fragment when the content is empty, [null] or absent (the
    guard [if (content)] of l.95). *)
Theorem thinking_model_forces_non_streaming
        (JSON_parse : jsstring -> option json) (force : bool) :
  useStreaming (opus_thinking_options force) = false
  /\ req_stream (build_request (opus_thinking_options force)) = false
  /\ forall (fetch : Request -> outcome Response) (r : Response)
            (data0 : json),
      fetch (build_request (opus_thinking_options force)) = Ok r ->
      resp_ok r = true ->
      JSON_parse (body_text r) = Some data0 ->
      data0 <> JNull ->
      (forall s,
          message_content data0 = Some (JStr s) -> s <> [] ->
          streamChatCompletion JSON_parse fetch (opus_thinking_options force)
          = Some (Done [JStr s]))
      /\ (message_content data0 = Some (JStr [])
          \/ message_content data0 = Some JNull
          \/ message_content data0 = None ->
          streamChatCompletion JSON_parse fetch (opus_thinking_options force)
          = Some (Done [])).
Proof.
  assert (Hu : useStreaming (opus_thinking_options force) = false).
  { unfold useStreaming. simpl model.
    rewrite opus_thinking_needs_non_streaming. apply andb_false_r. }
  split; [exact Hu|]. split; [exact Hu|].
  intros fetch r data0 Hf Hok Hp Hn.
  assert (Hrun : streamChatCompletion JSON_parse fetch
                   (opus_thinking_options force)
                 = Some (non_streaming JSON_parse r)).
  { unfold streamChatCompletion. rewrite Hf, Hok, Hu. reflexivity. }
  rewrite Hrun. split.
  - intros s Hc Hs.
    rewrite (non_streaming_content JSON_parse r data0 (JStr s) Hp Hc).
    destruct s; [congruence | reflexivity].
  - intros Hc. f_equal.
    apply (non_streaming_empty JSON_parse r data0 Hp Hn).
    destruct Hc as [-> | [-> | ->]]; reflexivity.
Qed.

Lemma thinking_model_forces_non_streaming_witness :
  streamChatCompletion json_parse hello_endpoint (opus_thinking_options false)
  = Some (Done [JStr (js "Hello")])
  /\ streamChatCompletion json_parse (serve (ok_response [reasoning_only_text]))
                          (opus_thinking_options true)
     = Some (Done []).
Proof.
  split.
  - apply (proj1 (proj2 (proj2 (thinking_model_forces_non_streaming
                                  json_parse false))
                        hello_endpoint (ok_response [hello_message_text])
                        (JObj [(k_choices,
                                JArr [JObj [(k_message,
                                             JObj [(js "role",
                                                    JStr (js "assistant"));
                                                   (k_content,
                                                    JStr (js "Hello"))])]])])
                        ltac:(vm_compute; reflexivity) eq_refl
                        ltac:(vm_compute; reflexivity)
                        ltac:(discriminate))
                 (js "Hello")).
    + vm_compute; reflexivity.
    + vm_compute; discriminate.
  - apply (proj2 (proj2 (proj2 (thinking_model_forces_non_streaming
                                  json_parse true))
                        (serve (ok_response [reasoning_only_text]))
                        (ok_response [reasoning_only_text])
                        (JObj [(k_choices,
                                JArr [JObj [(k_message,
                                             JObj [(js "role",
                                                    JStr (js "assistant"));
                                                   (k_content, JStr []);
                                                   (k_reasoning,
                                                    JStr (js "Let me think."))])]])])
                        eq_refl eq_refl
                        ltac:(vm_compute; reflexivity)
                        ltac:(discriminate))).
    left. vm_compute. reflexivity.
Defined.

(** An answer of the thinking model that holds its reasoning and an empty
    content: the request is not streamed and the run yields no fragment,
    where one fragment is expected. *)
Lemma reasoning_only_answer_yields_nothing :
  req_stream (build_request (opus_thinking_options false)) = false
  /\ streamChatCompletion json_parse (serve (ok_response [reasoning_only_text]))
                          (opus_thinking_options false)
     = Some (Done [])
  /\ ~ (exists f,
          streamChatCompletion json_parse
            (serve (ok_response [reasoning_only_text]))
            (opus_thinking_options false)
          = Some (Done [f])).
Proof.
  assert (H : streamChatCompletion json_parse
                (serve (ok_response [reasoning_only_text]))
                (opus_thinking_options false)
              = Some (Done [])) by (vm_compute; reflexivity).
  split; [vm_compute; reflexivity|]. split; [exact H|].
  intros [f E]. rewrite H in E. discriminate E.
Qed.

Example flash_streams : useStreaming flash_options = true.
Proof. vm_compute. reflexivity. Qed.

Example gemini3_does_not_stream :
  useStreaming {| model := js "Gemini-3-Pro-Preview"; forceNonStreaming := false |}
  = false.
Proof. vm_compute. reflexivity. Qed.

(* ------------------------------------------------------------------ *)
(** ** The content extractor                                           *)
(* ------------------------------------------------------------------ *)

Lemma first_truthy_skip (v : jsval) (rest : list jsval) :
  truthy_val v = false -> first_truthy (v :: rest) = first_truthy rest.
Proof. intros H. destruct v as [x|]; simpl in *; [now rewrite H | reflexivity]. Qed.

Lemma first_truthy_hit (v : json) (rest : list jsval) :
  truthy v = true -> first_truthy (Some v :: rest) = v.
Proof. intros H. simpl. now rewrite H. Qed.

(** The empty string falls through.  A shape of [extractContent] matches
    when its field is truthy, not when it is merely present: a field that
    is absent or holds the empty string does not match, whichever shape it
    is, and the extraction goes on with the shapes of lower priority; a
    field that holds a non-empty string matches.  The event
    [{choices:[{delta:{content:''}}], content:'x'}] extracts ['x']. *)
Theorem empty_field_falls_through :
  (forall (x : json) (rest : list jsval),
      first_truthy (Some x :: rest)
      = if truthy x then x else first_truthy rest)
  /\ (forall (v : jsval) (rest : list jsval),
         v = None \/ v = Some (JStr []) ->
         first_truthy (v :: rest) = first_truthy rest)
  /\ (forall (s : jsstring) (rest : list jsval),
         s <> [] -> first_truthy (Some (JStr s) :: rest) = JStr s)
  /\ (forall (json0 : json) (choices : jsval),
         delta_field choices k_content = Some (JStr []) ->
         first_shape json0 choices = first_truthy (tl (shapes json0 choices)))
  /\ json_parse empty_delta_text = Some empty_delta_event
  /\ extractContent empty_delta_event = Ok (JStr (js "x")).
Proof.
  split; [reflexivity|].
  split; [intros v rest [-> | ->]; reflexivity|].
  split; [intros s rest Hs; apply first_truthy_hit; now destruct s|].
  split; [|split; vm_compute; reflexivity].
  intros json0 choices H. unfold first_shape, shapes.
  rewrite H. reflexivity.
Qed.

Lemma empty_field_falls_through_witness :
  delta_field (get_prop empty_delta_event k_choices) k_content = Some (JStr [])
  /\ first_shape empty_delta_event (get_prop empty_delta_event k_choices)
     = first_truthy (tl (shapes empty_delta_event
                                (get_prop empty_delta_event k_choices)))
  /\ first_truthy (Some (JStr (js "x")) :: []) = JStr (js "x")
  /\ first_truthy [Some (JStr []); Some (JStr (js "x"))]
     = first_truthy [Some (JStr (js "x"))].
Proof.
  pose proof empty_field_falls_through as (_ & H1 & H2 & H3 & _).
  split; [vm_compute; reflexivity|].
  split; [|split].
  - apply H3. vm_compute. reflexivity.
  - apply H2. vm_compute. discriminate.
  - apply H1. right. reflexivity.
Defined.

(** C10, at the failing input.  A shape is to match on a non-empty
    string only: the extractor is to give a string or [null] (the comment
    of l.153), and its first lines call [substring] on a field of the same
    object.  Yet each branch tests the truthiness of its field and not its
    type: the first shape matches on a field that holds an array, the
    array is what is extracted, and the lower shape [content: 'x'] is not
    reached. *)
Lemma array_field_matches :
  delta_field (get_prop parts_event k_choices) k_content
  = Some (JArr [text_part])
  /\ extractContent parts_event = Ok (JArr [text_part])
  /\ ~ (exists s, JArr [text_part] = JStr s /\ s <> []).
Proof.
  split; [vm_compute; reflexivity|].
  split; [vm_compute; reflexivity|].
  intros (s & E & _). discriminate E.
Qed.

(* ------------------------------------------------------------------ *)
(** ** Regular expressions: [test] finds exactly the matches           *)
(* ------------------------------------------------------------------ *)

Lemma nullable_matches (r : regex) : nullable r = true <-> matches r [].
Proof.
  split.
  - induction r; simpl; intros H; try discriminate.
    + constructor.
    + apply andb_true_iff in H. destruct H as [H1 H2].
      change (@nil N) with (@nil N ++ []). constructor; auto.
    + apply orb_true_iff in H. destruct H; [apply MAltL | apply MAltR]; auto.
    + constructor.
  - intros H. remember (@nil N) as s eqn:Es.
    induction H; simpl; try discriminate; try reflexivity.
    + apply app_eq_nil in Es. destruct Es; subst.
      now rewrite IHmatches1, IHmatches2.
    + now rewrite IHmatches.
    + rewrite IHmatches by assumption. apply orb_true_r.
Qed.

Lemma matches_never (s : jsstring) : ~ matches Never s.
Proof. intros H. inversion H. Qed.

Lemma seq_never_l (b : regex) (s : jsstring) : ~ matches (Seq Never b) s.
Proof.
  intros H. inversion H; subst.
  match goal with X : matches Never _ |- _ => inversion X end.
Qed.

Lemma seq_never_r (a : regex) (s : jsstring) : ~ matches (Seq a Never) s.
Proof.
  intros H. inversion H; subst.
  match goal with X : matches Never _ |- _ => inversion X end.
Qed.

Lemma seq_empty_l (b : regex) (s : jsstring) :
  matches (Seq Empty b) s <-> matches b s.
Proof.
  split; intros H.
  - inversion H; subst.
    match goal with X : matches Empty _ |- _ => inversion X; subst end.
    assumption.
  - change s with ([] ++ s). constructor; [constructor | assumption].
Qed.

Lemma seq_matches (a b : regex) (s : jsstring) :
  matches (seq a b) s <-> matches (Seq a b) s.
Proof.
  destruct a, b; simpl; try tauto;
    try (rewrite seq_empty_l; tauto);
    split; intros H;
      first [ now apply matches_never in H
            | now apply seq_never_l in H
            | now apply seq_never_r in H ].
Qed.

Lemma alt_matches (a b : regex) (s : jsstring) :
  matches (alt a b) s <-> matches a s \/ matches b s.
Proof.
  assert (Hgen : matches (Alt a b) s <-> matches a s \/ matches b s).
  { split; intros H.
    - inversion H; subst; tauto.
    - destruct H; [now apply MAltL | now apply MAltR]. }
  unfold alt.
  destruct a; try (destruct b; try exact Hgen;
                   split; [tauto | intros [H|H]; [exact H | now apply matches_never in H]]).
  split; [tauto | intros [H|H]; [now apply matches_never in H | exact H]].
Qed.

Lemma accepts_matches (b : bool) (s : jsstring) :
  matches (accepts b) s <-> b = true /\ s = [].
Proof.
  destruct b; simpl; split.
  - intros H. inversion H. now split.
  - intros [_ ->]. constructor.
  - intros H. now apply matches_never in H.
  - intros [H _]. discriminate.
Qed.

Lemma seq_inv (r1 r2 : regex) (s : jsstring) :
  matches (Seq r1 r2) s ->
  exists s1 s2, s = s1 ++ s2 /\ matches r1 s1 /\ matches r2 s2.
Proof. intros H. inversion H; subst. eauto. Qed.

Lemma star_cons (r : regex) (x : N) (s : jsstring) :
  matches (Star r) (x :: s) ->
  exists s1 s2, s = s1 ++ s2 /\ matches r (x :: s1) /\ matches (Star r) s2.
Proof.
  intros H. remember (Star r) as r' eqn:Er. remember (x :: s) as s' eqn:Es.
  revert s Es.
  induction H as [ | | | | | | | | | |r0 s1 s2 H1 _ H2 IH2];
    intros t Et; try discriminate.
  injection Er as ->.
  destruct s1 as [|y s1]; simpl in Et.
  - now apply IH2.
  - injection Et as Ey Et'. subst. now exists s1, s2.
Qed.

Lemma deriv_matches (r : regex) :
  forall x s, matches (deriv x r) s <-> matches r (x :: s).
Proof.
  induction r as [ | |c|cs| | | |r1 IH1 r2 IH2|r1 IH1 r2 IH2|r1 IH1];
    intros x s; simpl.
  - split; intros H; inversion H.
  - split; intros H; inversion H.
  - rewrite accepts_matches. split.
    + intros [H ->]. now constructor.
    + intros H. inversion H; subst. now split.
  - rewrite accepts_matches. split.
    + intros [H ->]. now constructor.
    + intros H. inversion H; subst. now split.
  - rewrite accepts_matches. split.
    + intros [H ->]. now constructor.
    + intros H. inversion H; subst. now split.
  - rewrite accepts_matches. split.
    + intros [H ->]. now constructor.
    + intros H. inversion H; subst. now split.
  - rewrite accepts_matches, negb_true_iff. split.
    + intros [H ->]. now constructor.
    + intros H. inversion H; subst. now split.
  - assert (Hs : matches (seq (deriv x r1) r2) s
                 <-> exists s1 s2, s = s1 ++ s2 /\ matches r1 (x :: s1)
                                   /\ matches r2 s2).
    { rewrite seq_matches. split.
      - intros H. destruct (seq_inv _ _ _ H) as (s1 & s2 & -> & H1 & H2).
        exists s1, s2.
        split; [reflexivity|]. split; [now apply IH1 | assumption].
      - intros (s1 & s2 & -> & H1 & H2). constructor; [now apply IH1 | assumption]. }
    destruct (nullable r1) eqn:En.
    + rewrite alt_matches, Hs, IH2. split.
      * intros [(s1 & s2 & -> & H1 & H2) | H].
        -- change (x :: s1 ++ s2) with ((x :: s1) ++ s2). now constructor.
        -- change (x :: s) with ([] ++ x :: s).
           constructor; [now apply nullable_matches | assumption].
      * intros H. destruct (seq_inv _ _ _ H) as (s1 & s2 & E & H1 & H2).
        destruct s1 as [|y s1]; simpl in E.
        -- right. now subst.
        -- injection E as Ey Et. subst. left. now exists s1, s2.
    + rewrite Hs. split.
      * intros (s1 & s2 & -> & H1 & H2).
        change (x :: s1 ++ s2) with ((x :: s1) ++ s2). now constructor.
      * intros H. destruct (seq_inv _ _ _ H) as (s1 & s2 & E & H1 & H2).
        destruct s1 as [|y s1]; simpl in E.
        -- apply nullable_matches in H1. congruence.
        -- injection E as Ey Et. subst. now exists s1, s2.
  - rewrite alt_matches, IH1, IH2. split.
    + intros [H|H]; [now apply MAltL | now apply MAltR].
    + intros H. inversion H; subst; tauto.
  - rewrite seq_matches. split.
    + intros H. destruct (seq_inv _ _ _ H) as (s1 & s2 & -> & H1 & H2).
      change (x :: s1 ++ s2) with ((x :: s1) ++ s2).
      constructor; [now apply IH1 | assumption].
    + intros H. destruct (star_cons _ _ _ H) as (s1 & s2 & -> & H1 & H2).
      constructor; [now apply IH1 | assumption].
Qed.

(** [match_here] finds the matches that start at the head of the string,
    [test] those that start anywhere. *)
Lemma match_here_matches (s : jsstring) :
  forall r,
    match_here r s = true
    <-> exists s1 s2, s = s1 ++ s2 /\ matches r s1.
Proof.
  induction s as [|x s IH]; intros r; simpl.
  - rewrite orb_false_r, nullable_matches. split.
    + intros H. now exists [], [].
    + intros (s1 & s2 & E & H). symmetry in E.
      apply app_eq_nil in E. destruct E; now subst.
  - rewrite orb_true_iff, nullable_matches, IH. split.
    + intros [H | (s1 & s2 & -> & H)].
      * now exists [], (x :: s).
      * exists (x :: s1), s2. split; [reflexivity | now apply deriv_matches].
    + intros (s1 & s2 & E & H). destruct s1 as [|y s1]; simpl in E.
      * now left.
      * inversion E; subst. right. exists s1, s2.
        split; [reflexivity | now apply deriv_matches].
Qed.

Lemma test_matches (r : regex) (s : jsstring) :
  test r s = true
  <-> exists s0 s1 s2, s = s0 ++ s1 ++ s2 /\ matches r s1.
Proof.
  induction s as [|x s IH]; cbn [test].
  - rewrite orb_false_r, match_here_matches. split.
    + intros (s1 & s2 & E & H). now exists [], s1, s2.
    + intros (s0 & s1 & s2 & E & H). symmetry in E.
      apply app_eq_nil in E. destruct E as [-> E]. now exists s1, s2.
  - rewrite orb_true_iff, IH, match_here_matches. split.
    + intros [(s1 & s2 & E & H) | (s0 & s1 & s2 & -> & H)].
      * now exists [], s1, s2.
      * now exists (x :: s0), s1, s2.
    + intros (s0 & s1 & s2 & E & H). destruct s0 as [|y s0]; simpl in E.
      * left. now exists s1, s2.
      * injection E as Ey Et. subst. right. now exists s0, s1, s2.
Qed.

(* ------------------------------------------------------------------ *)
(** ** The intent classifier                                           *)
(* ------------------------------------------------------------------ *)

Lemma some_test_exists (patterns : list regex) (s : jsstring) :
  some_test patterns s = true <-> exists p, In p patterns /\ test p s = true.
Proof. unfold some_test. apply existsb_exists. Qed.

(** C8 (intent totality and priority).  [detectQueryIntent] gives every
    query one of the five intents, and which one is decided by the first
    group, in the order time, weather, currency, news, of which some
    pattern matches the lower-cased query; [search] is the intent of the
    queries that no pattern matches, the empty query among them. *)
Theorem detectQueryIntent_total_priority (query : jsstring) :
  (detectQueryIntent query = time \/ detectQueryIntent query = weather
   \/ detectQueryIntent query = currency \/ detectQueryIntent query = news
   \/ detectQueryIntent query = search)
  /\ (detectQueryIntent query = time
      <-> some_test timePatterns (toLowerCase query) = true)
  /\ (detectQueryIntent query = weather
      <-> some_test timePatterns (toLowerCase query) = false
          /\ some_test weatherPatterns (toLowerCase query) = true)
  /\ (detectQueryIntent query = currency
      <-> some_test timePatterns (toLowerCase query) = false
          /\ some_test weatherPatterns (toLowerCase query) = false
          /\ some_test currencyPatterns (toLowerCase query) = true)
  /\ (detectQueryIntent query = news
      <-> some_test timePatterns (toLowerCase query) = false
          /\ some_test weatherPatterns (toLowerCase query) = false
          /\ some_test currencyPatterns (toLowerCase query) = false
          /\ some_test newsPatterns (toLowerCase query) = true)
  /\ (detectQueryIntent query = search
      <-> some_test timePatterns (toLowerCase query) = false
          /\ some_test weatherPatterns (toLowerCase query) = false
          /\ some_test currencyPatterns (toLowerCase query) = false
          /\ some_test newsPatterns (toLowerCase query) = false)
  /\ detectQueryIntent [] = search.
Proof.
  unfold detectQueryIntent.
  destruct (some_test timePatterns (toLowerCase query));
    destruct (some_test weatherPatterns (toLowerCase query));
    destruct (some_test currencyPatterns (toLowerCase query));
    destruct (some_test newsPatterns (toLowerCase query));
    repeat split; intros; try tauto; try discriminate;
      try (intuition discriminate); try (vm_compute; reflexivity).
Qed.

Lemma detectQueryIntent_total_priority_witness :
  some_test timePatterns (toLowerCase (js "Weather in Tokyo")) = false
  /\ some_test weatherPatterns (toLowerCase (js "Weather in Tokyo")) = true
  /\ detectQueryIntent (js "Weather in Tokyo") = weather.
Proof.
  split; [vm_compute; reflexivity|].
  split; [vm_compute; reflexivity|].
  apply (proj1 (proj2 (proj2 (detectQueryIntent_total_priority
                                (js "Weather in Tokyo"))))).
  split; vm_compute; reflexivity.
Defined.

Example intent_time_before_weather :
  some_test weatherPatterns (toLowerCase (js "What time is the weather report")) = true
  /\ detectQueryIntent (js "What time is the weather report") = time.
Proof. vm_compute. split; reflexivity. Qed.

Example intent_samples :
  map detectQueryIntent
      (map js [ "Какая погода в Москве"; "курс доллара"; "100 USD";
                "latest news"; "что нового"; "который час"; "hello" ]%string)
  = [weather; currency; currency; news; news; time; search].
Proof. vm_compute. reflexivity. Qed.

(* ------------------------------------------------------------------ *)
(** ** The proxy chains                                                *)
(* ------------------------------------------------------------------ *)

(** The chain of [fetch_url]: the proxies are tried in order, once each,
    up to the first that answers. *)
Lemma via_proxies_attempts
      (webClient_get : jsstring -> outcome AxiosResponse)
      (proxies : list (jsstring -> outcome jsstring)) (target : jsstring) :
  match via_proxies webClient_get proxies target with
  | (Some response, attempts) =>
    exists failed u rest,
      attempts = failed ++ [u]
      /\ built_urls proxies target = attempts ++ rest
      /\ Forall (get_fails webClient_get) failed
      /\ webClient_get u = Ok response
  | (None, attempts) =>
    attempts = built_urls proxies target
    /\ Forall (get_fails webClient_get) attempts
  end.
Proof.
  induction proxies as [|p proxies IH]; simpl.
  - split; [reflexivity | constructor].
  - unfold built_urls in *. simpl.
    destruct (p target) as [u|e]; [|exact IH].
    destruct (webClient_get u) as [response|e] eqn:Eu.
    + exists [], u, (flat_map (fun g => match g target with
                                         | Ok v => [v] | Throw _ => [] end) proxies).
      repeat split; [constructor | assumption].
    + destruct (via_proxies webClient_get proxies target) as [[response|] attempts].
      * destruct IH as (failed & v & rest & -> & Hb & Hf & Hv).
        exists (u :: failed), v, rest. simpl. rewrite Hb.
        repeat split; [constructor; [now exists e | assumption] | assumption].
      * destruct IH as [-> Hf].
        split; [reflexivity | constructor; [now exists e | assumption]].
Qed.

(** The chain of [fetchUrlContent]. *)
Lemma fetchUrlContent_from_attempts
      (extractTextFromHtml : jsstring -> jsstring -> jsstring)
      (extractTitle : jsstring -> jsstring)
      (fetch_page : jsstring -> reply jsstring)
      (proxies : list (jsstring -> outcome jsstring)) (target : jsstring) :
  match fetchUrlContent_from extractTextFromHtml extractTitle fetch_page
                             proxies target with
  | (FetchSuccess t c ttl, attempts) =>
    exists failed u rest html,
      attempts = failed ++ [u]
      /\ built_urls proxies target = attempts ++ rest
      /\ Forall (page_fails fetch_page) failed
      /\ fetch_page u = Body html
      /\ t = target /\ c = extractTextFromHtml html target /\ ttl = extractTitle html
  | (FetchFailure t _, attempts) =>
    t = target
    /\ attempts = built_urls proxies target
    /\ Forall (page_fails fetch_page) attempts
  end.
Proof.
  induction proxies as [|p proxies IH]; simpl.
  - repeat split. constructor.
  - unfold built_urls in *. simpl.
    destruct (p target) as [u|e]; [|exact IH].
    destruct (fetch_page u) as [ | |html] eqn:Eu.
    + destruct (fetchUrlContent_from _ _ _ proxies target) as [[t c ttl|t m] attempts].
      * destruct IH as (failed & v & rest & html & -> & Hb & Hf & Hv & Ht).
        exists (u :: failed), v, rest, html. simpl. rewrite Hb.
        repeat split; try tauto.
        constructor; [now left | assumption].
      * destruct IH as (-> & -> & Hf).
        repeat split. constructor; [now left | assumption].
    + destruct (fetchUrlContent_from _ _ _ proxies target) as [[t c ttl|t m] attempts].
      * destruct IH as (failed & v & rest & html & -> & Hb & Hf & Hv & Ht).
        exists (u :: failed), v, rest, html. simpl. rewrite Hb.
        repeat split; try tauto.
        constructor; [now right | assumption].
      * destruct IH as (-> & -> & Hf).
        repeat split. constructor; [now right | assumption].
    + exists [], u, (flat_map (fun g => match g target with
                                         | Ok v => [v] | Throw _ => [] end) proxies), html.
      repeat split; [constructor | assumption].
Qed.

(** C9, as the code has it.  [fetch_url] (MCP server) requests the target
    itself first and, when that fails, the proxies in their order, one
    request each, up to the first that answers; when none does, every URL
    has been requested once and the result is one error.
    [fetchUrlContent] (api.js) does the same over the proxies alone: it
    makes no direct request. *)
Theorem proxy_chain_contract
        (extractTextFromHtml : jsstring -> jsstring -> jsstring)
        (extractTitle : jsstring -> jsstring)
        (fetch_page : jsstring -> reply jsstring)
        (webClient_get : jsstring -> outcome AxiosResponse)
        (target : jsstring) :
  match fetch_url webClient_get target with
  | (UrlContent response, attempts) =>
    direct_first attempts target
    /\ exists failed u rest,
        attempts = failed ++ [u]
        /\ target :: proxy_urls target = attempts ++ rest
        /\ Forall (get_fails webClient_get) failed
        /\ webClient_get u = Ok response
  | (UrlError message, attempts) =>
    attempts = target :: proxy_urls target
    /\ Forall (get_fails webClient_get) attempts
    /\ message = js "Failed to fetch URL through all available methods"
  end
  /\
  match fetchUrlContent extractTextFromHtml extractTitle fetch_page target with
  | (FetchSuccess t c ttl, attempts) =>
    exists failed u rest html,
      attempts = failed ++ [u]
      /\ proxy_urls target = attempts ++ rest
      /\ Forall (page_fails fetch_page) failed
      /\ fetch_page u = Body html
      /\ t = target /\ c = extractTextFromHtml html target
      /\ ttl = extractTitle html
  | (FetchFailure t message, attempts) =>
    t = target
    /\ attempts = proxy_urls target
    /\ Forall (page_fails fetch_page) attempts
  end.
Proof.
  split.
  - unfold fetch_url.
    destruct (webClient_get target) as [response|e] eqn:Et.
    + split; [now exists []|].
      exists [], target, (proxy_urls target).
      repeat split; [constructor | assumption].
    + pose proof (via_proxies_attempts webClient_get corsProxies target) as H.
      destruct (via_proxies webClient_get corsProxies target)
        as [[response|] attempts].
      * destruct H as (failed & u & rest & -> & Hb & Hf & Hu).
        split; [now eexists|].
        exists (target :: failed), u, rest. unfold proxy_urls. rewrite Hb.
        repeat split; [constructor; [now exists e | assumption] | assumption].
      * destruct H as [-> Hf].
        repeat split. constructor; [now exists e | assumption].
  - unfold fetchUrlContent.
    pose proof (fetchUrlContent_from_attempts extractTextFromHtml extractTitle
                  fetch_page corsProxies target) as H.
    destruct (fetchUrlContent_from _ _ _ corsProxies target)
      as [[t c ttl|t m] attempts]; exact H.
Qed.

(** [fetchUrlContent] never requests the target itself: with a page that
    answers directly and proxies that are down, it requests the three
    proxied URLs and reports a failure. *)
Lemma fetchUrlContent_skips_direct :
  only_direct example_url = Body (js "<title>Example</title>")
  /\ fetchUrlContent (fun html _ => html) (fun html => html)
                     only_direct example_url
     = (FetchFailure example_url
          (js "Failed to fetch URL content through available proxies"),
        proxy_urls example_url)
  /\ ~ direct_first
       (snd (fetchUrlContent (fun html _ => html) (fun html => html)
                             only_direct example_url))
       example_url.
Proof.
  split; [vm_compute; reflexivity|].
  split; [vm_compute; reflexivity|].
  intros [rest H]. vm_compute in H. discriminate H.
Qed.

(** Scenario E on [fetch_url]: the direct request and the first two
    proxies fail, the third proxy answers. *)
Example fetch_url_third_proxy :
  fetch_url third_proxy_only example_url
  = (UrlContent {| content_type := js "text/plain";
                   data := js "through codetabs" |},
     example_url :: proxy_urls example_url).
Proof. vm_compute. reflexivity. Qed.

Example proxy_urls_example :
  proxy_urls example_url
  = map js [ "https://api.allorigins.win/raw?url=https%3A%2F%2Fexample.com%2F";
             "https://corsproxy.io/?https%3A%2F%2Fexample.com%2F";
             "https://api.codetabs.com/v1/proxy?quest=https%3A%2F%2Fexample.com%2F"
           ]%string.
Proof. vm_compute. reflexivity. Qed.

(* ------------------------------------------------------------------ *)
(** ** The accumulator: what a source can do to the list               *)
(* ------------------------------------------------------------------ *)

Lemma fresh_run_nil (same : SearchResult -> SearchResult -> bool)
      (st : list SearchResult) : fresh_run same st [].
Proof. intros a1 r a2 H. now destruct a1. Qed.

Lemma fresh_run_one (same : SearchResult -> SearchResult -> bool)
      (st : list SearchResult) (r : SearchResult) :
  (forall x, In x st -> same x r = false) -> fresh_run same st [r].
Proof.
  intros H a1 r' a2 E x Hx.
  destruct a1 as [|y a1]; simpl in E.
  - inversion E; subst. rewrite app_nil_r in Hx. now apply H.
  - inversion E. now destruct a1.
Qed.

Lemma fresh_run_app (same : SearchResult -> SearchResult -> bool)
      (st a b : list SearchResult) :
  fresh_run same st a -> fresh_run same (st ++ a) b ->
  fresh_run same st (a ++ b).
Proof.
  intros Ha Hb a1 r a2 E x Hx.
  destruct (app_eq_app _ _ _ _ E) as [l [[E1 E2]|[E1 E2]]].
  - destruct l as [|y l]; simpl in E2.
    + rewrite app_nil_r in E1. subst a.
      apply (Hb [] r a2); [now rewrite <- E2 | now rewrite app_nil_r].
    + inversion E2; subst y a2.
      apply (Ha a1 r l); assumption.
  - subst a1. apply (Hb l r a2 E2). now rewrite <- app_assoc.
Qed.

Lemma fresh_run_unchecked (st added : list SearchResult) :
  fresh_run unchecked st added.
Proof. intros a1 r a2 _ x _. reflexivity. Qed.

Section Accumulator.

Variable same : SearchResult -> SearchResult -> bool.

Lemma adds_ret {A} (a : A) : adds same (ret a).
Proof. intros st. exists []. split; [now rewrite app_nil_r | apply fresh_run_nil]. Qed.

Lemma adds_lift {A} (o : outcome A) : adds same (lift o).
Proof. intros st. exists []. split; [now rewrite app_nil_r | apply fresh_run_nil]. Qed.

Lemma adds_get_all : adds same get_all.
Proof. intros st. exists []. split; [now rewrite app_nil_r | apply fresh_run_nil]. Qed.

Lemma adds_bind {A B} (m : M A) (k : A -> M B) :
  adds same m -> (forall a, adds same (k a)) -> adds same (bind m k).
Proof.
  intros Hm Hk st. unfold bind.
  destruct (Hm st) as (a1 & E1 & F1).
  destruct (m st) as [[a|e] st']; simpl in E1; subst st'.
  - destruct (Hk a (st ++ a1)) as (a2 & E2 & F2).
    exists (a1 ++ a2). rewrite E2, app_assoc.
    split; [reflexivity | now apply fresh_run_app].
  - exists a1. now split.
Qed.

Lemma adds_when (b : bool) (m : M unit) : adds same m -> adds same (when b m).
Proof. destruct b; [trivial | intros _; apply adds_ret]. Qed.

Lemma adds_try_catch (m : M unit) : adds same m -> adds same (try_catch m).
Proof. intros Hm st. exact (Hm st). Qed.

Lemma adds_for_of {A} (l : list A) (body : A -> M unit) :
  (forall a, adds same (body a)) -> adds same (for_of l body).
Proof.
  intros Hb. induction l as [|a l IH]; simpl.
  - apply adds_ret.
  - apply adds_bind; [apply Hb | intros _; exact IH].
Qed.

Lemma adds_on_body {A} (r : reply A) (k : A -> M unit) :
  (forall a, adds same (k a)) -> adds same (on_body r k).
Proof.
  intros Hk. destruct r; simpl; [apply adds_lift | apply adds_ret | apply Hk].
Qed.

(** The guarded [push]: what is appended is new for the test it passed. *)
Lemma adds_push_unless (key : SearchResult -> bool) (item : outcome SearchResult) :
  (forall r, item = Ok r -> forall x, same x r = key x) ->
  adds same (push_unless key item).
Proof.
  intros Hkey st. unfold push_unless, bind, get_all, when, lift, push, ret.
  destruct (existsb key st) eqn:E; simpl.
  - exists []. split; [now rewrite app_nil_r | apply fresh_run_nil].
  - destruct item as [r|e]; simpl.
    + exists [r]. split; [reflexivity|].
      apply fresh_run_one. intros x Hx. rewrite (Hkey r eq_refl).
      destruct (key x) eqn:Ex; [|reflexivity].
      assert (existsb key st = true) by (apply existsb_exists; eauto).
      congruence.
    + exists []. split; [now rewrite app_nil_r | apply fresh_run_nil].
Qed.

End Accumulator.

Lemma adds_push (r : SearchResult) : adds unchecked (push r).
Proof. intros st. exists [r]. split; [reflexivity | apply fresh_run_unchecked]. Qed.

Lemma adds_weaken {A} (same : SearchResult -> SearchResult -> bool) (m : M A) :
  adds same m -> adds unchecked m.
Proof.
  intros H st. destruct (H st) as (added & E & _).
  exists added. split; [assumption | apply fresh_run_unchecked].
Qed.

(** On a hit the list is left as it is: the earlier result stays, the
    later one is dropped. *)
Lemma push_unless_hit (key : SearchResult -> bool) (item : outcome SearchResult)
      (st : list SearchResult) :
  existsb key st = true -> push_unless key item st = (Ok tt, st).
Proof.
  intros H. unfold push_unless, bind, get_all, when. now rewrite H.
Qed.

Lemma push_unless_miss (key : SearchResult -> bool) (r : SearchResult)
      (st : list SearchResult) :
  existsb key st = false -> push_unless key (Ok r) st = (Ok tt, st ++ [r]).
Proof.
  intros H. unfold push_unless, bind, get_all, when. now rewrite H.
Qed.

Lemma adds_grows {A} (same : SearchResult -> SearchResult -> bool) (m : M A) :
  adds same m -> forall st, length st <= length (snd (m st)).
Proof.
  intros H st. destruct (H st) as (added & -> & _).
  rewrite length_app. lia.
Qed.

Lemma total_try_catch (m : M unit) : total (try_catch m).
Proof. intros st. reflexivity. Qed.

Lemma total_when (b : bool) (m : M unit) : total m -> total (when b m).
Proof. destruct b; [trivial | intros _ st; reflexivity]. Qed.

(* ------------------------------------------------------------------ *)
(** ** [performWebSearch]: the sources one by one                      *)
(* ------------------------------------------------------------------ *)

Section SourcesProofs.

Variable parseSearchResults : jsstring -> outcome (list SearchResult).
Variable net : Net.

(** Scraped results are appended when their url is new. *)
Lemma source_html_adds (query : jsstring) :
  adds by_url (source_html parseSearchResults net query).
Proof.
  unfold source_html. apply adds_try_catch, adds_bind; [apply adds_lift|].
  intros searchUrl. destruct (fetchWithProxies net searchUrl); [|apply adds_ret].
  apply adds_when, adds_bind; [apply adds_lift|].
  intros scraped. apply adds_for_of. intros result.
  apply adds_push_unless. intros r E x. now inversion E.
Qed.

(** The instant answers go to the front of the list; the related topics
    are appended when their snippet is new. *)
Lemma quick_answers_run (d : DdgAnswer) (st : list SearchResult) :
  exists front, quick_answers d st = (Ok tt, front ++ st).
Proof.
  unfold quick_answers, bind, when, unshift, ret.
  destruct (negb (is_empty (Abstract d)) && (30 <? length (Abstract d)));
    destruct (negb (is_empty (Answer d)));
    [eexists [_; _] | eexists [_] | eexists [_] | exists []]; reflexivity.
Qed.

Lemma related_topics_adds (d : DdgAnswer) : adds by_snippet (related_topics d).
Proof.
  unfold related_topics. apply adds_for_of. intros topic.
  apply adds_when, adds_push_unless. intros r E x.
  destruct (if is_empty (FirstURL topic) then _ else _); now inversion E.
Qed.

Lemma source_instant_shape (query : jsstring) (st : list SearchResult) :
  exists front topics,
    snd (source_instant net query st) = front ++ st ++ topics
    /\ fresh_run by_snippet (front ++ st) topics.
Proof.
  unfold source_instant, try_catch. cbn [snd].
  unfold bind at 1, lift at 1.
  destruct (encodeURIComponent query) as [q|e];
    [|exists [], []; split; [now rewrite app_nil_r | apply fresh_run_nil]].
  destruct (ddg_api net) as [ | |d]; unfold on_body;
    try (exists [], []; split; [now rewrite app_nil_r | apply fresh_run_nil]).
  unfold bind.
  destruct (quick_answers_run d st) as (front & ->).
  destruct (related_topics_adds d (front ++ st)) as (topics & E & F).
  exists front, topics. split; [|assumption].
  now rewrite <- app_assoc in E.
Qed.

Lemma source_wiki_adds (query : jsstring) (answer : reply (list WikiHit))
      (base : string) (label : jsstring) :
  adds by_title (source_wiki query answer base label).
Proof.
  unfold source_wiki. apply adds_try_catch, adds_bind; [apply adds_lift|].
  intros _. apply adds_on_body. intros hits. apply adds_for_of. intros hit.
  apply adds_when, adds_push_unless. intros r E x.
  destruct (with_encoded _ _); now inversion E.
Qed.

Lemma source_hn_adds (query : jsstring) : adds by_title (source_hn net query).
Proof.
  unfold source_hn. apply adds_try_catch, adds_bind; [apply adds_lift|].
  intros _. apply adds_on_body. intros hits. apply adds_for_of. intros hit.
  apply adds_when, adds_push_unless. intros r E x. now inversion E.
Qed.

Lemma source_so_adds (query : jsstring) : adds by_url (source_so net query).
Proof.
  unfold source_so. apply adds_try_catch, adds_bind; [apply adds_lift|].
  intros _. apply adds_on_body. intros items. apply adds_for_of. intros item.
  apply adds_when, adds_push_unless. intros r E x. now inversion E.
Qed.

Lemma source_reddit_adds (query : jsstring) :
  adds by_url (source_reddit net query).
Proof.
  unfold source_reddit. apply adds_try_catch, adds_bind; [apply adds_lift|].
  intros _. apply adds_on_body. intros posts. apply adds_for_of. intros post.
  destruct (post_data post) as [d|]; [|apply adds_lift].
  apply adds_when, adds_push_unless. intros r E x. now inversion E.
Qed.

(** No source removes a result. *)
Lemma sources_grow (query : jsstring) :
  Forall (fun m => forall st, length st <= length (snd (m st)))
         (sources parseSearchResults net query).
Proof.
  unfold sources. repeat constructor.
  - apply (adds_grows _ _ (source_html_adds query)).
  - intros st. destruct (source_instant_shape query st) as (f & t & -> & _).
    rewrite !length_app. lia.
  - apply (adds_grows _ _ (source_wiki_adds _ _ _ _)).
  - apply (adds_grows by_title), adds_when, source_wiki_adds.
  - apply (adds_grows _ _ (source_hn_adds query)).
  - apply (adds_grows by_url), adds_when, source_so_adds.
  - apply (adds_grows _ _ (source_reddit_adds query)).
Qed.

(** Every source catches what it throws. *)
Lemma sources_total (query : jsstring) :
  Forall total (sources parseSearchResults net query).
Proof.
  unfold sources.
  repeat constructor; try apply total_when; apply total_try_catch.
Qed.

End SourcesProofs.

(* ------------------------------------------------------------------ *)
(** ** [performWebSearch]: never throws, and its success flag          *)
(* ------------------------------------------------------------------ *)

Lemma for_of_total (ms : list (M unit)) :
  Forall total ms ->
  forall st,
    for_of ms (fun m => m) st
    = (Ok tt, fold_left (fun st' m => snd (m st')) ms st).
Proof.
  induction 1 as [|m ms Hm _ IH]; intros st; simpl; [reflexivity|].
  unfold bind. specialize (Hm st).
  destruct (m st) as [[[]|e] st']; simpl in *; [apply IH | discriminate].
Qed.

Lemma contributions_sum (ms : list (M unit)) :
  Forall (fun m => forall st, length st <= length (snd (m st))) ms ->
  forall st,
    length (fold_left (fun st' m => snd (m st')) ms st)
    = length st + list_sum (contributions ms st).
Proof.
  induction 1 as [|m ms Hm _ IH]; intros st; simpl; [lia|].
  rewrite IH. specialize (Hm st). lia.
Qed.

Lemma exists_positive (l : list nat) :
  Exists (fun n => 0 < n) l <-> 0 < list_sum l.
Proof.
  induction l as [|n l IH]; simpl.
  - split; [inversion 1 | lia].
  - rewrite Exists_cons, IH. lia.
Qed.

Section SilentSources.

Variable parseSearchResults : jsstring -> outcome (list SearchResult).
Variable net : Net.

Lemma fetchWithProxies_from_some
      (proxies : list (jsstring -> outcome jsstring)) (u html : jsstring) :
  fetchWithProxies_from net proxies u = Some html ->
  exists v, fetch_text net v = Body html.
Proof.
  induction proxies as [|p proxies IH]; simpl; [discriminate|].
  destruct (p u) as [v|e]; [|exact IH].
  destruct (fetch_text net v) as [ | |h] eqn:E; try exact IH.
  intros H. inversion H; subst. now exists v.
Qed.

Lemma source_html_silent (query : jsstring) (st : list SearchResult) :
  page_brings_nothing parseSearchResults (fetch_text net) ->
  snd (source_html parseSearchResults net query st) = st.
Proof.
  intros Hs. unfold source_html, try_catch, bind, lift. cbn [snd].
  destruct (with_encoded _ query) as [u|e]; [|reflexivity].
  destruct (fetchWithProxies net u) as [html|] eqn:E; [|reflexivity].
  destruct (fetchWithProxies_from_some _ _ _ E) as [v Hv].
  destruct (Hs v html Hv) as [-> | [Hp | [e Hp]]]; [reflexivity| |].
  - unfold when. destruct (negb (is_empty html)); [|reflexivity].
    now rewrite Hp.
  - unfold when. destruct (negb (is_empty html)); [|reflexivity].
    now rewrite Hp.
Qed.

Lemma source_instant_silent (query : jsstring) (st : list SearchResult) :
  instant_brings_nothing (ddg_api net) ->
  snd (source_instant net query st) = st.
Proof.
  intros Hs. unfold source_instant, try_catch, bind, lift. cbn [snd].
  destruct (encodeURIComponent query) as [q|e]; [|reflexivity].
  destruct Hs as [-> | [-> | (d & -> & Ha & Hb & Ht)]]; try reflexivity.
  unfold on_body, quick_answers, related_topics.
  rewrite Ha, Hb, Ht. reflexivity.
Qed.

Lemma source_wiki_silent (query : jsstring) (answer : reply (list WikiHit))
      (base : string) (label : jsstring) (st : list SearchResult) :
  brings_nothing answer ->
  snd (source_wiki query answer base label st) = st.
Proof.
  intros Hs. unfold source_wiki, try_catch, bind, lift. cbn [snd].
  destruct (encodeURIComponent query) as [q|e]; [|reflexivity].
  destruct Hs as [-> | [-> | ->]]; reflexivity.
Qed.

Lemma source_hn_silent (query : jsstring) (st : list SearchResult) :
  brings_nothing (hn_algolia net) -> snd (source_hn net query st) = st.
Proof.
  intros Hs. unfold source_hn, try_catch, bind, lift. cbn [snd].
  destruct (encodeURIComponent query) as [q|e]; [|reflexivity].
  destruct Hs as [-> | [-> | ->]]; reflexivity.
Qed.

Lemma source_so_silent (query : jsstring) (st : list SearchResult) :
  brings_nothing (stackexchange net) -> snd (source_so net query st) = st.
Proof.
  intros Hs. unfold source_so, try_catch, bind, lift. cbn [snd].
  destruct (encodeURIComponent query) as [q|e]; [|reflexivity].
  destruct Hs as [-> | [-> | ->]]; reflexivity.
Qed.

Lemma source_reddit_silent (query : jsstring) (st : list SearchResult) :
  brings_nothing (reddit net) -> snd (source_reddit net query st) = st.
Proof.
  intros Hs. unfold source_reddit, try_catch, bind, lift. cbn [snd].
  destruct (encodeURIComponent query) as [q|e]; [|reflexivity].
  destruct Hs as [-> | [-> | ->]]; reflexivity.
Qed.

Lemma when_silent (b : bool) (m : M unit) (st : list SearchResult) :
  snd (m st) = st -> snd (when b m st) = st.
Proof. now destruct b. Qed.

Lemma sources_silent (query : jsstring) :
  all_sources_silent parseSearchResults net ->
  fold_left (fun st' m => snd (m st'))
            (sources parseSearchResults net query) [] = [].
Proof.
  intros (H1 & H2 & H3 & H4 & H5 & H6 & H7). unfold sources. cbn [fold_left].
  rewrite (source_html_silent query [] H1).
  rewrite (source_instant_silent query [] H2).
  rewrite (source_wiki_silent query _ _ _ [] H3).
  rewrite (when_silent _ _ [] (source_wiki_silent query _ _ _ [] H4)).
  rewrite (source_hn_silent query [] H5).
  rewrite (when_silent _ _ [] (source_so_silent query [] H6)).
  apply (source_reddit_silent query [] H7).
Qed.

End SilentSources.

(** C6.  [performWebSearch] always returns its result object: what a
    source throws is caught in that source.  Its [success] flag is [true]
    exactly when some source, in the run, left at least one result in the
    list, and the results are empty when it is [false]; when every source
    fails or brings nothing, the result is [{success: false, results: []}]. *)
Theorem aggregator_never_throws
        (parseSearchResults : jsstring -> outcome (list SearchResult))
        (net : Net) (query : jsstring) :
  exists out,
    performWebSearch parseSearchResults net query = Ok out
    /\ (success out = true
        <-> Exists (fun n => 0 < n)
                   (contributions (sources parseSearchResults net query) []))
    /\ (success out = false -> results out = [])
    /\ (all_sources_silent parseSearchResults net ->
        out = search_failed).
Proof.
  unfold performWebSearch, gather.
  rewrite (for_of_total _ (sources_total parseSearchResults net query) []).
  pose proof (contributions_sum _ (sources_grow parseSearchResults net query) [])
    as Hlen.
  set (all := fold_left _ _ _) in *.
  change (length all
          = list_sum (contributions (sources parseSearchResults net query) []))
    in Hlen.
  destruct (Nat.ltb_spec 0 (length all)) as [Hpos|Hzero]; eexists;
    (split; [reflexivity|]); cbn [success results];
      rewrite exists_positive, <- Hlen.
  - split; [tauto|]. split; [discriminate|].
    intros Hs. unfold all in Hpos.
    rewrite (sources_silent parseSearchResults net query Hs) in Hpos.
    simpl in Hpos. lia.
  - split; [split; [discriminate | lia]|]. split; reflexivity.
Qed.

Lemma aggregator_never_throws_witness :
  all_sources_silent no_scraper dead_net
  /\ performWebSearch no_scraper dead_net (js "rust")
     = Ok search_failed.
Proof.
  assert (Hs : all_sources_silent no_scraper dead_net).
  { unfold all_sources_silent, brings_nothing, instant_brings_nothing.
    simpl. repeat split; try (now left). }
  split; [exact Hs|].
  destruct (aggregator_never_throws no_scraper dead_net (js "rust"))
    as (out & E & _ & _ & H).
  rewrite E. f_equal. exact (H Hs).
Defined.

Example every_source_answers :
  exists out,
    performWebSearch no_scraper busy_net (js "rust") = Ok out
    /\ success out = true
    /\ contributions (sources no_scraper busy_net (js "rust")) []
       = [0; 5; 3; 0; 5; 0; 3].
Proof. eexists. vm_compute. repeat split. Qed.

(* ------------------------------------------------------------------ *)
(** ** [web_search]: what the handler collects                         *)
(* ------------------------------------------------------------------ *)

Lemma total_bind (m : M unit) (k : unit -> M unit) (st : list SearchResult) :
  total m -> bind m k st = k tt (snd (m st)).
Proof.
  intros H. unfold bind. specialize (H st).
  destruct (m st) as [[[]|e] st']; simpl in *; [reflexivity | discriminate].
Qed.

Section WebSearchProofs.

Variable net : McpNet.

(** A scraped result is appended when neither its url nor its snippet is
    that of a result already in the list. *)
Lemma each_result_adds (max_results : Q) (elems : list ResultElement) :
  adds by_url_or_snippet (each_result max_results elems).
Proof.
  induction elems as [|elem elems IH]; simpl; [apply adds_ret|].
  apply adds_bind; [apply adds_get_all|]. intros all.
  destruct (reached all max_results); [apply adds_ret|].
  apply adds_bind; [|intros _; exact IH].
  apply adds_when, adds_push_unless. intros r E x. now inversion E.
Qed.

Lemma scrape_with_adds (query : jsstring) (max_results : Q)
      (proxies : list (jsstring -> outcome jsstring)) :
  adds by_url_or_snippet (scrape_with net query max_results proxies).
Proof.
  induction proxies as [|p proxies IH]; simpl; [apply adds_ret|].
  apply adds_bind.
  - apply adds_try_catch.
    repeat (apply adds_bind; [apply adds_lift | intros ?]).
    apply each_result_adds.
  - intros _. apply adds_bind; [apply adds_get_all|]. intros all.
    destruct (reached all max_results); [apply adds_ret | exact IH].
Qed.

Lemma mcp_scrape_adds (query : jsstring) (max_results : Q) :
  adds by_url_or_snippet (mcp_scrape net query max_results).
Proof.
  unfold mcp_scrape. apply adds_bind; [apply adds_get_all|]. intros all.
  apply adds_when, scrape_with_adds.
Qed.

Lemma scrape_with_total (query : jsstring) (max_results : Q)
      (proxies : list (jsstring -> outcome jsstring)) :
  total (scrape_with net query max_results proxies).
Proof.
  induction proxies as [|p proxies IH]; intros st; simpl; [reflexivity|].
  rewrite total_bind by apply total_try_catch. cbv beta.
  unfold bind, get_all.
  destruct (reached _ max_results); [reflexivity | apply IH].
Qed.

Lemma mcp_scrape_total (query : jsstring) (max_results : Q) :
  total (mcp_scrape net query max_results).
Proof.
  intros st. unfold mcp_scrape, bind, get_all.
  apply total_when, scrape_with_total.
Qed.

Lemma each_hit_adds (max_results : Q) (hits : list HnHit) :
  adds unchecked (each_hit max_results hits).
Proof.
  induction hits as [|hit hits IH]; simpl; [apply adds_ret|].
  apply adds_bind; [apply adds_get_all|]. intros all.
  destruct (reached all max_results); [apply adds_ret|].
  apply adds_bind; [apply adds_push | intros _; exact IH].
Qed.

Lemma mcp_hacker_news_adds (query : jsstring) (max_results : Q) :
  adds unchecked (mcp_hacker_news net query max_results).
Proof.
  unfold mcp_hacker_news. apply adds_when, adds_try_catch.
  repeat (apply adds_bind; [apply adds_lift | intros ?]).
  apply each_hit_adds.
Qed.

Lemma mcp_hacker_news_total (query : jsstring) (max_results : Q) :
  total (mcp_hacker_news net query max_results).
Proof. apply total_when, total_try_catch. Qed.

(** The list collected by the handler, step after step: the instant
    answers and the Wikipedia summary, then what the scraping step
    appends, then what the Hacker News step appends; and the handler
    never reaches its outer [catch]. *)
Lemma collect_shape (query : jsstring) (max_results : Q) :
  exists quick web news,
    snd ((mcp_instant net query ;;; mcp_wikipedia net query) []) = quick
    /\ snd (mcp_scrape net query max_results quick) = quick ++ web
    /\ snd (mcp_hacker_news net query max_results (quick ++ web))
       = quick ++ web ++ news
    /\ collect net query max_results [] = (Ok tt, quick ++ web ++ news)
    /\ fresh_run by_url_or_snippet quick web.
Proof.
  set (quick := snd (mcp_wikipedia net query (snd (mcp_instant net query [])))).
  destruct (mcp_scrape_adds query max_results quick) as (web & Ew & Fw).
  destruct (mcp_hacker_news_adds query max_results (quick ++ web))
    as (news & En & _).
  rewrite <- app_assoc in En.
  exists quick, web, news.
  split; [unfold quick; now rewrite total_bind by apply total_try_catch|].
  split; [exact Ew|]. split; [exact En|]. split; [|exact Fw].
  unfold collect.
  rewrite total_bind by apply total_try_catch. cbv beta.
  rewrite total_bind by apply total_try_catch. cbv beta.
  rewrite total_bind by apply mcp_scrape_total. cbv beta.
  fold quick. rewrite Ew.
  pose proof (mcp_hacker_news_total query max_results (quick ++ web)) as Ht.
  destruct (mcp_hacker_news net query max_results (quick ++ web)) as [o st'].
  cbn [fst snd] in Ht, En. now subst o st'.
Qed.

(** A scraped element that leads to the address, or carries the snippet,
    of a result already listed is dropped: the list stays as it is, and
    the loop goes on with the next element. *)
Lemma each_result_hit (max_results : Q) (elem : ResultElement)
      (rest : list ResultElement) (st : list SearchResult) :
  existsb (fun r => str_eqb (url r) (el_href elem)
                    || str_eqb (snippet r) (el_snippet elem)) st = true ->
  each_result max_results (elem :: rest) st
  = each_result max_results rest st.
Proof.
  intros H. cbn [each_result]. unfold bind at 1, get_all at 1.
  destruct (reached st max_results) eqn:Hr.
  - destruct rest as [|e rest]; [reflexivity|].
    cbn [each_result]. unfold bind at 1, get_all at 1. now rewrite Hr.
  - unfold bind at 1.
    destruct (negb (is_empty (el_title elem))
              && negb (is_empty (el_snippet elem))); cbn [when].
    + now rewrite (push_unless_hit _ _ st H).
    + reflexivity.
Qed.

End WebSearchProofs.

(* ------------------------------------------------------------------ *)
(** ** The cap on the number of results                                *)
(* ------------------------------------------------------------------ *)

Lemma slice0_length {A} (l : list A) (cap : Q) :
  (0 <= cap)%Q -> (inject_Z (Z.of_nat (length (slice0 l cap))) <= cap)%Q.
Proof.
  intros H0. unfold slice0, to_integer.
  assert (Hb : Qle_bool 0 cap = true) by now apply Qle_bool_iff.
  rewrite Hb.
  assert (He : (0 <= Qfloor cap)%Z).
  { change 0%Z with (Qfloor (inject_Z 0)) at 1.
    rewrite <- (Qfloor_Z 0). now apply Qfloor_resp_le. }
  destruct (Z.ltb_spec (Qfloor cap) 0) as [Hn|_]; [lia|].
  apply Qle_trans with (inject_Z (Qfloor cap)); [|apply Qfloor_le].
  rewrite <- Zle_Qle, length_firstn. lia.
Qed.

(** C4, as the code has it.  [web_search] lists at most [max_results]
    results, where [max_results] is 10 when the caller gives none and a
    value the schema has accepted, between 1 and 20, otherwise; a value
    outside [1, 20] is rejected by the schema, not clamped.
    [performWebSearch] takes no cap and returns at most 15 results. *)
Theorem result_cap :
  (forall (net : McpNet) (query : jsstring) (max_results : option Q)
          (shown : list SearchResult) (found : nat),
      web_search net query max_results = Listing shown found ->
      exists cap,
        cap = match max_results with Some m => m | None => inject_Z 10 end
        /\ (1 <= cap)%Q /\ (cap <= 20)%Q
        /\ (len_Q shown <= cap)%Q)
  /\ (forall (net : McpNet) (query : jsstring) (m : Q),
         (m < 1)%Q \/ (20 < m)%Q ->
         web_search net query (Some m) = InvalidArguments)
  /\ (forall (parseSearchResults : jsstring -> outcome (list SearchResult))
             (net : Net) (query : jsstring) (out : SearchOutput),
         performWebSearch parseSearchResults net query = Ok out ->
         length (results out) <= 15).
Proof.
  split; [|split].
  - intros net query max_results shown found H.
    unfold web_search in H.
    destruct (schema_accepts max_results) eqn:Hs; [|discriminate].
    eexists. split; [reflexivity|].
    set (cap := match max_results with Some m => m | None => inject_Z 10 end) in *.
    assert (Hcap : (1 <= cap)%Q /\ (cap <= 20)%Q).
    { unfold cap. destruct max_results as [m|]; simpl in Hs.
      - apply andb_true_iff in Hs. destruct Hs as [H1 H2].
        now rewrite !Qle_bool_iff in *.
      - split; discriminate. }
    split; [tauto|]. split; [tauto|].
    unfold web_search_handler in H.
    destruct (collect net query cap []) as [[[]|e] all]; [|discriminate].
    destruct (length all =? 0); [discriminate|].
    inversion H; subst. apply slice0_length.
    destruct Hcap as [H1 _]. apply Qle_trans with (1 # 1)%Q; [discriminate | exact H1].
  - intros net query m Hm. unfold web_search. simpl.
    destruct (Qle_bool 1 m) eqn:E1; destruct (Qle_bool m 20) eqn:E2;
      try reflexivity.
    apply Qle_bool_iff in E1, E2.
    destruct Hm as [Hm|Hm]; [apply Qlt_not_le in Hm | apply Qlt_not_le in Hm];
      tauto.
  - intros parse net query out H. unfold performWebSearch in H.
    destruct (gather parse net query []) as [[[]|e] all]; [|discriminate].
    assert (Hr : results out = firstn 15 all \/ results out = []).
    { destruct (0 <? length all); injection H as <-; [left | right]; reflexivity. }
    destruct Hr as [-> | ->]; [rewrite length_firstn | simpl]; lia.
Qed.

Lemma result_cap_witness :
  (exists shown found,
      web_search same_page_mcp (js "rust") None = Listing shown found
      /\ (len_Q shown <= inject_Z 10)%Q)
  /\ ((20 < 25 # 1)%Q
      /\ web_search same_page_mcp (js "rust") (Some (25 # 1)%Q) = InvalidArguments)
  /\ exists out,
      performWebSearch no_scraper busy_net (js "rust") = Ok out
      /\ length (results out) <= 15.
Proof.
  destruct result_cap as (H1 & H2 & H3).
  split; [|split].
  - destruct (web_search same_page_mcp (js "rust") None) as [ | |shown found|e] eqn:E;
      try (vm_compute in E; discriminate E).
    exists shown, found. split; [reflexivity|].
    destruct (H1 same_page_mcp (js "rust") None shown found E)
      as (cap & -> & _ & _ & Hc).
    exact Hc.
  - split; [reflexivity|]. apply H2. right. reflexivity.
  - destruct (performWebSearch no_scraper busy_net (js "rust")) as [out|e] eqn:E;
      [|vm_compute in E; discriminate E].
    exists out. split; [reflexivity|].
    exact (H3 no_scraper busy_net (js "rust") out E).
Defined.

(** [performWebSearch], which is given no cap, returns fifteen results when
    its sources bring sixteen; and [web_search] answers a [max_results] of
    25 with an argument error, where it lists results for 20. *)
Lemma cap_neither_ten_nor_clamped :
  (exists out,
      performWebSearch no_scraper busy_net (js "rust") = Ok out
      /\ length (results out) = 15
      /\ ~ length (results out) <= 10)
  /\ web_search same_page_mcp (js "rust") (Some (25 # 1)%Q) = InvalidArguments
  /\ exists shown,
      web_search same_page_mcp (js "rust") (Some (20 # 1)%Q) = Listing shown 2.
Proof.
  split; [|split].
  - eexists. split; [vm_compute; reflexivity|].
    split; [vm_compute; reflexivity|]. vm_compute. lia.
  - vm_compute. reflexivity.
  - eexists. vm_compute. reflexivity.
Qed.

(* ------------------------------------------------------------------ *)
(** ** Duplicates                                                      *)
(* ------------------------------------------------------------------ *)

(** The instant answers go to the front of the list; the related topics
    are appended when their snippet is new. *)
Lemma source_instant_parts (net : Net) (query : jsstring)
      (st : list SearchResult) :
  exists topics,
    snd (source_instant net query st) = instant_front net query ++ st ++ topics
    /\ fresh_run by_snippet (instant_front net query ++ st) topics.
Proof.
  unfold source_instant, try_catch, instant_front. cbn [snd].
  unfold bind at 1, lift at 1.
  destruct (encodeURIComponent query) as [q|e];
    [|exists []; split; [now rewrite app_nil_r | apply fresh_run_nil]].
  destruct (ddg_api net) as [ | |d]; unfold on_body;
    try (exists []; split; [now rewrite app_nil_r | apply fresh_run_nil]).
  unfold bind.
  assert (Hq : quick_answers d st
               = (Ok tt,
                  ((if is_empty (Answer d) then [] else [direct_answer d])
                     ++ (if 30 <? length (Abstract d) then [abstract_answer d]
                         else [])) ++ st)).
  { unfold quick_answers, bind, when, unshift, ret.
    destruct (Abstract d) as [|c a] eqn:Ea.
    - cbn. destruct (is_empty (Answer d)); reflexivity.
    - cbn [is_empty negb andb].
      unfold abstract_answer, direct_answer. rewrite Ea.
      destruct (30 <? length (c :: a)); destruct (is_empty (Answer d));
        reflexivity. }
  rewrite Hq.
  destruct (related_topics_adds d
              (((if is_empty (Answer d) then [] else [direct_answer d])
                  ++ (if 30 <? length (Abstract d) then [abstract_answer d]
                      else [])) ++ st)) as (topics & E & F).
  exists topics. split; [|exact F].
  now rewrite E, <- app_assoc.
Qed.

(** The whole list of [performWebSearch], source after source: what each
    source leaves in the list that the sources before it have built. *)
Lemma gather_shape
      (parseSearchResults : jsstring -> outcome (list SearchResult))
      (net : Net) (query : jsstring) :
  exists scraped topics wiki ruwiki hn so reddit_posts,
    snd (source_html parseSearchResults net query []) = scraped
    /\ snd (source_instant net query scraped)
       = instant_front net query ++ scraped ++ topics
    /\ snd (source_wiki query (wikipedia net) "https://en.wikipedia.org/wiki/"
                        (js "Wikipedia")
                        (instant_front net query ++ scraped ++ topics))
       = instant_front net query ++ scraped ++ topics ++ wiki
    /\ snd (when (hasRussian query)
                 (source_wiki query (ru_wikipedia net)
                              "https://ru.wikipedia.org/wiki/" (js "Википедия"))
                 (instant_front net query ++ scraped ++ topics ++ wiki))
       = instant_front net query ++ scraped ++ topics ++ wiki ++ ruwiki
    /\ snd (source_hn net query
                      (instant_front net query ++ scraped ++ topics ++ wiki
                                     ++ ruwiki))
       = instant_front net query ++ scraped ++ topics ++ wiki ++ ruwiki ++ hn
    /\ snd (when (isProgrammingQuery query) (source_so net query)
                 (instant_front net query ++ scraped ++ topics ++ wiki
                                ++ ruwiki ++ hn))
       = instant_front net query ++ scraped ++ topics ++ wiki ++ ruwiki
                       ++ hn ++ so
    /\ snd (source_reddit net query
                          (instant_front net query ++ scraped ++ topics ++ wiki
                                         ++ ruwiki ++ hn ++ so))
       = instant_front net query ++ scraped ++ topics ++ wiki ++ ruwiki
                       ++ hn ++ so ++ reddit_posts
    /\ gather parseSearchResults net query []
       = (Ok tt,
          instant_front net query ++ scraped ++ topics ++ wiki ++ ruwiki
                        ++ hn ++ so ++ reddit_posts)
    /\ fresh_run by_url [] scraped
    /\ fresh_run by_snippet (instant_front net query ++ scraped) topics
    /\ fresh_run by_title (instant_front net query ++ scraped ++ topics) wiki
    /\ fresh_run by_title
                 (instant_front net query ++ scraped ++ topics ++ wiki) ruwiki
    /\ fresh_run by_title
                 (instant_front net query ++ scraped ++ topics ++ wiki
                                ++ ruwiki) hn
    /\ fresh_run by_url
                 (instant_front net query ++ scraped ++ topics ++ wiki
                                ++ ruwiki ++ hn) so
    /\ fresh_run by_url
                 (instant_front net query ++ scraped ++ topics ++ wiki
                                ++ ruwiki ++ hn ++ so) reddit_posts.
Proof.
  set (front := instant_front net query).
  destruct (source_html_adds parseSearchResults net query [])
    as (scraped & E1 & F1).
  cbn [app] in E1.
  destruct (source_instant_parts net query scraped) as (topics & E2 & F2).
  fold front in E2, F2.
  destruct (source_wiki_adds query (wikipedia net)
              "https://en.wikipedia.org/wiki/" (js "Wikipedia")
              (front ++ scraped ++ topics)) as (wiki & E3 & F3).
  rewrite <- !app_assoc in E3.
  destruct (adds_when by_title (hasRussian query) _
              (source_wiki_adds query (ru_wikipedia net)
                 "https://ru.wikipedia.org/wiki/" (js "Википедия"))
              (front ++ scraped ++ topics ++ wiki)) as (ruwiki & E4 & F4).
  rewrite <- !app_assoc in E4.
  destruct (source_hn_adds net query
              (front ++ scraped ++ topics ++ wiki ++ ruwiki))
    as (hn & E5 & F5).
  rewrite <- !app_assoc in E5.
  destruct (adds_when by_url (isProgrammingQuery query) _
              (source_so_adds net query)
              (front ++ scraped ++ topics ++ wiki ++ ruwiki ++ hn))
    as (so & E6 & F6).
  rewrite <- !app_assoc in E6.
  destruct (source_reddit_adds net query
              (front ++ scraped ++ topics ++ wiki ++ ruwiki ++ hn ++ so))
    as (reddit_posts & E7 & F7).
  rewrite <- !app_assoc in E7.
  exists scraped, topics, wiki, ruwiki, hn, so, reddit_posts.
  repeat (split; [assumption|]).
  split; [|repeat split; assumption].
  unfold gather.
  rewrite (for_of_total _ (sources_total parseSearchResults net query) []).
  unfold sources. cbn [fold_left].
  now rewrite E1, E2, E3, E4, E5, E6, E7.
Qed.

(** C5, as the code has it.  Duplicates are looked for when a result is
    about to be appended, among the results already in the list, and the
    later one is dropped on a hit.  In [web_search] the list is what the
    instant answers and the Wikipedia summary leave, then what the
    scraping step appends, then what the Hacker News step appends; the
    test (same url or same snippet) is applied by the scraping step only:
    each scraped result differs in url and in snippet from every result
    listed before it, and a scraped element that repeats the url or the
    snippet of a listed result is dropped.  In [performWebSearch] the list
    is what the seven sources leave one after the other, the instant
    answers in front, and every source has its own test: scraped results,
    new by url among themselves; related topics, new by snippet;
    Wikipedia and Hacker News results, new by title; Stack Overflow and
    Reddit results, new by url, among all the results listed before them.
    The lists returned are prefixes of these. *)
Theorem dedup_on_append :
  (forall (net : McpNet) (query : jsstring) (max_results : Q),
      exists quick web news,
        snd ((mcp_instant net query ;;; mcp_wikipedia net query) []) = quick
        /\ snd (mcp_scrape net query max_results quick) = quick ++ web
        /\ snd (mcp_hacker_news net query max_results (quick ++ web))
           = quick ++ web ++ news
        /\ fresh_run by_url_or_snippet quick web
        /\ web_search_handler net query max_results
           = if length (quick ++ web ++ news) =? 0 then NoResults
             else Listing (slice0 (quick ++ web ++ news) max_results)
                          (length (quick ++ web ++ news)))
  /\ (forall (parseSearchResults : jsstring -> outcome (list SearchResult))
             (net : Net) (query : jsstring),
         exists scraped topics wiki ruwiki hn so reddit_posts out,
           snd (source_html parseSearchResults net query []) = scraped
           /\ snd (source_instant net query scraped)
              = instant_front net query ++ scraped ++ topics
           /\ snd (source_wiki query (wikipedia net)
                               "https://en.wikipedia.org/wiki/"
                               (js "Wikipedia")
                               (instant_front net query ++ scraped ++ topics))
              = instant_front net query ++ scraped ++ topics ++ wiki
           /\ snd (when (hasRussian query)
                        (source_wiki query (ru_wikipedia net)
                                     "https://ru.wikipedia.org/wiki/"
                                     (js "Википедия"))
                        (instant_front net query ++ scraped ++ topics ++ wiki))
              = instant_front net query ++ scraped ++ topics ++ wiki ++ ruwiki
           /\ snd (source_hn net query
                             (instant_front net query ++ scraped ++ topics
                                            ++ wiki ++ ruwiki))
              = instant_front net query ++ scraped ++ topics ++ wiki
                              ++ ruwiki ++ hn
           /\ snd (when (isProgrammingQuery query) (source_so net query)
                        (instant_front net query ++ scraped ++ topics ++ wiki
                                       ++ ruwiki ++ hn))
              = instant_front net query ++ scraped ++ topics ++ wiki
                              ++ ruwiki ++ hn ++ so
           /\ snd (source_reddit net query
                                 (instant_front net query ++ scraped ++ topics
                                                ++ wiki ++ ruwiki ++ hn ++ so))
              = instant_front net query ++ scraped ++ topics ++ wiki
                              ++ ruwiki ++ hn ++ so ++ reddit_posts
           /\ performWebSearch parseSearchResults net query = Ok out
           /\ results out
              = firstn 15 (instant_front net query ++ scraped ++ topics
                                         ++ wiki ++ ruwiki ++ hn ++ so
                                         ++ reddit_posts)
           /\ fresh_run by_url [] scraped
           /\ fresh_run by_snippet (instant_front net query ++ scraped) topics
           /\ fresh_run by_title
                        (instant_front net query ++ scraped ++ topics) wiki
           /\ fresh_run by_title
                        (instant_front net query ++ scraped ++ topics ++ wiki)
                        ruwiki
           /\ fresh_run by_title
                        (instant_front net query ++ scraped ++ topics ++ wiki
                                       ++ ruwiki) hn
           /\ fresh_run by_url
                        (instant_front net query ++ scraped ++ topics ++ wiki
                                       ++ ruwiki ++ hn) so
           /\ fresh_run by_url
                        (instant_front net query ++ scraped ++ topics ++ wiki
                                       ++ ruwiki ++ hn ++ so) reddit_posts)
  /\ (forall (max_results : Q) (elem : ResultElement)
             (rest : list ResultElement) (st : list SearchResult),
         existsb (fun r => str_eqb (url r) (el_href elem)
                           || str_eqb (snippet r) (el_snippet elem)) st = true ->
         each_result max_results (elem :: rest) st
         = each_result max_results rest st).
Proof.
  split; [|split].
  - intros net query max_results.
    destruct (collect_shape net query max_results)
      as (quick & web & news & E1 & E2 & E3 & E & F).
    exists quick, web, news.
    repeat (split; [assumption|]).
    unfold web_search_handler. now rewrite E.
  - intros parse net query.
    destruct (gather_shape parse net query)
      as (scraped & topics & wiki & ruwiki & hn & so & rp
          & E1 & E2 & E3 & E4 & E5 & E6 & E7 & E & F).
    assert (Hres : forall l,
               results (if 0 <? length l then search_found l
                        else search_failed) = firstn 15 l)
      by (intros [|x l]; reflexivity).
    exists scraped, topics, wiki, ruwiki, hn, so, rp.
    eexists.
    repeat (split; [eassumption|]).
    split; [|split; [apply Hres | exact F]].
    unfold performWebSearch. rewrite E.
    now destruct (0 <? length _).
  - apply each_result_hit.
Qed.

Lemma dedup_on_append_witness :
  each_result 10 [article_element] [article_result]
  = each_result 10 [] [article_result].
Proof.
  apply (proj2 (proj2 dedup_on_append)). vm_compute. reflexivity.
Defined.

(** Two results of one output with the same url: in [performWebSearch],
    two Hacker News hits for one article under two titles; in
    [web_search], the instant answer and the Wikipedia summary of one
    page, which also share their snippet. *)
Lemma duplicates_in_output :
  (exists out r1 r2,
      performWebSearch no_scraper hn_only (js "rust") = Ok out
      /\ results out = [r1; r2]
      /\ url r1 = url r2 /\ url r1 <> [])
  /\ (exists r1 r2,
         web_search same_page_mcp (js "rust") None = Listing [r1; r2] 2
         /\ url r1 = url r2 /\ url r1 <> []
         /\ snippet r1 = snippet r2 /\ snippet r1 <> []).
Proof.
  split.
  - do 3 eexists. split; [vm_compute; reflexivity|].
    split; [reflexivity|]. split; [reflexivity | discriminate].
  - do 2 eexists. split; [vm_compute; reflexivity|].
    repeat split; discriminate.
Qed.

(* ------------------------------------------------------------------ *)
(** ** [chatCompletion] and the non-streaming branch                   *)
(* ------------------------------------------------------------------ *)

(** X1. When [streamChatCompletion] does not stream, it sends the request
    that [chatCompletion] sends and treats the answer alike: it throws
    what [chatCompletion] throws, and yields the value [chatCompletion]
    returns, once, unless this value is the empty string, in which case it
    yields nothing. *)
Theorem non_streaming_agrees_with_chatCompletion
        (JSON_parse : jsstring -> option json)
        (fetch : Request -> outcome Response) (opts : Options) :
  useStreaming opts = false ->
  build_request opts = chat_request opts
  /\ streamChatCompletion JSON_parse fetch opts
     = Some match chatCompletion JSON_parse fetch opts with
            | Ok c => Done (if truthy c then [c] else [])
            | Throw e => Threw [] e
            end.
Proof.
  intros Hu.
  assert (Hr : build_request opts = chat_request opts).
  { unfold build_request, chat_request. now rewrite Hu. }
  split; [exact Hr|].
  unfold streamChatCompletion, chatCompletion. rewrite Hr, Hu.
  destruct (fetch (chat_request opts)) as [r|e]; [|reflexivity].
  destruct (negb (resp_ok r)); [reflexivity|]. cbn [negb].
  unfold non_streaming.
  destruct (JSON_parse (body_text r)) as [d|]; [|reflexivity].
  destruct (prop_of d k_choices) as [choices|e]; [|reflexivity].
  destruct (opt_prop (opt_prop (opt_index0 choices) k_message) k_content)
    as [c|]; [|reflexivity].
  cbn [or_empty]. destruct (truthy c) eqn:Hc; [now rewrite Hc | reflexivity].
Qed.

Lemma non_streaming_agrees_with_chatCompletion_witness :
  streamChatCompletion json_parse hello_endpoint (opus_thinking_options false)
  = Some match chatCompletion json_parse hello_endpoint
                 (opus_thinking_options false) with
         | Ok c => Done (if truthy c then [c] else [])
         | Throw e => Threw [] e
         end.
Proof.
  apply (non_streaming_agrees_with_chatCompletion
           json_parse hello_endpoint (opus_thinking_options false)).
  vm_compute. reflexivity.
Defined.

(* ------------------------------------------------------------------ *)
(** ** Streams of complete events                                      *)
(* ------------------------------------------------------------------ *)

Section CompleteEvents.

Variable JSON_parse : jsstring -> option json.

Lemma ends_lines_rest (body : jsstring) :
  ends_lines body -> snd (lines_rest body) = [].
Proof.
  intros [-> | [b ->]]; [reflexivity | apply lines_rest_ends_nl].
Qed.

(** Once a valid body that ends with a line feed has been read, nothing
    is kept back. *)
Lemma framed_valid (body : jsstring) :
  valid_body JSON_parse body -> ends_lines body ->
  framed JSON_parse body = ([], fragments_of JSON_parse body []).
Proof.
  intros Hv He. unfold fragments_of, framed.
  pose proof (ends_lines_rest body He) as Hr.
  unfold valid_body in Hv.
  destruct (lines_rest body) as [ls r]. cbn in Hr, Hv. subst r.
  rewrite (consume_complete JSON_parse ls [] Hv). cbn.
  now rewrite app_nil_r.
Qed.

Lemma fragments_of_valid_app (b1 b2 remaining : jsstring) :
  valid_body JSON_parse b1 -> ends_lines b1 ->
  fragments_of JSON_parse (b1 ++ b2) remaining
  = fragments_of JSON_parse b1 [] ++ fragments_of JSON_parse b2 remaining.
Proof.
  intros Hv He.
  pose proof (framed_valid b1 Hv He) as Hf.
  pose proof (ends_lines_rest b1 He) as Hr.
  unfold fragments_of at 1 3. unfold framed in *.
  rewrite lines_rest_app, Hr. cbn [app].
  destruct (lines_rest b1) as [ls1 r1]. cbn [fst snd] in *.
  destruct (lines_rest b2) as [ls2 r2]. cbn [fst snd].
  rewrite consume_app.
  destruct (consume JSON_parse [] ls1 []) as [p1 o1].
  injection Hf as Hp Ho. cbn [fst snd].
  apply app_eq_nil in Hp. destruct Hp as [-> _]. subst o1.
  rewrite (consume_out JSON_parse ls2 [] (fragments_of JSON_parse b1 [])).
  destruct (consume JSON_parse [] ls2 []) as [p2 o2]. cbn [fst snd].
  now rewrite <- app_assoc.
Qed.

(** The state of the scan after a valid body that ends with a line
    feed, followed by more text. *)
Lemma framed_valid_app (b1 b2 : jsstring) :
  valid_body JSON_parse b1 -> ends_lines b1 ->
  framed JSON_parse (b1 ++ b2)
  = (fst (framed JSON_parse b2),
     fragments_of JSON_parse b1 [] ++ snd (framed JSON_parse b2)).
Proof.
  intros Hv He.
  pose proof (framed_valid b1 Hv He) as Hf.
  pose proof (ends_lines_rest b1 He) as Hr.
  unfold framed in *.
  rewrite lines_rest_app, Hr. cbn [app].
  destruct (lines_rest b1) as [ls1 r1]. cbn [fst snd] in *.
  destruct (lines_rest b2) as [ls2 r2]. cbn [fst snd].
  rewrite consume_app.
  destruct (consume JSON_parse [] ls1 []) as [p1 o1].
  injection Hf as Hp Ho. cbn [fst snd].
  apply app_eq_nil in Hp. destruct Hp as [-> _]. subst o1.
  rewrite (consume_out JSON_parse ls2 [] (fragments_of JSON_parse b1 [])).
  now destruct (consume JSON_parse [] ls2 []).
Qed.

(** The run on fragments read in two parts. *)
Lemma stream_end_app (frags1 frags2 last : list json) :
  stream_end (frags1 ++ frags2) last
  = run_then (stream_end frags1 []) (stream_end frags2 last).
Proof.
  unfold stream_end. rewrite forallb_app.
  destruct (forallb addable frags1) eqn:H1; cbn [andb run_then].
  - destruct (forallb addable frags2); cbn [run_then].
    + now rewrite app_nil_r, <- app_assoc.
    + now rewrite app_nil_r, (addable_prefix_app _ _ H1).
  - now rewrite (addable_prefix_stop _ _ H1).
Qed.

Lemma stream_run_valid_app (b1 b2 remaining : jsstring) :
  valid_body JSON_parse b1 -> ends_lines b1 ->
  stream_run JSON_parse (b1 ++ b2) remaining
  = run_then (stream_run JSON_parse b1 [])
             (stream_run JSON_parse b2 remaining).
Proof.
  intros Hv He. unfold stream_run.
  rewrite (framed_valid_app b1 b2 Hv He), (framed_valid b1 Hv He).
  cbn [fst snd is_empty]. apply stream_end_app.
Qed.

Lemma read_loop_app (chunks1 chunks2 : list jsstring) (remaining : jsstring) :
  forall buffer out,
    read_loop JSON_parse (chunks1 ++ chunks2) remaining buffer out
    = match read_loop JSON_parse chunks1 [] buffer out with
      | Some (Ok buffer1, out1) =>
        read_loop JSON_parse chunks2 remaining buffer1 out1
      | Some (Throw e, out1) => Some (Throw e, out1)
      | None => None
      end.
Proof.
  induction chunks1 as [|c chunks1 IH]; intros buffer out.
  - reflexivity.
  - cbn [app read_loop].
    destruct (scan_buffer JSON_parse _ _ 0 0 out) as [[[p|e] o]|];
      [apply IH | reflexivity..].
Qed.

End CompleteEvents.

(** X2. Complete events are decoded on their own.  When the text of a
    stream starts with a body of complete events that ends with a line
    feed, the run is the run of a stream made of this body alone,
    followed by the run of the rest of the stream by itself: it yields
    the fragments of the body and then those of the rest, and it throws
    where either of them throws.  What follows complete events cannot
    change, delay past the end or suppress their fragments, and is
    decoded as if the stream started there. *)
Theorem complete_events_decode_alone
        (JSON_parse : jsstring -> option json) (opts : Options) (r : Response)
        (b1 b2 : jsstring) :
  resp_ok r = true -> useStreaming opts = true ->
  concat (resp_chunks r) = b1 ++ b2 ->
  valid_body JSON_parse b1 -> ends_lines b1 ->
  exists g1 g2,
    streamChatCompletion JSON_parse (serve (ok_response [b1])) opts = Some g1
    /\ streamChatCompletion JSON_parse (serve (rechunk r [b2])) opts = Some g2
    /\ streamChatCompletion JSON_parse (serve r) opts
       = Some (run_then g1 g2)
    /\ (forall ys1 ys2,
           g1 = Done ys1 -> g2 = Done ys2 ->
           streamChatCompletion JSON_parse (serve r) opts
           = Some (Done (ys1 ++ ys2))).
Proof.
  intros Hok Hs Hc Hv He.
  rewrite !streamChatCompletion_streaming by assumption || reflexivity.
  cbn [resp_chunks resp_flush ok_response rechunk concat].
  rewrite Hc, !app_nil_r.
  do 2 eexists. split; [reflexivity|]. split; [reflexivity|].
  rewrite (stream_run_valid_app JSON_parse b1 b2 (resp_flush r) Hv He).
  split; [reflexivity|].
  intros ys1 ys2 -> ->. reflexivity.
Qed.

Lemma complete_events_decode_alone_witness :
  exists g1 g2,
    streamChatCompletion json_parse (serve (ok_response [hello_body]))
                         flash_options = Some g1
    /\ streamChatCompletion json_parse
         (serve (rechunk (ok_response [hello_body; cut_head; cut_remnant])
                         [cut_head ++ cut_remnant])) flash_options
       = Some g2
    /\ streamChatCompletion json_parse
         (serve (ok_response [hello_body; cut_head; cut_remnant]))
         flash_options
       = Some (run_then g1 g2)
    /\ (forall ys1 ys2,
           g1 = Done ys1 -> g2 = Done ys2 ->
           streamChatCompletion json_parse
             (serve (ok_response [hello_body; cut_head; cut_remnant]))
             flash_options
           = Some (Done (ys1 ++ ys2))).
Proof.
  apply complete_events_decode_alone.
  - reflexivity.
  - vm_compute. reflexivity.
  - cbn [ok_response resp_chunks concat]. now rewrite app_nil_r.
  - exact hello_body_valid.
  - right. exists (removelast hello_body). vm_compute. reflexivity.
Defined.

Example complete_events_run :
  streamChatCompletion json_parse
    (serve (ok_response [hello_body; cut_head; cut_remnant])) flash_options
  = Some (Done [JStr (js "Hel"); JStr (js "lo"); JStr (js "Hel")]).
Proof. vm_compute. reflexivity. Qed.

(** X3. Complete events never wait.  When the chunks read so far make up
    a body of complete events that ends with a line feed, the read loop
    goes on with an empty buffer and with every fragment of these events
    already yielded, whatever the chunks cut: nothing is held back for
    later chunks or for the end of the stream.  (Or the loop has been
    left by the exception of l.240, at the first of these fragments that
    cannot be added to a string, with the fragments before it yielded.) *)
Theorem complete_events_never_wait
        (JSON_parse : jsstring -> option json)
        (chunks later : list jsstring) (remaining : jsstring) :
  valid_body JSON_parse (concat chunks) -> ends_lines (concat chunks) ->
  read_loop JSON_parse chunks [] [] []
  = Some (loop_end [] (fragments_of JSON_parse (concat chunks) []))
  /\ read_loop JSON_parse (chunks ++ later) remaining [] []
     = if forallb addable (fragments_of JSON_parse (concat chunks) [])
       then read_loop JSON_parse later remaining []
                      (fragments_of JSON_parse (concat chunks) [])
       else Some (Throw TypeError,
                  addable_prefix (fragments_of JSON_parse (concat chunks) [])).
Proof.
  intros Hv He.
  assert (H : read_loop JSON_parse chunks [] [] []
              = Some (loop_end [] (fragments_of JSON_parse (concat chunks) []))).
  { pose proof (read_loop_framed JSON_parse chunks [] [] eq_refl) as H.
    change (fst (framed JSON_parse [])) with (@nil N) in H.
    change (snd (framed JSON_parse [])) with (@nil json) in H.
    rewrite H. cbn [app is_empty].
    now rewrite (framed_valid JSON_parse (concat chunks) Hv He). }
  split; [exact H|].
  rewrite read_loop_app, H. unfold loop_end.
  now destruct (forallb addable (fragments_of JSON_parse (concat chunks) [])).
Qed.

Lemma complete_events_never_wait_witness :
  read_loop json_parse [firstn 20 hello_body; skipn 20 hello_body] [] [] []
  = Some (loop_end [] (fragments_of json_parse
                         (concat [firstn 20 hello_body; skipn 20 hello_body])
                         [])).
Proof.
  apply (complete_events_never_wait json_parse
           [firstn 20 hello_body; skipn 20 hello_body] [] []).
  - assert (E : concat [firstn 20 hello_body; skipn 20 hello_body] = hello_body)
      by (vm_compute; reflexivity).
    rewrite E. exact hello_body_valid.
  - right. exists (removelast hello_body). vm_compute. reflexivity.
Defined.

Example complete_events_loop :
  read_loop json_parse [firstn 20 hello_body; skipn 20 hello_body] [] [] []
  = Some (Ok [], [JStr (js "Hel"); JStr (js "lo")]).
Proof. vm_compute. reflexivity. Qed.

(* ------------------------------------------------------------------ *)
(** ** The URLs of a text                                              *)
(* ------------------------------------------------------------------ *)

Lemma span_spec (p : N -> bool) (s : jsstring) :
  s = fst (span p s) ++ snd (span p s)
  /\ forallb p (fst (span p s)) = true
  /\ match snd (span p s) with
     | c :: _ => p c = false
     | [] => True
     end.
Proof.
  induction s as [|c s (IH1 & IH2 & IH3)]; cbn [span].
  - repeat split.
  - destruct (p c) eqn:Hc.
    + destruct (span p s) as [run rest]. cbn in *.
      repeat split; [congruence | now rewrite Hc | assumption].
    + cbn. repeat split. exact Hc.
Qed.

Lemma span_head (p : N -> bool) (c : N) (s : jsstring) :
  p c = true -> fst (span p (c :: s)) <> [].
Proof.
  intros Hc. cbn [span]. rewrite Hc. now destruct (span p s).
Qed.

Lemma literal_at_spec (p : jsstring) :
  forall s m rest,
    literal_at p s = Some (m, rest) ->
    s = m ++ rest /\ map canonicalize m = map canonicalize p.
Proof.
  induction p as [|a p IH]; intros s m rest H.
  - destruct s; cbn in H; injection H as <- <-; now split.
  - destruct s as [|b s]; [discriminate|]. cbn [literal_at] in H.
    destruct (same_char a b) eqn:Hab; [|discriminate].
    destruct (literal_at p s) as [[m' rest']|] eqn:Hl; [|discriminate].
    injection H as <- <-. destruct (IH _ _ _ Hl) as [-> Hm].
    split; [reflexivity|]. cbn. f_equal; [|exact Hm].
    symmetry. now apply N.eqb_eq.
Qed.

Lemma literal_at_complete (p : jsstring) :
  forall m rest,
    map canonicalize m = map canonicalize p ->
    literal_at p (m ++ rest) = Some (m, rest).
Proof.
  induction p as [|a p IH]; intros m rest H.
  - destruct m; [|discriminate]. now destruct rest.
  - destruct m as [|b m]; [discriminate|]. cbn in H.
    injection H as Hb Hm. cbn [app literal_at].
    unfold same_char. rewrite Hb, N.eqb_refl. now rewrite (IH m rest Hm).
Qed.

Lemma literal_at_none (p : jsstring) :
  forall s, literal_at p s = None ->
            forall m rest, s = m ++ rest ->
                           map canonicalize m <> map canonicalize p.
Proof.
  intros s H m rest -> Hm.
  now rewrite (literal_at_complete p m rest Hm) in H.
Qed.

Lemma scheme_at_spec (s scheme rest : jsstring) :
  scheme_at s = Some (scheme, rest) ->
  s = scheme ++ rest
  /\ (map canonicalize scheme = map canonicalize (js "http://")
      \/ map canonicalize scheme = map canonicalize (js "https://")).
Proof.
  unfold scheme_at. intros H.
  destruct (literal_at (js "https://") s) as [[m r]|] eqn:H1.
  - injection H as <- <-. destruct (literal_at_spec _ _ _ _ H1). tauto.
  - destruct (literal_at_spec _ _ _ _ H). tauto.
Qed.

Lemma scheme_at_complete (scheme rest : jsstring) :
  map canonicalize scheme = map canonicalize (js "http://")
  \/ map canonicalize scheme = map canonicalize (js "https://") ->
  scheme_at (scheme ++ rest) = Some (scheme, rest).
Proof.
  unfold scheme_at. intros [H|H].
  - destruct (literal_at (js "https://") (scheme ++ rest)) as [[m r]|] eqn:H1.
    + exfalso. apply literal_at_spec in H1. destruct H1 as [E Hm].
      assert (Hl : length m = 8)
        by (rewrite <- (length_map canonicalize m), Hm; reflexivity).
      assert (Hs : length scheme = 7)
        by (rewrite <- (length_map canonicalize scheme), H; reflexivity).
      do 8 (destruct m as [|? m]; [discriminate|]).
      do 7 (destruct scheme as [|? scheme]; [discriminate|]).
      destruct m; [|discriminate]. destruct scheme; [|discriminate].
      cbn in E. injection E as -> -> -> -> -> _.
      vm_compute in Hm. vm_compute in H.
      injection Hm as _ _ _ _ Hm _ _ _.
      injection H as _ _ _ _ H _ _.
      cbv [canonicalize] in Hm, H. congruence.
    + now apply literal_at_complete.
  - now rewrite (literal_at_complete (js "https://") scheme rest H).
Qed.

Lemma url_at_sound (s m rest : jsstring) :
  url_at s = Some (m, rest) ->
  s = m ++ rest /\ is_url m
  /\ match rest with c :: _ => url_char c = false | [] => True end.
Proof.
  unfold url_at. intros H.
  destruct (scheme_at s) as [[scheme r]|] eqn:Hs; [|discriminate].
  apply scheme_at_spec in Hs. destruct Hs as [-> Hc].
  pose proof (span_spec url_char r) as (E & Ha & Hn).
  destruct (span url_char r) as [run rest']. cbn [fst snd] in *.
  destruct run as [|c run]; [discriminate|].
  injection H as <- <-. subst r.
  split; [now rewrite <- app_assoc|]. split; [|exact Hn].
  exists scheme, (c :: run). repeat split; [exact Hc | discriminate | exact Ha].
Qed.

Lemma url_at_complete (u after : jsstring) :
  is_url u -> url_at (u ++ after) <> None.
Proof.
  intros (scheme & rest & -> & Hc & Hr & Ha).
  unfold url_at. rewrite <- app_assoc, (scheme_at_complete scheme _ Hc).
  destruct rest as [|c rest]; [contradiction|].
  cbn in Ha. apply andb_true_iff in Ha. destruct Ha as [Hcu _].
  pose proof (span_head url_char c (rest ++ after) Hcu) as Hne.
  cbn [app]. destruct (span url_char (c :: rest ++ after)) as [[|? ?] ?];
    cbn in Hne; [contradiction | discriminate].
Qed.

Lemma is_url_nonempty (u : jsstring) : is_url u -> u <> [].
Proof.
  intros (scheme & rest & -> & _ & Hr & _) E.
  apply app_eq_nil in E. tauto.
Qed.

Lemma match_urls_sound (s : jsstring) :
  forall skip u,
    In u (match_urls skip s) -> is_url u /\ occurs_whole u s.
Proof.
  induction s as [|c s IH]; intros skip u Hin; [destruct Hin|].
  assert (Hlater : forall k, In u (match_urls k s) ->
                             is_url u /\ occurs_whole u (c :: s)).
  { intros k Hk. destruct (IH k u Hk) as (Hu & before & after & -> & Ha).
    split; [exact Hu|]. exists (c :: before), after. now split. }
  cbn [match_urls] in Hin. destruct skip as [|skip]; [|now apply (Hlater skip)].
  destruct (url_at (c :: s)) as [[m rest]|] eqn:Hm; [|now apply (Hlater 0)].
  destruct Hin as [<-|Hin]; [|now apply (Hlater (length m - 1))].
  apply url_at_sound in Hm. destruct Hm as (E & Hu & Hn).
  split; [exact Hu|]. exists [], rest. now split.
Qed.

Lemma match_urls_complete (s : jsstring) :
  forall before u after,
    s = before ++ u ++ after -> is_url u -> match_urls 0 s <> [].
Proof.
  induction s as [|c s IH]; intros before u after E Hu.
  - symmetry in E. apply app_eq_nil in E. destruct E as [_ E].
    apply app_eq_nil in E. destruct E as [E _].
    now apply is_url_nonempty in Hu.
  - cbn [match_urls].
    destruct (url_at (c :: s)) as [[m rest]|] eqn:Hm; [discriminate|].
    destruct before as [|b before].
    + cbn [app] in E. rewrite E in Hm. now apply url_at_complete in Hm.
    + cbn [app] in E. injection E as _ E. now apply (IH before u after).
Qed.

Lemma unique_from_spec (l : list jsstring) :
  forall seen,
    NoDup (unique_from seen l)
    /\ forall x, In x (unique_from seen l) <-> In x l /\ ~ In x seen.
Proof.
  induction l as [|y l IH]; intros seen; cbn [unique_from].
  - split; [constructor | intros x; cbn; tauto].
  - destruct (existsb (str_eqb y) seen) eqn:Hy.
    + destruct (IH seen) as [Hn Hi]. split; [exact Hn|].
      intros x. rewrite Hi. cbn. split; [tauto|].
      intros [[<-|Hx] Hs]; [|tauto].
      exfalso. apply Hs. apply existsb_exists in Hy.
      destruct Hy as (z & Hz & Hyz). apply str_eqb_eq in Hyz. now subst.
    + destruct (IH (y :: seen)) as [Hn Hi].
      assert (Hys : ~ In y seen).
      { intros Hin. rewrite <- not_true_iff_false in Hy. apply Hy.
        apply existsb_exists. exists y. split; [exact Hin | apply str_eqb_refl]. }
      split.
      * constructor; [|exact Hn]. rewrite Hi. cbn. tauto.
      * intros x. cbn. rewrite Hi. cbn.
        destruct (list_eq_dec N.eq_dec y x) as [->|Hne]; tauto.
Qed.

(** X4. The URLs that [extractUrls] returns.  Each is a URL as the
    pattern defines it ([http://] or [https://] in any case, then one or
    more admitted characters), occurs in the text and ends where the text
    ends or goes on with a character that a URL cannot hold; and no URL
    is returned twice. *)
Theorem extractUrls_sound (text : jsstring) :
  NoDup (extractUrls text)
  /\ forall u, In u (extractUrls text) -> is_url u /\ occurs_whole u text.
Proof.
  unfold extractUrls.
  destruct (unique_from_spec (match_urls 0 text) []) as [Hn Hi].
  split; [exact Hn|]. intros u Hu. apply Hi in Hu.
  now apply (match_urls_sound text 0 u).
Qed.

(** X5. [shouldAutoAnalyzeUrls] finds every URL: it answers [true]
    exactly when some part of the message is a URL as the pattern
    defines it, [extractUrls] returning then at least one URL. *)
Theorem shouldAutoAnalyzeUrls_complete (message : jsstring) :
  shouldAutoAnalyzeUrls message = true
  <-> exists before u after,
      message = before ++ u ++ after /\ is_url u.
Proof.
  unfold shouldAutoAnalyzeUrls, extractUrls.
  destruct (unique_from_spec (match_urls 0 message) []) as [_ Hi].
  rewrite Nat.ltb_lt. split.
  - intros Hl.
    destruct (unique_from [] (match_urls 0 message)) as [|u l] eqn:E;
      [cbn in Hl; lia|].
    assert (Hu : In u (match_urls 0 message)) by (apply Hi; now left).
    destruct (match_urls_sound message 0 u Hu) as (Hurl & before & after & Ht & _).
    now exists before, u, after.
  - intros (before & u & after & Ht & Hu).
    pose proof (match_urls_complete message before u after Ht Hu) as Hne.
    destruct (match_urls 0 message) as [|m l] eqn:E; [contradiction|].
    assert (Hm : In m (unique_from [] (m :: l))) by (apply Hi; cbn; tauto).
    destruct (unique_from [] (m :: l)); [destruct Hm | cbn; lia].
Qed.

Example extractUrls_sample :
  extractUrls (js "see https://a.b/c?d=1 and HTTP://X.y, <https://a.b/c?d=1>")
  = [js "https://a.b/c?d=1"; js "HTTP://X.y,"].
Proof. vm_compute. reflexivity. Qed.

(* ------------------------------------------------------------------ *)
(** ** The title of a page                                             *)
(* ------------------------------------------------------------------ *)

Lemma trimStart_split (s : jsstring) :
  exists p, s = p ++ trimStart s /\ forallb is_white p = true.
Proof.
  induction s as [|c s (p & E & Hp)]; [now exists []|]. cbn [trimStart].
  destruct (is_white c) eqn:Hc.
  - exists (c :: p). cbn. rewrite Hc. split; [congruence | exact Hp].
  - now exists [].
Qed.

Lemma trimStart_head (s : jsstring) (c : N) (r : jsstring) :
  trimStart s = c :: r -> is_white c = false.
Proof.
  induction s as [|x s IH]; [discriminate|]. cbn [trimStart].
  destruct (is_white x) eqn:Hx; [exact IH|]. intros E. now injection E as <- _.
Qed.

Lemma trimEnd_split (s : jsstring) :
  exists q, s = trimEnd s ++ q /\ forallb is_white q = true.
Proof.
  destruct (trimStart_split (rev s)) as (p & E & Hp).
  exists (rev p). split; [|now rewrite forallb_rev].
  unfold trimEnd. rewrite <- rev_app_distr, <- E. now rewrite rev_involutive.
Qed.

Lemma trimEnd_last (s r : jsstring) (c : N) :
  trimEnd s = r ++ [c] -> is_white c = false.
Proof.
  unfold trimEnd. intros E.
  apply (f_equal (@rev N)) in E. rewrite rev_involutive, rev_app_distr in E.
  cbn in E. now apply trimStart_head in E.
Qed.

Lemma trim_trimmed (s : jsstring) : trimmed (trim s).
Proof.
  unfold trim. intros c [[r E] | [r E]]; [|now apply trimEnd_last in E].
  destruct (trimEnd_split (trimStart s)) as (q & Eq & Hq).
  rewrite E in Eq. cbn in Eq.
  now apply trimStart_head in Eq.
Qed.

Lemma trim_incl (s : jsstring) (c : N) : In c (trim s) -> In c s.
Proof.
  unfold trim. intros H.
  destruct (trimEnd_split (trimStart s)) as (q & Eq & _).
  destruct (trimStart_split s) as (p & Ep & _).
  rewrite Ep, Eq. apply in_or_app. right. apply in_or_app. now left.
Qed.

Lemma span_stop (p : N -> bool) (a : jsstring) (c : N) (r : jsstring) :
  forallb p a = true -> p c = false -> span p (a ++ c :: r) = (a, c :: r).
Proof.
  intros Ha Hc. induction a as [|x a IH]; cbn [app span].
  - now rewrite Hc.
  - cbn in Ha. apply andb_true_iff in Ha. destruct Ha as [Hx Ha].
    now rewrite Hx, (IH Ha).
Qed.

Lemma canonicalize_ascii (c x : N) :
  (x < 65)%N -> canonicalize c = x -> c = x.
Proof.
  unfold canonicalize. intros Hx.
  destruct ((97 <=? c) && (c <=? 122))%N eqn:E1.
  { apply andb_true_iff in E1. destruct E1 as [A B].
    apply N.leb_le in A, B. lia. }
  destruct ((224 <=? c) && (c <=? 254) && negb (c =? 247))%N eqn:E2.
  { apply andb_true_iff in E2. destruct E2 as [E2 _].
    apply andb_true_iff in E2. destruct E2 as [A B].
    apply N.leb_le in A, B. lia. }
  destruct ((1072 <=? c) && (c <=? 1103))%N eqn:E3.
  { apply andb_true_iff in E3. destruct E3 as [A B].
    apply N.leb_le in A, B. lia. }
  destruct ((1104 <=? c) && (c <=? 1119))%N eqn:E4.
  { apply andb_true_iff in E4. destruct E4 as [A B].
    apply N.leb_le in A, B. lia. }
  easy.
Qed.

(** [title_at] finds the match of the pattern at the head of a text, and
    there is one group at most. *)
Lemma title_at_spec (s text : jsstring) :
  title_at s = Some text <-> title_element s text.
Proof.
  unfold title_at, title_element. split.
  - intros H.
    destruct (literal_at (js "<title") s) as [[tag rest]|] eqn:Ht;
      [|discriminate].
    apply literal_at_spec in Ht. destruct Ht as [-> Htag].
    pose proof (span_spec not_gt rest) as (E1 & Ha & Hn).
    destruct (span not_gt rest) as [attrs rest1]. cbn [fst snd] in *.
    destruct rest1 as [|gt rest']; [discriminate|].
    unfold not_gt in Hn. apply negb_false_iff, N.eqb_eq in Hn. subst gt.
    pose proof (span_spec not_lt rest') as (E2 & Hb & _).
    destruct (span not_lt rest') as [t rest'']. cbn [fst snd] in *.
    destruct t as [|c t]; [discriminate|].
    destruct (literal_at (js "</title>") rest'') as [[close after]|] eqn:Hc;
      [|discriminate].
    apply literal_at_spec in Hc. destruct Hc as [-> Hclose].
    injection H as <-.
    exists tag, attrs, close, after. subst rest rest'.
    repeat split; try assumption; discriminate.
  - intros (tag & attrs & close & after & -> & Htag & Ha & Hne & Hb & Hclose).
    rewrite (literal_at_complete (js "<title") tag _ Htag).
    cbn [app]. rewrite (span_stop not_gt attrs 62 _ Ha eq_refl). cbn [snd].
    assert (Hlen : length close = 8)
      by (rewrite <- (length_map canonicalize close), Hclose; reflexivity).
    destruct close as [|lt close]; [discriminate|].
    assert (Hlt : lt = 60%N).
    { apply canonicalize_ascii; [lia|]. now injection Hclose as -> _. }
    cbn [app]. rewrite (span_stop not_lt text lt _ Hb)
      by (subst lt; reflexivity).
    destruct text as [|c t]; [contradiction|].
    change (lt :: close ++ after) with ((lt :: close) ++ after).
    now rewrite (literal_at_complete (js "</title>") (lt :: close) after Hclose).
Qed.

Lemma first_title_found (html text : jsstring) :
  first_title html = Some text ->
  exists before s, html = before ++ s /\ title_element s text.
Proof.
  induction html as [|c html IH]; cbn [first_title].
  - destruct (title_at []) eqn:E; [|discriminate].
    intros H. injection H as ->. exists [], []. split; [reflexivity|].
    now apply title_at_spec.
  - destruct (title_at (c :: html)) eqn:E.
    + intros H. injection H as ->. exists [], (c :: html).
      split; [reflexivity | now apply title_at_spec].
    + intros H. destruct (IH H) as (before & s & -> & Hs).
      now exists (c :: before), s.
Qed.

(** X6. The title that [extractTitle] returns.  It is empty, or the text
    of a title element of the page (an opening title tag, a text without
    [<], the closing tag) without the white space around it; it holds no
    [<], and neither starts nor ends with white space. *)
Theorem extractTitle_is_a_title (html : jsstring) :
  (extractTitle html = []
   \/ exists before s text,
      html = before ++ s /\ title_element s text
      /\ extractTitle html = trim text)
  /\ ~ In 60%N (extractTitle html)
  /\ trimmed (extractTitle html).
Proof.
  unfold extractTitle.
  destruct (first_title html) as [text|] eqn:E.
  - destruct (first_title_found html text E) as (before & s & -> & Hs).
    split; [right; now exists before, s, text|].
    split; [|apply trim_trimmed].
    intros Hin. apply trim_incl in Hin.
    destruct Hs as (tag & attrs & close & after & _ & _ & _ & _ & Hb & _).
    apply (proj1 (forallb_forall _ _) Hb) in Hin. discriminate.
  - split; [now left|]. split; [intros []|].
    intros c [[r H]|[r H]]; [discriminate|]. now destruct r.
Qed.

Lemma lit_matches (p : string) (m : jsstring) :
  map canonicalize m = map canonicalize (js p) -> matches (lit p) m.
Proof.
  unfold lit. generalize (js p). clear p. intros p. revert m.
  induction p as [|a p IH]; intros m H.
  - destruct m; [constructor | discriminate].
  - destruct m as [|b m]; [discriminate|]. cbn in H. injection H as Hb Hm.
    cbn [fold_right]. change (b :: m) with ([b] ++ m).
    constructor; [|now apply IH].
    constructor. unfold same_char. rewrite Hb. apply N.eqb_refl.
Qed.

Lemma first_title_skip (before : jsstring) (c : N) (rest : jsstring) :
  test (lit "<title") before = false -> canonicalize c = 60%N ->
  first_title (before ++ c :: rest) = first_title (c :: rest).
Proof.
  intros Ht Hc. induction before as [|b before IH]; [reflexivity|].
  assert (Ht' : test (lit "<title") before = false).
  { cbn [test] in Ht. now apply orb_false_iff in Ht. }
  cbn [app]. rewrite <- (IH Ht').
  assert (Hno : literal_at (js "<title") (b :: before ++ c :: rest) = None).
  { destruct (literal_at (js "<title") (b :: before ++ c :: rest))
      as [[m r]|] eqn:Hl; [exfalso | reflexivity].
    apply literal_at_spec in Hl. destruct Hl as [E Hm].
    change (b :: before ++ c :: rest) with ((b :: before) ++ c :: rest) in E.
    apply app_eq_app in E.
    assert (Hin : forall l, b :: before = m ++ l -> False).
    { intros l El. rewrite <- not_true_iff_false in Ht. apply Ht.
      apply test_matches. exists [], m, l. split; [exact El|].
      now apply lit_matches. }
    destruct E as (l & [[E _] | [E E']]); [now apply (Hin l)|].
    destruct l as [|x l].
    - apply (Hin []). now rewrite E, !app_nil_r.
    - cbn in E'. injection E' as <- _. subst m.
      vm_compute (map canonicalize (js "<title")) in Hm.
      cbn [map app] in Hm. injection Hm as _ Hm.
      do 5 (destruct before as [|? before]; cbn [map app] in Hm;
            [injection Hm as Hm _; rewrite Hc in Hm; discriminate
            |injection Hm as _ Hm]).
      destruct before; discriminate. }
  change (first_title (b :: before ++ c :: rest))
    with (match title_at (b :: before ++ c :: rest) with
          | Some t => Some t
          | None => first_title (before ++ c :: rest)
          end).
  unfold title_at. now rewrite Hno.
Qed.

(** X7. [extractTitle] reads the first title element.  When a page holds
    a title element (an opening title tag, with or without attributes, a
    text without [<] and the closing tag) and no opening title tag before
    it, [extractTitle] returns the text of this element without the white
    space around it. *)
Theorem extractTitle_reads_first_title (before s text : jsstring) :
  test (lit "<title") before = false ->
  title_element s text ->
  extractTitle (before ++ s) = trim text.
Proof.
  intros Ht Hs. unfold extractTitle.
  assert (Hat : title_at s = Some text) by now apply title_at_spec.
  destruct Hs as (tag & attrs & close & after & -> & Htag & _).
  destruct tag as [|c tag]; [discriminate|].
  assert (Hc : canonicalize c = 60%N) by now injection Htag as -> _.
  cbn [app] in *. rewrite (first_title_skip before c _ Ht Hc).
  cbn [first_title]. now rewrite Hat.
Qed.

Lemma extractTitle_reads_first_title_witness :
  extractTitle (js "<html><head><meta charset=utf-8>"
                ++ js "<TITLE lang=en> Hello </title></head>")
  = trim (js " Hello ").
Proof.
  apply extractTitle_reads_first_title.
  - vm_compute. reflexivity.
  - exists (js "<TITLE"), (js " lang=en"), (js "</title>"), (js "</head>").
    repeat split; try (vm_compute; reflexivity). discriminate.
Defined.

(* ------------------------------------------------------------------ *)
(** ** The currency pair of a query                                    *)
(* ------------------------------------------------------------------ *)

(** A pattern found in a text is found in every text that holds it. *)
Lemma test_within (r : regex) (s0 s1 s2 : jsstring) :
  test r s1 = true -> test r (s0 ++ s1 ++ s2) = true.
Proof.
  rewrite !test_matches. intros (a & m & b & -> & H).
  exists (s0 ++ a), m, (b ++ s2). split; [|exact H].
  now rewrite <- !app_assoc.
Qed.

Lemma test_whole (r : regex) (s : jsstring) : matches r s -> test r s = true.
Proof.
  intros H. apply test_matches. exists [], s, []. split; [|exact H].
  cbn. now rewrite app_nil_r.
Qed.

(** What [prefix\s*name] matches ends with a match of [name]. *)
Lemma into_names (prefix name : regex) (s : jsstring) :
  matches (cat [prefix; spaces; name]) s ->
  exists s0 s1, s = s0 ++ s1 /\ matches name s1.
Proof.
  cbn [cat]. intros H.
  inversion H as [| | | | | |? ? a b Ha Hb| | | |]; subst.
  inversion Hb as [| | | | | |? ? c d Hc Hd| | | |]; subst.
  inversion Hd as [| | | | | |? ? e f He Hf| | | |]; subst.
  inversion Hf; subst.
  exists (a ++ c), e. split; [|exact He].
  now rewrite app_nil_r, app_assoc.
Qed.

Lemma into_dollar_names_dollar (query : jsstring) :
  test into_dollar query = true -> test dollar_named query = true.
Proof.
  rewrite (test_matches into_dollar).
  intros (s0 & s1 & s2 & -> & H). apply test_within.
  unfold into_dollar in H. unfold dollar_named.
  inversion H as [| | | | | | |? ? ? H1|? ? ? H1| |]; subst;
    apply into_names in H1; destruct H1 as (a & b & -> & Hb);
      rewrite <- (app_nil_r (a ++ b)), <- app_assoc; apply test_within;
        apply test_whole.
  - now apply MAltL.
  - now apply MAltR, MAltL.
Qed.

Lemma into_euro_names_euro (query : jsstring) :
  test into_euro query = true -> test euro_named query = true.
Proof.
  rewrite (test_matches into_euro).
  intros (s0 & s1 & s2 & -> & H). apply test_within.
  unfold into_euro in H. unfold euro_named.
  inversion H as [| | | | | | |? ? ? H1|? ? ? H1| |]; subst;
    apply into_names in H1; destruct H1 as (a & b & -> & Hb);
      rewrite <- (app_nil_r (a ++ b)), <- app_assoc; apply test_within;
        apply test_whole.
  - now apply MAltL.
  - now apply MAltR.
Qed.

(** X8. The currency pair read from a query.  A query that asks for a
    conversion into dollars is given the pair from dollars to dollars,
    whatever other currency it names; a query that asks for a conversion
    into euros is given the pair from euros to euros unless it names the
    dollar: the words that name the target are also read as naming the
    source. *)
Theorem currency_target_is_also_source (query : jsstring) :
  (snd (currency_pair query) = USD -> fst (currency_pair query) = USD)
  /\ (snd (currency_pair query) = EUR ->
      fst (currency_pair query) = EUR \/ test dollar_named query = true)
  /\ (test into_dollar query = true -> currency_pair query = (USD, USD)).
Proof.
  unfold currency_pair. cbn [fst snd].
  pose proof (into_dollar_names_dollar query) as Hd.
  pose proof (into_euro_names_euro query) as He.
  destruct (test into_dollar query), (test into_euro query),
    (test dollar_named query), (test euro_named query),
    (test rouble_named query);
    repeat split; intros; try reflexivity; try discriminate;
      try (now left); try (now right);
        try (specialize (Hd eq_refl); discriminate);
        try (specialize (He eq_refl); discriminate).
Qed.

Lemma currency_target_is_also_source_witness :
  currency_pair (js "100 eur to usd") = (USD, USD).
Proof.
  apply (proj2 (proj2 (currency_target_is_also_source (js "100 eur to usd")))).
  vm_compute. reflexivity.
Defined.

Example currency_pair_samples :
  map currency_pair [js "100 eur to usd"; js "100 usd to eur";
                     js "50 to eur"; js "курс евро"; js "курс"]
  = [(USD, USD); (USD, EUR); (EUR, EUR); (EUR, RUB); (USD, RUB)].
Proof. vm_compute. reflexivity. Qed.

(* ------------------------------------------------------------------ *)
(** ** The instant answers lead the results                            *)
(* ------------------------------------------------------------------ *)

Lemma source_instant_front (net : Net) (query : jsstring)
      (st : list SearchResult) :
  exists topics,
    snd (source_instant net query st) = instant_front net query ++ st ++ topics.
Proof.
  unfold source_instant, try_catch, instant_front. cbn [snd].
  unfold bind at 1, lift at 1.
  destruct (encodeURIComponent query) as [q|e];
    [|exists []; now rewrite app_nil_r].
  destruct (ddg_api net) as [ | |d]; unfold on_body;
    try (exists []; now rewrite app_nil_r).
  unfold bind.
  assert (Hq : quick_answers d st
               = (Ok tt,
                  ((if is_empty (Answer d) then [] else [direct_answer d])
                     ++ (if 30 <? length (Abstract d) then [abstract_answer d]
                         else [])) ++ st)).
  { unfold quick_answers, bind, when, unshift, ret.
    destruct (Abstract d) as [|c a] eqn:Ea.
    - cbn. destruct (is_empty (Answer d)); reflexivity.
    - cbn [is_empty negb andb].
      unfold abstract_answer, direct_answer. rewrite Ea.
      destruct (30 <? length (c :: a)); destruct (is_empty (Answer d));
        reflexivity. }
  rewrite Hq.
  destruct (related_topics_adds d
              (((if is_empty (Answer d) then [] else [direct_answer d])
                  ++ (if 30 <? length (Abstract d) then [abstract_answer d]
                      else [])) ++ st)) as (topics & E & _).
  exists topics. now rewrite E, <- app_assoc.
Qed.

Lemma gather_front
      (parseSearchResults : jsstring -> outcome (list SearchResult))
      (net : Net) (query : jsstring) :
  exists others,
    gather parseSearchResults net query []
    = (Ok tt, instant_front net query ++ others).
Proof.
  unfold gather.
  rewrite (for_of_total _ (sources_total parseSearchResults net query) []).
  unfold sources. cbn [fold_left].
  destruct (source_html_adds parseSearchResults net query [])
    as (scraped & -> & _).
  cbn [app].
  destruct (source_instant_front net query scraped) as (topics & ->).
  destruct (source_wiki_adds query (wikipedia net)
              "https://en.wikipedia.org/wiki/" (js "Wikipedia")
              (instant_front net query ++ scraped ++ topics))
    as (wiki & -> & _).
  destruct (adds_when by_title (hasRussian query) _
              (source_wiki_adds query (ru_wikipedia net)
                 "https://ru.wikipedia.org/wiki/" (js "Википедия"))
              ((instant_front net query ++ scraped ++ topics) ++ wiki))
    as (ruwiki & -> & _).
  destruct (source_hn_adds net query
              (((instant_front net query ++ scraped ++ topics) ++ wiki)
                 ++ ruwiki)) as (hn & -> & _).
  destruct (adds_when by_url (isProgrammingQuery query) _
              (source_so_adds net query)
              ((((instant_front net query ++ scraped ++ topics) ++ wiki)
                  ++ ruwiki) ++ hn)) as (so & -> & _).
  destruct (source_reddit_adds net query
              (((((instant_front net query ++ scraped ++ topics) ++ wiki)
                   ++ ruwiki) ++ hn) ++ so)) as (reddit_posts & -> & _).
  exists (scraped ++ topics ++ wiki ++ ruwiki ++ hn ++ so ++ reddit_posts).
  now repeat rewrite <- app_assoc.
Qed.

(** X9. The instant answers lead the results of [performWebSearch].
    Though the instant-answer API is the second source asked, its direct
    answer, when it has one, is the first result returned, and its
    abstract, when longer than 30 characters, comes next, before every
    result scraped or found elsewhere: the cut to 15 results never
    removes them. *)
Theorem instant_answers_lead
        (parseSearchResults : jsstring -> outcome (list SearchResult))
        (net : Net) (query : jsstring) :
  instant_front net query <> [] ->
  exists out others,
    performWebSearch parseSearchResults net query = Ok out
    /\ success out = true
    /\ results out = instant_front net query ++ others.
Proof.
  intros Hne. unfold performWebSearch.
  destruct (gather_front parseSearchResults net query) as (others & ->).
  assert (Hl : length (instant_front net query) <= 2).
  { unfold instant_front.
    destruct (encodeURIComponent query); [|cbn; lia].
    destruct (ddg_api net) as [| |d]; try (cbn; lia).
    rewrite length_app.
    destruct (is_empty (Answer d)); destruct (30 <? length (Abstract d));
      cbn; lia. }
  assert (Hpos : (0 <? length (instant_front net query ++ others)) = true).
  { apply Nat.ltb_lt. rewrite length_app.
    destruct (instant_front net query); [contradiction | cbn; lia]. }
  rewrite Hpos.
  exists (search_found (instant_front net query ++ others)),
         (firstn (15 - length (instant_front net query)) others).
  split; [reflexivity|]. split; [reflexivity|].
  unfold search_found. cbn [results].
  rewrite firstn_app. f_equal. apply firstn_all2. lia.
Qed.

Lemma instant_answers_lead_witness :
  exists out others,
    performWebSearch no_scraper answering_net (js "answer") = Ok out
    /\ success out = true
    /\ results out = instant_front answering_net (js "answer") ++ others.
Proof.
  apply instant_answers_lead. vm_compute. discriminate.
Defined.

Example direct_answer_first :
  option_map title
    (match performWebSearch no_scraper answering_net (js "answer") with
     | Ok out => hd_error (results out)
     | Throw _ => None
     end)
  = Some (js "Direct Answer").
Proof. vm_compute. reflexivity. Qed.

(* ------------------------------------------------------------------ *)
(** ** News headlines                                                  *)
(* ------------------------------------------------------------------ *)

Lemma wiki_items_length (label date0 : jsstring) (entries : list News.Story) :
  length (News.wiki_items label date0 entries) <= 5.
Proof.
  unfold News.wiki_items.
  assert (H : forall l : list News.Story,
             length (flat_map
                       (fun n =>
                          if is_empty (News.story n) then []
                          else [ {| News.title := News.strip_tags (News.story n);
                                    News.url := News.page n;
                                    News.source := label;
                                    News.points := None;
                                    News.comments := None;
                                    News.date := Some date0 |} ]) l)
             <= length l).
  { induction l as [|n l IH]; [reflexivity|]. cbn [flat_map].
    rewrite length_app. destruct (is_empty (News.story n)); cbn; lia. }
  etransitivity; [apply H|]. rewrite length_firstn. lia.
Qed.

Lemma wiki_items_headlines (label1 label2 date1 date2 : jsstring)
      (entries : list News.Story) :
  map headline (News.wiki_items label1 date1 entries)
  = map headline (News.wiki_items label2 date2 entries).
Proof.
  unfold News.wiki_items.
  induction (firstn 5 entries) as [|n l IH]; [reflexivity|]. cbn [flat_map].
  rewrite !map_app, IH. now destruct (is_empty (News.story n)).
Qed.

Lemma hn_part_asked (env : News.Env) (topic0 : option jsstring)
      (maxResults : Q) :
  ~ In News.Featured (snd (News.hn_part env topic0 maxResults)).
Proof.
  unfold News.hn_part, News.endpoint.
  destruct topic0 as [t|].
  - destruct (is_empty t).
    + destruct (News.hn env (News.FrontPage maxResults));
        cbn; intros [H|[]]; discriminate.
    + destruct (encodeURIComponent t); [|intros []].
      destruct (News.hn env (News.Stories a maxResults));
        cbn; intros [H|[]]; discriminate.
  - destruct (News.hn env (News.FrontPage maxResults));
      cbn; intros [H|[]]; discriminate.
Qed.

Lemma hn_part_page (env : News.Env) (topic0 : option jsstring)
      (maxResults : Q) :
  honours_page_size env ->
  (0 <= maxResults)%Q ->
  (inject_Z (Z.of_nat (length (fst (News.hn_part env topic0 maxResults))))
   <= maxResults)%Q.
Proof.
  intros Hp H0. unfold News.hn_part.
  destruct (News.endpoint topic0 maxResults) as [request|e] eqn:He;
    [|exact H0].
  destruct (News.hn env request) as [| |hits] eqn:Hh; try exact H0.
  cbn [fst]. rewrite length_map.
  specialize (Hp request hits Hh).
  unfold News.endpoint in He.
  destruct topic0 as [t|].
  - destruct (is_empty t); [injection He as <-; exact Hp|].
    destruct (encodeURIComponent t); [|discriminate].
    injection He as <-. exact Hp.
  - injection He as <-. exact Hp.
Qed.

Lemma shorter_lt {A} (l : list A) (n : Q) :
  shorter l n = true <-> (inject_Z (Z.of_nat (length l)) < n)%Q.
Proof.
  unfold shorter. rewrite negb_true_iff, <- not_true_iff_false, Qle_bool_iff.
  split; [apply Qnot_le_lt | apply Qlt_not_le].
Qed.

(** X10. How many headlines [getNewsHeadlines] returns.  The Hacker News
    items come first; the Wikipedia feed is asked exactly when they are
    fewer than [maxResults], and adds five items at most.  The result is
    not cut to [maxResults]: when the search service returns no more hits
    than asked, the result has fewer than [maxResults + 5] items, and
    [success] tells whether it has any. *)
Theorem getNewsHeadlines_count
        (env : News.Env) (topic0 : option jsstring) (maxResults : Q) :
  let items := fst (News.hn_part env topic0 maxResults) in
  let r := fst (News.getNewsHeadlines env topic0 maxResults) in
  let asked := snd (News.getNewsHeadlines env topic0 maxResults) in
  firstn (length items) (News.results r) = items
  /\ length (News.results r) <= length items + 5
  /\ (In News.Featured asked <-> shorter items maxResults = true)
  /\ (shorter items maxResults = false -> News.results r = items)
  /\ (News.success r = true <-> News.results r <> [])
  /\ (honours_page_size env -> (0 <= maxResults)%Q ->
      (inject_Z (Z.of_nat (length (News.results r))) < maxResults + 5)%Q).
Proof.
  intros items r asked. subst items r asked.
  unfold News.getNewsHeadlines.
  pose proof (hn_part_asked env topic0 maxResults) as Hasked.
  pose proof (hn_part_page env topic0 maxResults) as Hpage.
  destruct (News.hn_part env topic0 maxResults) as [items asked].
  cbn [fst snd] in *.
  set (more := match News.featured env with
               | Body entries =>
                 News.wiki_items (js "Wikipedia") (News.today env) entries
               | _ => []
               end).
  assert (Hmore : length more <= 5).
  { subst more. destruct (News.featured env); try (cbn; lia).
    apply wiki_items_length. }
  assert (Hs : forall l : list News.Item, (0 <? length l) = true <-> l <> []).
  { intros [|x l]; cbn; split; intros H; congruence. }
  destruct (shorter items maxResults) eqn:Hsh; cbn [fst snd News.results News.success].
  - repeat split; try (intros; congruence).
    + now rewrite firstn_app, Nat.sub_diag, firstn_all, app_nil_r.
    + rewrite length_app. lia.
    + intros _. apply in_or_app. right. now left.
    + apply Hs.
    + apply Hs.
    + intros _ _. apply shorter_lt in Hsh.
      rewrite length_app, Nat2Z.inj_add, inject_Z_plus.
      apply Qplus_lt_le_compat; [exact Hsh|].
      change 5%Q with (inject_Z 5). rewrite <- Zle_Qle. lia.
  - repeat split; try (intros; congruence); try contradiction.
    + apply firstn_all.
    + lia.
    + apply Hs.
    + apply Hs.
    + intros Hp H0. apply Qle_lt_trans with maxResults; [now apply Hpage|].
      rewrite <- (Qplus_0_r maxResults) at 1.
      apply Qplus_lt_r. reflexivity.
Qed.

Lemma news_world_page_size : honours_page_size news_world.
Proof.
  intros request hits H.
  destruct request as [n|q n|]; cbn in H; [|discriminate|exact I].
  destruct (Qle_bool 2 n) eqn:E; [|discriminate].
  injection H as <-. now apply Qle_bool_iff in E.
Qed.

Lemma getNewsHeadlines_count_witness :
  (inject_Z (Z.of_nat (length (News.results
                                 (fst (News.getNewsHeadlines news_world None 3)))))
   < 3 + 5)%Q.
Proof.
  apply (getNewsHeadlines_count news_world None 3).
  - exact news_world_page_size.
  - vm_compute. discriminate.
Defined.

(** With [maxResults = 3], two hits and six entries of the feed give seven
    headlines. *)
Example more_headlines_than_asked :
  length (News.results (fst (News.getNewsHeadlines news_world None 3))) = 7
  /\ snd (News.getNewsHeadlines news_world None 3)
     = [News.FrontPage 3; News.Featured].
Proof. vm_compute. split; reflexivity. Qed.

Lemma slice0_map {A B} (f : A -> B) (l : list A) (n : Q) :
  slice0 (map f l) n = map f (slice0 l n).
Proof.
  unfold slice0. rewrite length_map.
  destruct (to_integer n <? 0)%Z; now rewrite firstn_map.
Qed.

Lemma slice0_nonempty {A} (l : list A) (n : Q) :
  (1 <= n)%Q -> l <> [] -> slice0 l n <> [].
Proof.
  intros Hn Hl. unfold slice0, to_integer.
  assert (H0 : Qle_bool 0 n = true).
  { apply Qle_bool_iff. apply Qle_trans with 1%Q; [discriminate | exact Hn]. }
  rewrite H0.
  assert (H1 : (1 <= Qfloor n)%Z).
  { change 1%Z with (Qfloor (inject_Z 1)). now apply Qfloor_resp_le. }
  destruct (Z.ltb_spec (Qfloor n) 0) as [Hneg|_]; [lia|].
  destruct l as [|x l]; [contradiction|].
  destruct (Z.to_nat (Qfloor n)) as [|k] eqn:Ek; [lia | discriminate].
Qed.

(** X11. [get_news] lists the first headlines of [getNewsHeadlines].  When
    the two see the same answers of the network, and the arguments pass
    the schema, [get_news] finds no news exactly when [getNewsHeadlines]
    returns no result, and lists otherwise the first [max_results]
    headlines of [getNewsHeadlines] (the same titles and addresses, in
    the same order): at least one, and at most [max_results]. *)
Theorem get_news_lists_first_headlines
        (env : News.Env) (topic0 : option jsstring) (max_results : option Q) :
  schema_accepts max_results = true ->
  let m := match max_results with Some m => m | None => inject_Z 10 end in
  let r := fst (News.getNewsHeadlines env topic0 m) in
  match News.get_news (server_world env) topic0 max_results with
  | News.Listed shown =>
    map headline shown = slice0 (map headline (News.results r)) m
    /\ shown <> []
    /\ (inject_Z (Z.of_nat (length shown)) <= m)%Q
  | News.NoNews => News.results r = []
  | News.Refused => False
  end.
Proof.
  intros Hs m r. subst r.
  assert (Hm : (1 <= m)%Q).
  { subst m. destruct max_results as [q|]; [|discriminate].
    cbn in Hs. apply andb_true_iff in Hs. now apply Qle_bool_iff. }
  unfold News.get_news. rewrite Hs. fold m.
  unfold News.get_news_handler, News.getNewsHeadlines, News.hn_part.
  set (mcp_items :=
         match News.endpoint topic0 m with
         | Ok request =>
           match News.get_hn (server_world env) request with
           | Ok hits => map (News.mcp_hn_item (server_world env)) hits
           | Throw _ => []
           end
         | Throw _ => []
         end).
  set (part :=
         match News.endpoint topic0 m with
         | Ok request =>
           match News.hn env request with
           | Body hits => (map (News.hn_item env) hits, [request])
           | _ => ([], [request])
           end
         | Throw _ => ([], [])
         end).
  assert (Hitems : map headline mcp_items = map headline (fst part)).
  { subst mcp_items part.
    destruct (News.endpoint topic0 m) as [request|e]; [|reflexivity].
    cbn [server_world News.get_hn].
    destruct (News.hn env request) as [| |hits]; try reflexivity.
    cbn [as_outcome fst]. rewrite !map_map. reflexivity. }
  destruct part as [items asked]. cbn [fst] in Hitems.
  assert (Hlen : length mcp_items = length items).
  { rewrite <- (length_map headline mcp_items), Hitems. apply length_map. }
  assert (Hsh : shorter mcp_items m = shorter items m).
  { unfold shorter. now rewrite Hlen. }
  rewrite Hsh.
  set (mcp_more :=
         match News.get_featured (server_world env) with
         | Ok entries =>
           News.wiki_items (js "Wikipedia Current Events")
                           (News.mcp_today (server_world env)) entries
         | Throw _ => []
         end).
  set (more :=
         match News.featured env with
         | Body entries =>
           News.wiki_items (js "Wikipedia") (News.today env) entries
         | _ => []
         end).
  assert (Hmore : map headline mcp_more = map headline more).
  { subst mcp_more more. cbn [server_world News.get_featured].
    destruct (News.featured env) as [| |entries]; try reflexivity.
    cbn [as_outcome]. apply wiki_items_headlines. }
  assert (Hall : map headline (if shorter items m then mcp_items ++ mcp_more
                               else mcp_items)
                 = map headline (if shorter items m then items ++ more
                                 else items)).
  { destruct (shorter items m); [|exact Hitems].
    now rewrite !map_app, Hitems, Hmore. }
  destruct (shorter items m); cbn [fst News.results] in *.
  - set (all := mcp_items ++ mcp_more) in *.
    destruct (length all =? 0) eqn:E.
    + apply Nat.eqb_eq, length_zero_iff_nil in E. rewrite E in Hall.
      symmetry in Hall. now apply map_eq_nil in Hall.
    + apply Nat.eqb_neq in E.
      split; [now rewrite <- slice0_map, Hall|].
      split; [|apply slice0_length;
               apply Qle_trans with 1%Q; [discriminate | exact Hm]].
      apply slice0_nonempty; [exact Hm|]. intros H. now rewrite H in E.
  - destruct (length mcp_items =? 0) eqn:E.
    + apply Nat.eqb_eq, length_zero_iff_nil in E. rewrite E in Hall.
      symmetry in Hall. now apply map_eq_nil in Hall.
    + apply Nat.eqb_neq in E.
      split; [now rewrite <- slice0_map, Hall|].
      split; [|apply slice0_length;
               apply Qle_trans with 1%Q; [discriminate | exact Hm]].
      apply slice0_nonempty; [exact Hm|]. intros H. now rewrite H in E.
Qed.

Lemma get_news_lists_first_headlines_witness :
  match News.get_news (server_world news_world) None (Some 3%Q) with
  | News.Listed shown =>
    map headline shown
    = slice0 (map headline
                  (News.results (fst (News.getNewsHeadlines news_world None 3))))
             3
    /\ shown <> []
    /\ (inject_Z (Z.of_nat (length shown)) <= 3)%Q
  | News.NoNews =>
    News.results (fst (News.getNewsHeadlines news_world None 3)) = []
  | News.Refused => False
  end.
Proof.
  apply (get_news_lists_first_headlines news_world None (Some 3%Q)).
  vm_compute. reflexivity.
Defined.

Lemma strip_tags_from_incl (s : jsstring) :
  forall skip x, In x (News.strip_tags_from skip s) -> In x s.
Proof.
  induction s as [|c s IH]; intros skip x H; [destruct H|].
  cbn [News.strip_tags_from] in H.
  destruct skip as [|k]; [|right; now apply (IH k)].
  assert (Hkeep : In x (c :: News.strip_tags_from 0 s) -> In x (c :: s)).
  { intros [->|Hx]; [now left | right; now apply (IH 0)]. }
  destruct (c =? 60)%N; [|now apply Hkeep].
  destruct (span not_gt s) as [[|r run] [|g rest]]; try now apply Hkeep.
  right. now apply (IH _ x H).
Qed.

Lemma not_gt_run (run : jsstring) :
  forallb not_gt run = true -> ~ In 62%N run.
Proof.
  intros H Hin. apply (proj1 (forallb_forall _ _) H) in Hin. discriminate.
Qed.

Lemma strip_tags_from_no_tag (s : jsstring) :
  forall skip, ~ has_tag (News.strip_tags_from skip s).
Proof.
  induction s as [|c s IH]; intros skip.
  - intros (a & run & b & E & _). now destruct a.
  - cbn [News.strip_tags_from].
    destruct skip as [|k]; [|apply IH].
    assert (Hother : c <> 60%N -> ~ has_tag (c :: News.strip_tags_from 0 s)).
    { intros Hc (a & run & b & E & Hr & Hn).
      destruct a as [|x a]; cbn in E; injection E as E1 E2; [congruence|].
      apply (IH 0). now exists a, run, b. }
    destruct (N.eqb_spec c 60) as [->|Hc]; [|now apply Hother].
    pose proof (span_spec not_gt s) as (E & Hrun & Hstop).
    assert (Hkeep : fst (span not_gt s) = [] \/ snd (span not_gt s) = [] ->
                    ~ has_tag (60%N :: News.strip_tags_from 0 s)).
    { intros Hcase (a & run & b & E' & Hr & Hn).
      destruct a as [|x a]; cbn in E';
        [injection E' as E1
        |injection E' as _ E2; apply (IH 0); now exists a, run, b].
      destruct Hcase as [H0|H0]; rewrite H0 in *; cbn [app] in E.
      - (* the next character closes the bracket, or the text ends *)
        destruct s as [|g s']; [cbn in E1; now destruct run|].
        rewrite <- E in Hstop. unfold not_gt in Hstop.
        apply negb_false_iff, N.eqb_eq in Hstop. subst g.
        cbn [News.strip_tags_from] in E1. cbn in E1.
        destruct run as [|r run]; [contradiction|].
        cbn in E1, Hn. injection E1 as <- _. discriminate.
      - (* no closing bracket follows *)
        rewrite app_nil_r in E.
        apply (not_gt_run s); [now rewrite E|].
        apply (strip_tags_from_incl s 0). rewrite E1.
        apply in_or_app. right. now left. }
    destruct (span not_gt s) as [[|r run] [|g rest]]; cbn [fst snd] in *;
      try (apply Hkeep; tauto).
    apply IH.
Qed.

(** X12. No markup tag is left in a text by [replace(/<[^>]+>/g, '')]:
    the titles that [getNewsHeadlines] and [get_news] make from the
    stories of the Wikipedia feed hold no tag. *)
Theorem wiki_headlines_hold_no_tag
        (label date0 : jsstring) (entries : list News.Story) :
  (forall s, ~ has_tag (News.strip_tags s))
  /\ Forall (fun i => ~ has_tag (News.title i))
            (News.wiki_items label date0 entries).
Proof.
  assert (H : forall s, ~ has_tag (News.strip_tags s))
    by (intros s; apply strip_tags_from_no_tag).
  split; [exact H|].
  unfold News.wiki_items. apply Forall_forall. intros i Hi.
  apply in_flat_map in Hi. destruct Hi as (n & _ & Hi).
  destruct (is_empty (News.story n)); [destruct Hi|].
  destruct Hi as [<-|[]]. apply H.
Qed.

Example strip_tags_sample :
  News.strip_tags (js "<b>Story</b> of <> and < a <<i>x>") = js "Story of <> and x>".
Proof. vm_compute. reflexivity. Qed.
(* ------------------------------------------------------------------ *)
(** ** The chat store                                                  *)
(* ------------------------------------------------------------------ *)

Lemma set_chats_same (s : Store.State) :
  Store.set_chats s (Store.chats s) (Store.currentChatId s) = s.
Proof. now destruct s. Qed.

Lemma on_chat_chats (chatId : jsstring) (f : Store.Chat -> Store.Chat)
      (s : Store.State) :
  Store.chats (Store.on_chat chatId f s)
  = map (fun chat => if str_eqb (Store.id chat) chatId then f chat else chat)
        (Store.chats s).
Proof. reflexivity. Qed.

(** Two actions on the chats named [chatId], one after the other, are one
    action. *)
Lemma on_chat_twice (chatId : jsstring) (f g : Store.Chat -> Store.Chat)
      (s : Store.State) :
  (forall chat, Store.id (f chat) = Store.id chat) ->
  Store.on_chat chatId g (Store.on_chat chatId f s)
  = Store.on_chat chatId (fun chat => g (f chat)) s.
Proof.
  intros Hid. unfold Store.on_chat, Store.set_chats. cbn. f_equal.
  rewrite map_map. apply map_ext. intros chat.
  destruct (str_eqb (Store.id chat) chatId) eqn:E.
  - now rewrite Hid, E.
  - now rewrite E.
Qed.

Lemma on_chat_ext (chatId : jsstring) (f g : Store.Chat -> Store.Chat)
      (s : Store.State) :
  (forall chat, In chat (Store.chats s) -> Store.id chat = chatId ->
                f chat = g chat) ->
  Store.on_chat chatId f s = Store.on_chat chatId g s.
Proof.
  intros H. unfold Store.on_chat. f_equal.
  apply map_ext_in. intros chat Hin.
  destruct (str_eqb (Store.id chat) chatId) eqn:E; [|reflexivity].
  apply H; [assumption | now apply str_eqb_eq].
Qed.

Lemma on_chat_ids (chatId : jsstring) (f : Store.Chat -> Store.Chat)
      (s : Store.State) :
  (forall chat, Store.id (f chat) = Store.id chat) ->
  map Store.id (Store.chats (Store.on_chat chatId f s))
  = map Store.id (Store.chats s).
Proof.
  intros Hid. rewrite on_chat_chats, map_map. apply map_ext. intros chat.
  now destruct (str_eqb (Store.id chat) chatId).
Qed.

(** X13. [createChat] called twice in a row makes one chat only: the second
    call finds the chat of the first, still empty and untitled, returns
    its id and leaves the state as it is. *)
Theorem createChat_twice_creates_once
        (fresh1 fresh2 : jsstring) (now1 now2 : Z) (s : Store.State) :
  Store.createChat fresh2 now2 (snd (Store.createChat fresh1 now1 s))
  = Store.createChat fresh1 now1 s.
Proof.
  assert (Hnew : forall s0,
             Store.createChat fresh2 now2
               (Store.set_chats s0
                  ({| Store.id := fresh1; Store.title := Store.new_chat_title;
                      Store.messages := []; Store.pinned := false;
                      Store.createdAt := now1; Store.updatedAt := now1;
                      Store.files := [] |} :: Store.chats s0) (Some fresh1))
             = (fresh1,
                Store.set_chats s0
                  ({| Store.id := fresh1; Store.title := Store.new_chat_title;
                      Store.messages := []; Store.pinned := false;
                      Store.createdAt := now1; Store.updatedAt := now1;
                      Store.files := [] |} :: Store.chats s0) (Some fresh1))).
  { intros s0. unfold Store.createChat, Store.getCurrentChat. cbn.
    now rewrite !str_eqb_refl. }
  unfold Store.createChat at 2 3.
  destruct (Store.getCurrentChat s) as [c|] eqn:Hc; [|apply Hnew].
  destruct ((length (Store.messages c) =? 0)
            && str_eqb (Store.title c) Store.new_chat_title) eqn:He;
    [|apply Hnew].
  cbn [snd]. unfold Store.createChat. now rewrite Hc, He.
Qed.

Lemma first_id_listed (cs : list Store.Chat) :
  match Store.first_id cs with
  | Some cur => In cur (map Store.id cs)
  | None => True
  end.
Proof.
  destruct cs as [|c cs]; [exact I|]. cbn.
  destruct (is_empty (Store.id c)); [exact I | now left].
Qed.

Lemma current_listed_ids (s s' : Store.State) :
  Store.currentChatId s' = Store.currentChatId s ->
  map Store.id (Store.chats s') = map Store.id (Store.chats s) ->
  current_listed s -> current_listed s'.
Proof. unfold current_listed. now intros -> ->. Qed.

Lemma run_action_listed (a : StoreAction) (s : Store.State) :
  current_listed s -> current_listed (run_action a s).
Proof.
  intros H.
  assert (Hon : forall chatId f,
             (forall chat, Store.id (f chat) = Store.id chat) ->
             current_listed (Store.on_chat chatId f s)).
  { intros chatId f Hid.
    apply (current_listed_ids s); [reflexivity | now apply on_chat_ids | exact H]. }
  destruct a; cbn [run_action];
    try (apply Hon; intros chat; reflexivity);
    try exact H.
  - (* createChat *)
    unfold Store.createChat.
    destruct (Store.getCurrentChat s) as [c|]; [|cbn; now left].
    destruct (_ && _); [exact H | cbn; now left].
  - (* deleteChat *)
    unfold Store.deleteChat, current_listed in *. cbn.
    unfold Store.is_current.
    destruct (Store.currentChatId s) as [cur|] eqn:Hc; [|exact I].
    destruct (str_eqb cur chatId) eqn:E; [apply first_id_listed|].
    apply in_map_iff in H. destruct H as (c & Hid & Hin).
    apply in_map_iff. exists c. split; [assumption|].
    apply filter_In. split; [assumption|].
    rewrite Hid, E. reflexivity.
  - (* deleteAllChats *)
    unfold Store.deleteAllChats, current_listed. cbn. apply first_id_listed.
Qed.

(** X14. In every state that the interface reaches from the initial one, by
    any action of the store and by selecting chats of the list,
    [currentChatId] is [null] or the id of a chat of the list: deleting
    the current chat, or all chats, moves it to a chat that is kept, or to
    [null]. *)
Theorem current_chat_is_listed (s : Store.State) :
  reachable s -> current_listed s.
Proof.
  induction 1 as [|a s _ IH|c s _ _ Hin].
  - exact I.
  - now apply run_action_listed.
  - unfold current_listed. cbn. now apply in_map.
Qed.

Lemma current_chat_is_listed_witness :
  current_listed
    (run_action (DeleteChat (js "a"))
       (run_action (CreateChat (js "b") 2)
          (run_action (AddMessage (js "a")
                         {| Store.draft_role := js "user";
                            Store.draft_content := js "hello";
                            Store.draft_more := [] |} (js "m") 1)
             (run_action (CreateChat (js "a") 0) initial_store)))).
Proof.
  apply current_chat_is_listed.
  do 4 apply reach_action. apply reach_initial.
Defined.

(** X15. [pinChat] is its own inverse: pinning a chat twice gives back the
    state, whatever the state and the id. *)
Theorem pinChat_twice (chatId : jsstring) (s : Store.State) :
  Store.pinChat chatId (Store.pinChat chatId s) = s.
Proof.
  unfold Store.pinChat. rewrite on_chat_twice by reflexivity.
  transitivity (Store.set_chats s (Store.chats s) (Store.currentChatId s));
    [|apply set_chats_same].
  unfold Store.on_chat. f_equal.
  transitivity (map (fun chat : Store.Chat => chat) (Store.chats s));
    [|apply map_id].
  apply map_ext. intros chat.
  destruct (str_eqb (Store.id chat) chatId); [|reflexivity].
  destruct chat. cbn. now rewrite negb_involutive.
Qed.

Lemma updateMessage_twice (chatId messageId x y : jsstring) (now1 now2 : Z)
      (s : Store.State) :
  Store.updateMessage chatId messageId y now2
    (Store.updateMessage chatId messageId x now1 s)
  = Store.updateMessage chatId messageId y now2 s.
Proof.
  unfold Store.updateMessage. rewrite on_chat_twice by reflexivity.
  apply on_chat_ext. intros chat _ _.
  unfold Store.with_messages. cbn. f_equal.
  rewrite map_map. apply map_ext. intros msg.
  destruct (str_eqb (Store.msg_id msg) messageId) eqn:E; cbn; now rewrite E.
Qed.

Lemma stream_into_snoc (chatId messageId : jsstring)
      (chunks : list (jsstring * Z)) (chunk : jsstring) (now : Z) :
  forall fullContent s,
    stream_into chatId messageId (chunks ++ [(chunk, now)]) fullContent s
    = Store.updateMessage chatId messageId
        (fullContent ++ concat (map fst chunks) ++ chunk) now s.
Proof.
  induction chunks as [|[c0 t0] chunks IH]; intros fullContent s.
  - reflexivity.
  - cbn [app stream_into map fst concat].
    rewrite IH, updateMessage_twice. now rewrite <- !app_assoc.
Qed.

(** X16. Streaming an answer into a message: the interface calls
    [updateMessage] once per fragment, each time with all the text
    received so far; after the last fragment the store is exactly as if
    the message had been updated once, at the time of the last fragment,
    with the concatenation of all the fragments.  In particular a later
    [updateMessage] of a message overrides an earlier one. *)
Theorem streamed_message_holds_whole_answer
        (chatId messageId : jsstring) (chunks : list (jsstring * Z))
        (chunk : jsstring) (now : Z) (s : Store.State) :
  stream_into chatId messageId (chunks ++ [(chunk, now)]) [] s
  = Store.updateMessage chatId messageId
      (concat (map fst chunks) ++ chunk) now s
  /\ forall x y now1 now2,
      Store.updateMessage chatId messageId y now2
        (Store.updateMessage chatId messageId x now1 s)
      = Store.updateMessage chatId messageId y now2 s.
Proof.
  split.
  - apply stream_into_snoc.
  - intros. apply updateMessage_twice.
Qed.

Lemma filter_all {A} (f : A -> bool) (l : list A) :
  (forall x, In x l -> f x = true) -> filter f l = l.
Proof.
  induction l as [|x l IH]; intros H; [reflexivity|]. cbn.
  rewrite (H x) by now left. f_equal. apply IH. intros y Hy. apply H. now right.
Qed.

(** X17. A placeholder that is added and then deleted leaves no trace: when
    a message that is not the user's is added under an id that no message
    of the chat has, and deleted again (as the interface does when the
    request fails), the chats are as before, only marked as updated. *)
Theorem placeholder_added_then_deleted
        (chatId fresh : jsstring) (message : Store.Draft) (now1 now2 : Z)
        (s : Store.State) :
  Store.draft_role message <> js "user" ->
  fresh_message chatId fresh s ->
  Store.deleteMessage chatId fresh now2
    (snd (Store.addMessage chatId message fresh now1 s))
  = touch chatId now2 s.
Proof.
  intros Hrole Hfresh.
  unfold Store.deleteMessage, Store.addMessage, touch. cbn [snd].
  rewrite on_chat_twice by reflexivity.
  apply on_chat_ext. intros chat Hin Hid.
  unfold Store.with_messages.
  cbn [Store.id Store.title Store.messages Store.pinned Store.createdAt
       Store.updatedAt Store.files].
  apply str_eqb_neq in Hrole. rewrite Hrole, andb_false_r. f_equal.
  rewrite filter_app. cbn [filter Store.msg_id].
  rewrite str_eqb_refl. cbn [negb]. rewrite app_nil_r.
  apply filter_all. intros msg Hmsg.
  apply negb_true_iff, str_eqb_neq. now apply (Hfresh chat msg).
Qed.

Lemma placeholder_added_then_deleted_witness :
  Store.deleteMessage (js "a") (js "m") 2
    (snd (Store.addMessage (js "a")
            {| Store.draft_role := js "assistant";
               Store.draft_content := [];
               Store.draft_more := [] |} (js "m") 1
            (snd (Store.createChat (js "a") 0 initial_store))))
  = touch (js "a") 2 (snd (Store.createChat (js "a") 0 initial_store)).
Proof.
  apply placeholder_added_then_deleted.
  - vm_compute. discriminate.
  - intros chat msg Hin _ Hmsg.
    vm_compute in Hin. destruct Hin as [<-|[]]. destruct Hmsg.
Defined.

Lemma find_named_map (name : jsstring) (f : Store.File -> Store.File)
      (l : list Store.File) :
  (forall x, Store.filename (f x) = Store.filename x) ->
  find (Store.named name) (map f l)
  = option_map f (find (Store.named name) l).
Proof.
  intros Hf. induction l as [|x l IH]; [reflexivity|]. cbn.
  unfold Store.named at 1 3. rewrite Hf.
  destruct (str_eqb (Store.filename x) name); [reflexivity | exact IH].
Qed.

Lemma find_named_some (name : jsstring) (l : list Store.File) (x : Store.File) :
  find (Store.named name) l = Some x -> Store.filename x = name.
Proof.
  intros H. apply find_some in H. destruct H as [_ H].
  now apply str_eqb_eq.
Qed.

Lemma find_named_none (name : jsstring) (l : list Store.File) :
  find (Store.named name) l = None <-> existsb (Store.named name) l = false.
Proof.
  induction l as [|x l IH]; [easy|]. cbn.
  destruct (Store.named name x); [easy | exact IH].
Qed.

Lemma find_app {A} (f : A -> bool) (l1 l2 : list A) :
  find f (l1 ++ l2)
  = match find f l1 with Some x => Some x | None => find f l2 end.
Proof.
  induction l1 as [|x l1 IH]; [reflexivity|]. cbn.
  destruct (f x); [reflexivity | exact IH].
Qed.

Lemma find_filter_named (name : jsstring) (p : Store.File -> bool)
      (l : list Store.File) :
  (forall x, Store.filename x = name -> p x = true) ->
  find (Store.named name) (filter p l) = find (Store.named name) l.
Proof.
  intros Hp. induction l as [|x l IH]; [reflexivity|]. cbn.
  destruct (Store.named name x) eqn:E.
  - rewrite (Hp x) by now apply str_eqb_eq. cbn. now rewrite E.
  - destruct (p x); [cbn; now rewrite E | exact IH].
Qed.

Lemma merge_files_names (existing0 files0 : list Store.File) :
  map Store.filename (Store.merge_files existing0 files0)
  = map Store.filename existing0
    ++ map Store.filename
         (filter (fun f => negb (existsb (Store.named (Store.filename f))
                                         existing0)) files0).
Proof.
  unfold Store.merge_files. rewrite map_app, map_map. f_equal.
  apply map_ext. intros x.
  now destruct (find (Store.named (Store.filename x)) files0).
Qed.

(** X18. [addFiles] by file name.  After the files [files0] have been added
    to the files of a chat, the code found under a name is the code that
    [files0] gives for it, and for a name that [files0] does not have the
    code the chat had; the files the chat had keep their places, the new
    ones follow. *)
Theorem addFiles_lookup (existing0 files0 : list Store.File) :
  (forall name,
      code_of name (Store.merge_files existing0 files0)
      = match code_of name files0 with
        | Some c => Some c
        | None => code_of name existing0
        end)
  /\ map Store.filename
         (firstn (length existing0) (Store.merge_files existing0 files0))
     = map Store.filename existing0.
Proof.
  split.
  - intros name. unfold code_of, Store.merge_files.
    rewrite find_app, find_named_map by
        (intros x; now destruct (find (Store.named (Store.filename x)) files0)).
    destruct (find (Store.named name) existing0) as [x|] eqn:Hx.
    + cbn [option_map]. rewrite (find_named_some _ _ _ Hx).
      now destruct (find (Store.named name) files0).
    + cbn [option_map]. rewrite find_filter_named.
      * now destruct (find (Store.named name) files0).
      * intros y Hy. rewrite Hy. apply negb_true_iff.
        now apply find_named_none.
  - rewrite <- firstn_map, merge_files_names.
    rewrite <- (length_map Store.filename existing0).
    now rewrite firstn_app, Nat.sub_diag, firstn_all, app_nil_r.
Qed.

(** X19. [addFiles] keeps file names unique: when no two files of the chat
    and no two of the added files have the same name, no two files of the
    result have. *)
Theorem addFiles_keeps_names_unique (existing0 files0 : list Store.File) :
  NoDup (map Store.filename existing0) ->
  NoDup (map Store.filename files0) ->
  NoDup (map Store.filename (Store.merge_files existing0 files0)).
Proof.
  intros He Hf. rewrite merge_files_names.
  assert (Hnew : forall l,
             NoDup (map Store.filename l) ->
             NoDup (map Store.filename
                        (filter (fun f => negb (existsb (Store.named (Store.filename f))
                                                        existing0)) l))).
  { induction l as [|x l IH]; intros Hl; [constructor|].
    cbn in *. inversion Hl as [|? ? Hx Hl']; subst.
    destruct (negb _); [|now apply IH].
    cbn. constructor; [|now apply IH].
    intros Hin. apply Hx.
    apply in_map_iff in Hin. destruct Hin as (y & Hy & Hin).
    apply filter_In in Hin. apply in_map_iff. exists y. tauto. }
  induction existing0 as [|x l IH].
  - cbn. rewrite filter_all by reflexivity. exact Hf.
  - clear IH.
    apply NoDup_app; [exact He | now apply Hnew |].
    intros name Hin Hin'.
    apply in_map_iff in Hin'. destruct Hin' as (y & Hy & Hin').
    apply filter_In in Hin'. destruct Hin' as [_ Hn].
    apply negb_true_iff in Hn.
    apply in_map_iff in Hin. destruct Hin as (z & Hz & Hin).
    assert (Ht : existsb (Store.named (Store.filename y)) (x :: l) = true).
    { apply existsb_exists. exists z. split; [assumption|].
      apply str_eqb_eq. congruence. }
    congruence.
Qed.

Lemma addFiles_keeps_names_unique_witness :
  NoDup (map Store.filename
           (Store.merge_files
              [ {| Store.filename := js "a.js"; Store.code := js "1";
                   Store.file_more := [] |} ]
              [ {| Store.filename := js "b.js"; Store.code := js "2";
                   Store.file_more := [] |};
                {| Store.filename := js "a.js"; Store.code := js "3";
                   Store.file_more := [] |} ])).
Proof.
  apply addFiles_keeps_names_unique.
  - cbn. constructor; [intros [] | constructor].
  - cbn. constructor.
    + intros [H|[]]. vm_compute in H. discriminate.
    + constructor; [intros [] | constructor].
Defined.

Lemma compare_chats_before (a b : Store.Chat) :
  (Store.compare_chats a b <= 0)%Z <-> listed_before a b.
Proof.
  unfold Store.compare_chats, listed_before.
  destruct (Store.pinned a), (Store.pinned b); cbn; split; intros H;
    try lia; try (right; split; [reflexivity | lia]);
    try (left; split; reflexivity);
    try (destruct H as [[? ?]|[? ?]]; try discriminate; lia).
Qed.

Lemma compare_chats_total (a b : Store.Chat) :
  (Store.compare_chats a b <= 0)%Z \/ (Store.compare_chats b a <= 0)%Z.
Proof.
  unfold Store.compare_chats.
  destruct (Store.pinned a), (Store.pinned b); cbn; lia.
Qed.

Lemma listed_before_trans (a b c : Store.Chat) :
  listed_before a b -> listed_before b c -> listed_before a c.
Proof.
  unfold listed_before.
  destruct (Store.pinned a), (Store.pinned b), (Store.pinned c);
    intros [[? ?]|[? ?]] [[? ?]|[? ?]]; try discriminate;
      try (left; split; reflexivity); right; split; try reflexivity; lia.
Qed.

Lemma insert_by_perm {A} (cmp : A -> A -> Z) (x : A) (l : list A) :
  Permutation (Store.insert_by cmp x l) (x :: l).
Proof.
  induction l as [|y l IH]; [reflexivity|]. cbn.
  destruct (cmp x y <=? 0)%Z; [reflexivity|].
  rewrite IH. apply perm_swap.
Qed.

Lemma sort_by_perm {A} (cmp : A -> A -> Z) (l : list A) :
  Permutation (Store.sort_by cmp l) l.
Proof.
  induction l as [|x l IH]; [reflexivity|]. cbn.
  fold (Store.sort_by cmp l). rewrite insert_by_perm. now constructor.
Qed.

Lemma insert_chat_sorted (x : Store.Chat) (l : list Store.Chat) :
  StronglySorted listed_before l ->
  StronglySorted listed_before (Store.insert_by Store.compare_chats x l).
Proof.
  induction 1 as [|y l Hl IH Hy]; cbn.
  - repeat constructor.
  - destruct (Store.compare_chats x y <=? 0)%Z eqn:E.
    + apply Z.leb_le, compare_chats_before in E.
      constructor; [now constructor|].
      constructor; [exact E|].
      apply Forall_forall. intros z Hz.
      apply (listed_before_trans x y z E).
      now apply (proj1 (Forall_forall _ _) Hy).
    + apply Z.leb_gt in E.
      assert (Hyx : listed_before y x).
      { apply compare_chats_before.
        destruct (compare_chats_total x y); [lia | assumption]. }
      constructor; [exact IH|].
      apply Forall_forall. intros z Hz.
      apply (Permutation_in _ (insert_by_perm Store.compare_chats x l)) in Hz.
      destruct Hz as [<-|Hz]; [exact Hyx|].
      now apply (proj1 (Forall_forall _ _) Hy).
Qed.

(** X20. [getSortedChats] lists every chat of the store once, pinned chats
    before the others and, among chats pinned alike, the most recently
    updated first. *)
Theorem getSortedChats_sorted (s : Store.State) :
  Permutation (Store.getSortedChats s) (Store.chats s)
  /\ StronglySorted listed_before (Store.getSortedChats s).
Proof.
  split; [apply sort_by_perm|].
  unfold Store.getSortedChats, Store.sort_by.
  induction (Store.chats s) as [|x l IH]; cbn; [constructor|].
  now apply insert_chat_sorted.
Qed.

Lemma assoc_set_field (k k' : jsstring) (v : json)
      (fs : list (jsstring * json)) :
  assoc k (set_field k' v fs)
  = if str_eqb k k' then Some v else assoc k fs.
Proof.
  induction fs as [|[k0 v0] fs IH]; cbn.
  - reflexivity.
  - destruct (str_eqb k' k0) eqn:E0; cbn.
    + apply str_eqb_eq in E0. subst k0.
      now destruct (str_eqb k k').
    + rewrite IH. destruct (str_eqb k k0) eqn:E1; [|reflexivity].
      apply str_eqb_eq in E1. subst k0.
      destruct (str_eqb k k') eqn:E2; [|reflexivity].
      apply str_eqb_eq in E2. subst k'. now rewrite str_eqb_refl in E0.
Qed.

Lemma assoc_none (k : jsstring) (fs : list (jsstring * json)) :
  ~ In k (map fst fs) -> assoc k fs = None.
Proof.
  induction fs as [|[k0 v0] fs IH]; cbn; intros H; [reflexivity|].
  destruct (str_eqb k k0) eqn:E.
  - apply str_eqb_eq in E. subst. tauto.
  - apply IH. tauto.
Qed.

Lemma assoc_spread (k : jsstring) (b : list (jsstring * json)) :
  NoDup (map fst b) ->
  forall a,
    assoc k (Store.spread a b)
    = match assoc k b with Some v => Some v | None => assoc k a end.
Proof.
  unfold Store.spread.
  induction b as [|[k' v] b IH]; intros Hb a; [reflexivity|].
  cbn in Hb. inversion Hb as [|? ? Hk Hb']; subst.
  cbn [fold_left fst snd assoc]. rewrite (IH Hb'), assoc_set_field.
  destruct (str_eqb k k') eqn:E.
  - apply str_eqb_eq in E. subst k'. now rewrite (assoc_none _ _ Hk).
  - reflexivity.
Qed.

(** X21. [updateSettings] overrides the settings that the update names and
    keeps the others: a setting read after the update has the value of
    the update if the update has one, and its earlier value if not. *)
Theorem updateSettings_lookup
        (updates : list (jsstring * json)) (s : Store.State) (k : jsstring) :
  NoDup (map fst updates) ->
  assoc k (Store.settings (Store.updateSettings updates s))
  = match assoc k updates with
    | Some v => Some v
    | None => assoc k (Store.settings s)
    end.
Proof. intros H. now apply assoc_spread. Qed.

Lemma updateSettings_lookup_witness :
  assoc (js "darkMode")
        (Store.settings
           (Store.updateSettings [(js "agentMode", JBool true)]
                                 initial_store))
  = match assoc (js "darkMode") [(js "agentMode", JBool true)] with
    | Some v => Some v
    | None => assoc (js "darkMode") (Store.settings initial_store)
    end.
Proof.
  apply updateSettings_lookup.
  cbn. constructor; [intros [] | constructor].
Defined.

Lemma find_map_chat (chatId : jsstring) (f : Store.Chat -> Store.Chat)
      (cs : list Store.Chat) :
  (forall chat, Store.id (f chat) = Store.id chat) ->
  find (fun c => str_eqb (Store.id c) chatId)
       (map (fun chat => if str_eqb (Store.id chat) chatId then f chat
                         else chat) cs)
  = option_map f (find (fun c => str_eqb (Store.id c) chatId) cs).
Proof.
  intros Hid. induction cs as [|c cs IH]; [reflexivity|]. cbn [map find].
  destruct (str_eqb (Store.id c) chatId) eqn:E.
  - now rewrite Hid, E.
  - now rewrite E.
Qed.

Lemma auto_title_length (text : jsstring) :
  length (Store.auto_title text) <= 53
  /\ (length text <= 50 -> Store.auto_title text = text).
Proof.
  unfold Store.auto_title. split.
  - rewrite length_app, length_firstn.
    assert (Hdots : length (js "...") = 3) by reflexivity.
    destruct (50 <? length text); [rewrite Hdots | cbn [length]]; lia.
  - intros H. destruct (Nat.ltb_spec 50 (length text)) as [Hl|_]; [lia|].
    now rewrite app_nil_r, firstn_all2.
Qed.

(** X22. A new chat is named after its first message.  When a message of
    the user is added to the chat that [createChat] returns, this chat is
    the current one, its messages are this message alone, and its title
    is the text of the message, cut to its first 50 characters and
    followed by three dots when it is longer: 53 characters at most. *)
Theorem first_message_names_the_chat
        (fresh messageId text : jsstring) (extra : list (jsstring * json))
        (now1 now2 : Z) (s : Store.State) :
  let created := Store.createChat fresh now1 s in
  let message := {| Store.draft_role := js "user";
                    Store.draft_content := text;
                    Store.draft_more := extra |} in
  let added := Store.addMessage (fst created) message messageId now2
                                (snd created) in
  exists chat,
    Store.getCurrentChat (snd added) = Some chat
    /\ Store.id chat = fst created
    /\ Store.title chat = Store.auto_title text
    /\ length (Store.title chat) <= 53
    /\ (length text <= 50 -> Store.title chat = text)
    /\ map Store.msg_id (Store.messages chat) = [fst added]
    /\ map Store.content (Store.messages chat) = [text].
Proof.
  intros created message added.
  assert (Hcur : exists c,
             Store.currentChatId (snd created) = Some (fst created)
             /\ find (fun c => str_eqb (Store.id c) (fst created))
                     (Store.chats (snd created)) = Some c
             /\ Store.title c = Store.new_chat_title
             /\ Store.messages c = []).
  { subst created. unfold Store.createChat.
    assert (Hnew : exists c,
               Some fresh = Some fresh
               /\ find (fun c => str_eqb (Store.id c) fresh)
                       ({| Store.id := fresh;
                           Store.title := Store.new_chat_title;
                           Store.messages := []; Store.pinned := false;
                           Store.createdAt := now1; Store.updatedAt := now1;
                           Store.files := [] |} :: Store.chats s) = Some c
               /\ Store.title c = Store.new_chat_title
               /\ Store.messages c = []).
    { eexists. split; [reflexivity|]. cbn [find Store.id].
      rewrite str_eqb_refl. repeat split. }
    destruct (Store.getCurrentChat s) as [c|] eqn:Hc; [|exact Hnew].
    destruct ((length (Store.messages c) =? 0)
              && str_eqb (Store.title c) Store.new_chat_title) eqn:He;
      [|exact Hnew].
    apply andb_true_iff in He. destruct He as [Hm Ht].
    apply Nat.eqb_eq, length_zero_iff_nil in Hm. apply str_eqb_eq in Ht.
    unfold Store.getCurrentChat in Hc.
    destruct (Store.currentChatId s) as [cur|] eqn:Hcur; [|discriminate].
    cbn [fst snd]. exists c.
    assert (Hid : Store.id c = cur).
    { apply find_some in Hc. now apply str_eqb_eq. }
    rewrite Hcur, Hid. repeat split; assumption. }
  destruct Hcur as (c & Hcur & Hfind & Ht & Hm).
  subst added. unfold Store.addMessage. cbn [fst snd].
  unfold Store.getCurrentChat, Store.on_chat.
  cbn [Store.currentChatId Store.chats Store.set_chats]. rewrite Hcur.
  rewrite find_map_chat by reflexivity. rewrite Hfind. cbn [option_map].
  eexists. split; [reflexivity|].
  unfold Store.with_messages.
  cbn [Store.id Store.title Store.messages Store.msg_id Store.content].
  subst message. cbn [Store.draft_role Store.draft_content].
  rewrite Ht, Hm, !str_eqb_refl. cbn [andb app map Store.msg_id Store.content].
  pose proof (auto_title_length text) as [H53 H50].
  assert (Hid : Store.id c = fst created).
  { apply find_some in Hfind. now apply str_eqb_eq. }
  repeat split; assumption.
Qed.

Example auto_title_samples :
  Store.auto_title (js "Hello") = js "Hello"
  /\ Store.auto_title
       (js "0123456789012345678901234567890123456789012345678901234")
     = js "01234567890123456789012345678901234567890123456789...".
Proof. vm_compute. split; reflexivity. Qed.

Example getSortedChats_sample :
  map Store.id
      (Store.getSortedChats
         (fold_left (fun s a => run_action a s)
            [ CreateChat (js "a") 0;
              AddMessage (js "a")
                         {| Store.draft_role := js "user";
                            Store.draft_content := js "yo";
                            Store.draft_more := [] |} (js "n") 0;
              CreateChat (js "b") 1;
              AddMessage (js "b")
                         {| Store.draft_role := js "user";
                            Store.draft_content := js "hi";
                            Store.draft_more := [] |} (js "m") 2;
              CreateChat (js "c") 3;
              PinChat (js "a") ]
            initial_store))
  = [js "a"; js "c"; js "b"].
Proof. vm_compute. reflexivity. Qed.

Example merge_files_sample :
  map (fun f => (Store.filename f, Store.code f))
      (Store.merge_files
         [ {| Store.filename := js "a.js"; Store.code := js "1";
              Store.file_more := [] |};
           {| Store.filename := js "b.js"; Store.code := js "2";
              Store.file_more := [] |} ]
         [ {| Store.filename := js "c.js"; Store.code := js "3";
              Store.file_more := [] |};
           {| Store.filename := js "a.js"; Store.code := js "4";
              Store.file_more := [] |} ])
  = [ (js "a.js", js "4"); (js "b.js", js "2"); (js "c.js", js "3") ].
Proof. vm_compute. reflexivity. Qed.

(* ------------------------------------------------------------------ *)
(** ** The last news pattern                                           *)
(* ------------------------------------------------------------------ *)

Lemma canonicalize_replacement (x : N) :
  canonicalize x = 65533%N -> x = 65533%N.
Proof.
  unfold canonicalize.
  destruct ((97 <=? x) && (x <=? 122))%N eqn:E1.
  { apply andb_true_iff in E1. destruct E1 as [A B].
    apply N.leb_le in A, B. lia. }
  destruct ((224 <=? x) && (x <=? 254) && negb (x =? 247))%N eqn:E2.
  { apply andb_true_iff in E2. destruct E2 as [E2 _].
    apply andb_true_iff in E2. destruct E2 as [A B].
    apply N.leb_le in A, B. lia. }
  destruct ((1072 <=? x) && (x <=? 1103))%N eqn:E3.
  { apply andb_true_iff in E3. destruct E3 as [A B].
    apply N.leb_le in A, B. lia. }
  destruct ((1104 <=? x) && (x <=? 1119))%N eqn:E4.
  { apply andb_true_iff in E4. destruct E4 as [A B].
    apply N.leb_le in A, B. lia. }
  easy.
Qed.

Lemma lower_unit_replacement (x : N) :
  lower_unit x = 65533%N -> x = 65533%N.
Proof.
  unfold lower_unit.
  destruct ((65 <=? x) && (x <=? 90))%N eqn:E1.
  { apply andb_true_iff in E1. destruct E1 as [A B].
    apply N.leb_le in A, B. lia. }
  destruct ((192 <=? x) && (x <=? 222) && negb (x =? 215))%N eqn:E2.
  { apply andb_true_iff in E2. destruct E2 as [E2 _].
    apply andb_true_iff in E2. destruct E2 as [A B].
    apply N.leb_le in A, B. lia. }
  destruct ((1040 <=? x) && (x <=? 1071))%N eqn:E3.
  { apply andb_true_iff in E3. destruct E3 as [A B].
    apply N.leb_le in A, B. lia. }
  destruct ((1024 <=? x) && (x <=? 1039))%N eqn:E4.
  { apply andb_true_iff in E4. destruct E4 as [A B].
    apply N.leb_le in A, B. lia. }
  easy.
Qed.

(** X23. The last news pattern matches no query.  Its second and third
    characters are two replacement characters (U+FFFD) in the program
    text, so that it matches no query that does not hold this character
    itself: a query such as [последние события], which no other pattern
    matches, is classified as [search], not as [news]. *)
Theorem last_news_pattern_never_matches (query : jsstring) :
  ~ In 65533%N query ->
  test (nth 3 newsPatterns Never) (toLowerCase query) = false
  /\ (some_test newsPatterns (toLowerCase query)
      = some_test (firstn 3 newsPatterns) (toLowerCase query)).
Proof.
  intros Hq.
  assert (H : test (nth 3 newsPatterns Never) (toLowerCase query) = false).
  { apply not_true_iff_false. intros Ht. apply Hq.
    apply test_matches in Ht. destruct Ht as (s0 & s1 & s2 & E & Hm).
    unfold newsPatterns in Hm. cbn [nth cat] in Hm.
    inversion Hm as [| | | | | |? ? a b _ Hb| | | |]; subst.
    inversion Hb as [| | | | | |? ? c d Hc _| | | |]; subst.
    inversion Hc as [|? x Hx| | | | | | | | |]; subst.
    unfold same_char in Hx. apply N.eqb_eq in Hx.
    symmetry in Hx. apply canonicalize_replacement in Hx. subst x.
    assert (Hin : In 65533%N (toLowerCase query)).
    { rewrite E. apply in_or_app. right. apply in_or_app. left.
      apply in_or_app. right. now left. }
    unfold toLowerCase in Hin. apply in_map_iff in Hin.
    destruct Hin as (y & Hy & Hin).
    apply lower_unit_replacement in Hy. now subst y. }
  split; [exact H|].
  unfold some_test, newsPatterns in *. cbn [nth firstn existsb] in *.
  now rewrite H, !orb_false_r.
Qed.

Lemma last_news_pattern_never_matches_witness :
  test (nth 3 newsPatterns Never) (toLowerCase (js "последние события"))
  = false.
Proof.
  apply (last_news_pattern_never_matches (js "последние события")).
  vm_compute. intuition discriminate.
Defined.

Example latest_events_is_a_search :
  detectQueryIntent (js "последние события") = search
  /\ detectQueryIntent (js "последние новости") = news.
Proof. vm_compute. split; reflexivity. Qed.

(* ------------------------------------------------------------------ *)
(** ** [smartWebSearch]                                                *)
(* ------------------------------------------------------------------ *)

Lemma performWebSearch_returns
      (parseSearchResults : jsstring -> outcome (list SearchResult))
      (net : Net) (query : jsstring) :
  exists out, performWebSearch parseSearchResults net query = Ok out.
Proof.
  unfold performWebSearch.
  destruct (gather_front parseSearchResults net query) as (others & ->).
  destruct (0 <? length (instant_front net query ++ others)); eexists;
    reflexivity.
Qed.

(** X24. When [smartWebSearch] also searches the web.  It never throws;
    it leaves [searchResults] at [null] exactly when the intent is not
    [search] and the data of the intent report success.  The object with
    the date and time has no [success] field: for a query about the time
    the web search is always run, next to the date and time computed on
    the spot. *)
Theorem smartWebSearch_searches
        (parseSearchResults : jsstring -> outcome (list SearchResult))
        (net : Net) (news_env : News.Env) (DateTime Weather Rate : Type)
        (getCurrentDateTime : jsstring -> DateTime)
        (getWeather : jsstring -> Report Weather)
        (getExchangeRate : jsstring -> jsstring -> jsstring -> Report Rate)
        (location_group topic_group : jsstring -> option jsstring)
        (query : jsstring) :
  let r := smartWebSearch parseSearchResults net news_env
                          getCurrentDateTime getWeather getExchangeRate
                          location_group topic_group query in
  (searchResults r = None
   <-> detectQueryIntent query <> search
       /\ data_success (smart_data r) = true)
  /\ (searchResults r = None
      \/ exists out, searchResults r = Some (Ok out))
  /\ (detectQueryIntent query = time ->
      smart_data r = TimeData (getCurrentDateTime (js "Asia/Yakutsk"))
      /\ searchResults r
         = Some (performWebSearch parseSearchResults net query))
  /\ (detectQueryIntent query = currency ->
      test currency_word query = false ->
      smart_data r = NoData
      /\ searchResults r
         = Some (performWebSearch parseSearchResults net query)).
Proof.
  intros r. subst r. unfold smartWebSearch.
  cbn [searchResults smart_data].
  destruct (performWebSearch_returns parseSearchResults net query) as (out & Hout).
  repeat split.
  - destruct (detectQueryIntent query); cbn [is_search orb];
      try discriminate; congruence.
  - destruct (detectQueryIntent query); cbn [is_search orb] in *;
      try discriminate;
      destruct (data_success _); cbn in *; congruence.
  - intros [Hi Hd]. rewrite Hd.
    destruct (detectQueryIntent query); cbn; congruence.
  - destruct (is_search (detectQueryIntent query) || negb _);
      [right; exists out; now rewrite Hout | now left].
  - now rewrite H.
  - now rewrite H.
  - rewrite H. cbn [special_data]. now rewrite H0.
  - rewrite H. cbn [special_data]. now rewrite H0.
Qed.

Lemma smartWebSearch_searches_witness :
  searchResults
    (smartWebSearch no_scraper dead_net news_world
                    (fun zone : jsstring => zone)
                    (fun place => @Failed jsstring place)
                    (fun a b c => @Failed jsstring c)
                    (fun _ => None) (fun _ => None) (js "what time is it"))
  = Some (performWebSearch no_scraper dead_net (js "what time is it")).
Proof.
  apply (proj1 (proj2 (proj2
           (smartWebSearch_searches no_scraper dead_net news_world
              jsstring jsstring jsstring
              (fun zone : jsstring => zone)
              (fun place => @Failed jsstring place)
              (fun a b c => @Failed jsstring c)
              (fun _ => None) (fun _ => None) (js "what time is it"))))).
  vm_compute. reflexivity.
Defined.

(* ------------------------------------------------------------------ *)
(** ** An event without object stalls the stream                       *)
(* ------------------------------------------------------------------ *)

Lemma trimStart_app (a b : jsstring) :
  trimStart (a ++ b)
  = if forallb is_white a then trimStart b else trimStart a ++ b.
Proof.
  induction a as [|c a IH]; [reflexivity|]. cbn [app trimStart forallb].
  destruct (is_white c); [exact IH | reflexivity].
Qed.

Lemma trimEnd_app (a b : jsstring) :
  trimEnd (a ++ b)
  = if forallb is_white b then trimEnd a else a ++ trimEnd b.
Proof.
  unfold trimEnd. rewrite rev_app_distr, trimStart_app, forallb_rev.
  destruct (forallb is_white b); [reflexivity|].
  now rewrite rev_app_distr, rev_involutive.
Qed.

Lemma trimEnd_nonblank (b : jsstring) :
  forallb is_white b = false ->
  exists r c, trimEnd b = r ++ [c] /\ is_white c = false.
Proof.
  intros Hb. unfold trimEnd.
  destruct (trimStart (rev b)) as [|c r] eqn:E.
  - pose proof (trimStart_empty (rev b)) as H. rewrite E, forallb_rev in H.
    cbn in H. congruence.
  - exists (rev r), c. split; [reflexivity|]. now apply trimStart_head in E.
Qed.

Lemma json_ws_white (c : N) : json_ws c = true -> is_white c = true.
Proof.
  unfold json_ws. rewrite !orb_true_iff, !N.eqb_eq.
  intros [[[H|H]|H]|H]; rewrite H; reflexivity.
Qed.

Lemma skip_ws_nonblank (r : jsstring) (c : N) :
  is_white c = false -> skip_ws (r ++ [c]) <> [].
Proof.
  intros Hc. induction r as [|x r IH]; cbn [app skip_ws].
  - destruct (json_ws c) eqn:Hj; [|discriminate].
    apply json_ws_white in Hj. congruence.
  - destruct (json_ws x); [exact IH | discriminate].
Qed.

(** The text [null] followed by anything but white space is no JSON
    text. *)
Lemma json_parse_null (rest : jsstring) :
  json_parse (js "null" ++ rest)
  = if is_empty (skip_ws rest) then Some JNull else None.
Proof.
  unfold json_parse.
  change (2 * length (js "null" ++ rest) + 2)
    with (2 * (4 + length rest) + 2).
  replace (2 * (4 + length rest) + 2) with (S (2 * length rest + 9)) by lia.
  generalize (2 * length rest + 9). intros fuel.
  change (js "null" ++ rest) with (110 :: 117 :: 108 :: 108 :: rest)%N.
  cbn [read_value skip_ws].
  change (json_ws 110) with false. cbv iota.
  change (110 =? 123)%N with false. change (110 =? 91)%N with false.
  change (110 =? 34)%N with false. cbv iota.
  change (startsWith (110 :: 117 :: 108 :: 108 :: rest)%N (js "true"))
    with false.
  change (startsWith (110 :: 117 :: 108 :: 108 :: rest)%N (js "false"))
    with false.
  assert (Hn : startsWith (110 :: 117 :: 108 :: 108 :: rest)%N (js "null")
               = true) by (destruct rest; reflexivity).
  rewrite Hn. reflexivity.
Qed.

(** A line kept back after [data: null] is never read: whatever follows,
    the text is not blank and no frame is read from it. *)
Lemma null_line_stalls (rest : jsstring) :
  is_empty (trim (null_line ++ rest)) = false
  /\ incomplete (processLine json_parse (null_line ++ rest)) = true
  /\ final_line json_parse null_line = [].
Proof.
  assert (Htrim : exists tail,
             trim (null_line ++ rest) = null_line ++ tail
             /\ (tail = [] \/ skip_ws tail <> [])).
  { unfold trim.
    assert (Hs : trimStart (null_line ++ rest) = null_line ++ rest)
      by reflexivity.
    rewrite Hs, trimEnd_app.
    destruct (forallb is_white rest) eqn:Hw.
    - exists []. split; [now rewrite app_nil_r | now left].
    - destruct (trimEnd_nonblank rest Hw) as (r & c & E & Hc).
      exists (trimEnd rest). split; [reflexivity|]. right.
      rewrite E. now apply skip_ws_nonblank. }
  destruct Htrim as (tail & Et & Htail).
  split; [now rewrite Et|]. split; [|vm_compute; reflexivity].
  unfold processLine. rewrite Et.
  assert (Hd : str_eqb (null_line ++ tail) done_marker = false).
  { apply str_eqb_neq. vm_compute. congruence. }
  assert (Hp : startsWith (null_line ++ tail) data_prefix = true)
    by (destruct tail; reflexivity).
  assert (Hsl : slice_from 6 (null_line ++ tail) = js "null" ++ tail)
    by reflexivity.
  cbn [is_empty null_line app orb]. 
  change (is_empty (null_line ++ tail)) with false. cbn [orb].
  rewrite Hd, Hp, Hsl, json_parse_null. cbn [negb].
  destruct Htail as [-> | Hne]; [reflexivity|].
  destruct (skip_ws tail); [contradiction | reflexivity].
Qed.

Lemma consume_stalled (ls : list jsstring) :
  forall kept out,
    consume json_parse (null_event ++ kept) ls out
    = (null_event ++ kept ++ joined ls, out).
Proof.
  induction ls as [|l ls IH]; intros kept out; cbn [consume joined map concat].
  - now rewrite app_nil_r.
  - unfold null_event at 1 2. rewrite <- !app_assoc.
    destruct (null_line_stalls ([newline] ++ kept ++ l)) as (Hb & Hi & _).
    rewrite Hb, Hi.
    replace ((null_line ++ [newline] ++ kept ++ l) ++ [newline])
      with (null_event ++ (kept ++ l ++ [newline]))
      by (unfold null_event; now rewrite <- !app_assoc).
    rewrite IH. unfold null_event, joined. now rewrite <- !app_assoc.
Qed.

Lemma lines_rest_joined (s : jsstring) :
  s = joined (fst (lines_rest s)) ++ snd (lines_rest s).
Proof.
  unfold joined. induction s as [|x s IH]; [reflexivity|]. cbn [lines_rest].
  destruct (lines_rest s) as [ls r]. cbn [fst snd] in IH.
  destruct (N.eqb_spec x newline) as [->|Hx]; cbn [fst snd map concat app].
  - now rewrite <- IH.
  - destruct ls as [|l ls]; cbn [fst snd map concat app] in *;
      now rewrite IH at 1.
Qed.

Lemma null_line_free : nl_free null_line.
Proof. unfold nl_free. vm_compute. intuition discriminate. Qed.

Lemma framed_null_event (b1 b2 : jsstring) :
  valid_body json_parse b1 -> ends_lines b1 ->
  framed json_parse (b1 ++ null_event ++ b2)
  = (null_event ++ b2, fragments_of json_parse b1 []).
Proof.
  intros Hv He.
  pose proof (framed_valid json_parse b1 Hv He) as Hf.
  pose proof (ends_lines_rest b1 He) as Hr.
  unfold framed in *. rewrite lines_rest_app, Hr. cbn [app].
  unfold null_event at 1 2. rewrite <- app_assoc. cbn [app].
  rewrite (lines_rest_line null_line b2 null_line_free).
  pose proof (lines_rest_joined b2) as Hj.
  destruct (lines_rest b1) as [ls1 r1]. cbn [fst snd] in *.
  destruct (lines_rest b2) as [ls2 r2]. cbn [fst snd] in *.
  rewrite consume_app.
  destruct (consume json_parse [] ls1 []) as [p1 o1].
  injection Hf as Hp Ho. apply app_eq_nil in Hp. destruct Hp as [-> _].
  subst o1. cbn [fst snd consume app].
  destruct (null_line_stalls []) as (Hb & Hi & _).
  rewrite app_nil_r in Hb, Hi. rewrite Hb, Hi.
  change (null_line ++ [newline]) with (null_event ++ []).
  rewrite consume_stalled. cbn [app].
  now rewrite <- app_assoc, <- Hj.
Qed.

(** X25. An event without object stalls the stream.  After a line
    [data: null] (which [JSON.parse] reads, and on which the extractor
    throws) the read loop yields nothing more, whatever follows: this
    line and all the text received after it stay in the buffer, and the
    fragments of the events that follow are yielded by the final pass
    only, once the stream has ended.  (The events before the line are
    read as ever: the loop is left where one of their fragments cannot be
    added to a string.) *)
Theorem null_event_stalls_the_stream
        (chunks : list jsstring) (b1 b2 : jsstring) :
  valid_body json_parse b1 -> ends_lines b1 ->
  concat chunks = b1 ++ null_event ++ b2 ->
  read_loop json_parse chunks [] [] []
  = Some (loop_end (null_event ++ b2) (fragments_of json_parse b1 []))
  /\ decode_stream json_parse chunks []
     = Some (stream_end (fragments_of json_parse b1 [])
                        (flat_map (final_line json_parse) (split newline b2))).
Proof.
  intros Hv He Hc.
  pose proof (framed_null_event b1 b2 Hv He) as Hf.
  split.
  - pose proof (read_loop_framed json_parse chunks [] [] eq_refl) as H.
    change (fst (framed json_parse [])) with (@nil N) in H.
    change (snd (framed json_parse [])) with (@nil json) in H.
    rewrite H. cbn [app is_empty]. now rewrite Hc, Hf.
  - rewrite decode_stream_fragments. unfold stream_run.
    rewrite Hc, Hf. cbn [fst snd is_empty]. f_equal.
    unfold final_pass.
    destruct (null_line_stalls ([newline] ++ b2)) as (Hb & _ & Hfl).
    unfold null_event. rewrite <- app_assoc, Hb. cbn [negb].
    rewrite !split_lines_rest. cbn [app].
    rewrite (lines_rest_line null_line b2 null_line_free).
    cbn [fst snd app flat_map]. now rewrite Hfl.
Qed.

Lemma cut_head_valid : valid_body json_parse cut_head.
Proof.
  unfold valid_body.
  assert (E : fst (lines_rest cut_head)
              = [sse "data: {'choices':[{'delta':{'content':'Hel'}}]}"])
    by (vm_compute; reflexivity).
  rewrite E. repeat (constructor; [vm_compute; tauto|]). constructor.
Qed.

Lemma null_event_stalls_the_stream_witness :
  read_loop json_parse [cut_head; null_event; hello_body] [] [] []
  = Some (loop_end (null_event ++ hello_body)
                   (fragments_of json_parse cut_head [])).
Proof.
  apply (null_event_stalls_the_stream
           [cut_head; null_event; hello_body] cut_head hello_body).
  - exact cut_head_valid.
  - right. exists (removelast cut_head). vm_compute. reflexivity.
  - cbn [concat]. now rewrite app_nil_r.
Defined.

Example stalled_stream_run :
  read_loop json_parse [cut_head; null_event; hello_body] [] [] []
  = Some (Ok (null_event ++ hello_body), [JStr (js "Hel")])
  /\ decode_stream json_parse [cut_head; null_event; hello_body] []
     = Some (Done [JStr (js "Hel"); JStr (js "Hel"); JStr (js "lo")]).
Proof. vm_compute. split; reflexivity. Qed.

(* ------------------------------------------------------------------ *)
(** ** An event on several lines                                       *)
(* ------------------------------------------------------------------ *)

Section WrappedEvents.

Variable JSON_parse : jsstring -> option json.

Lemma incomplete_not_blank (l : jsstring) :
  incomplete (processLine JSON_parse l) = true ->
  is_empty (trim l) = false /\ final_line JSON_parse l = [].
Proof.
  unfold processLine, final_line.
  destruct (is_empty (trim l)); [discriminate|]. cbn [orb].
  destruct (str_eqb (trim l) done_marker); [discriminate|].
  destruct (negb (startsWith (trim l) data_prefix)); [discriminate|].
  destruct (JSON_parse (slice_from 6 (trim l))) as [j|]; [|now split].
  destruct (extractContent j); [discriminate | now split].
Qed.

Lemma complete_not_blank (p l : jsstring) :
  is_empty (trim p) = false -> is_empty (trim (p ++ l)) = false.
Proof.
  rewrite !trim_empty, forallb_app. intros ->. reflexivity.
Qed.

Lemma lines_rest_wrapped (b1 l1 l2 : jsstring) :
  snd (lines_rest b1) = [] -> nl_free l1 -> nl_free l2 ->
  lines_rest (b1 ++ l1 ++ [newline] ++ l2 ++ [newline])
  = (fst (lines_rest b1) ++ [l1; l2], [])
  /\ lines_rest (b1 ++ l1 ++ [newline] ++ l2)
     = (fst (lines_rest b1) ++ [l1], l2).
Proof.
  intros Hr Hn1 Hn2. split.
  - rewrite (lines_rest_app b1 (l1 ++ [newline] ++ l2 ++ [newline])), Hr.
    change ([] ++ l1 ++ [newline] ++ l2 ++ [newline])
      with (l1 ++ newline :: l2 ++ newline :: []).
    rewrite (lines_rest_line l1 (l2 ++ [newline]) Hn1).
    rewrite (lines_rest_line l2 [] Hn2). reflexivity.
  - rewrite (lines_rest_app b1 (l1 ++ [newline] ++ l2)), Hr.
    change ([] ++ l1 ++ [newline] ++ l2) with (l1 ++ newline :: l2).
    rewrite (lines_rest_line l1 l2 Hn1), (lines_rest_free l2 Hn2).
    reflexivity.
Qed.

Lemma consume_wrapped (l1 l2 : jsstring) (out : list json) :
  incomplete (processLine JSON_parse l1) = true ->
  incomplete (processLine JSON_parse (l1 ++ [newline] ++ l2)) = false ->
  consume JSON_parse [] [l1; l2] out
  = ([],
     if truthy (content (processLine JSON_parse (l1 ++ [newline] ++ l2)))
     then out ++ [content (processLine JSON_parse (l1 ++ [newline] ++ l2))]
     else out)
  /\ consume JSON_parse [] [l1] out = (l1 ++ [newline], out).
Proof.
  intros Hi Hc.
  destruct (incomplete_not_blank l1 Hi) as [Hb1 _].
  pose proof (complete_not_blank l1 ([newline] ++ l2) Hb1) as Hb2.
  assert (E : (([] ++ l1) ++ [newline]) ++ l2 = l1 ++ [newline] ++ l2)
    by (rewrite <- app_assoc; reflexivity).
  split.
  - rewrite consume_cons.
    change ([] ++ l1) with l1. rewrite Hb1, Hi.
    rewrite consume_cons.
    replace ((l1 ++ [newline]) ++ l2) with (l1 ++ [newline] ++ l2)
      by (rewrite <- app_assoc; reflexivity).
    rewrite Hb2, Hc. reflexivity.
  - rewrite consume_cons.
    change ([] ++ l1) with l1. rewrite Hb1, Hi. reflexivity.
Qed.

Lemma framed_wrapped (b1 l1 l2 : jsstring) :
  valid_body JSON_parse b1 -> ends_lines b1 ->
  nl_free l1 -> nl_free l2 ->
  incomplete (processLine JSON_parse l1) = true ->
  incomplete (processLine JSON_parse (l1 ++ [newline] ++ l2)) = false ->
  framed JSON_parse (b1 ++ l1 ++ [newline] ++ l2 ++ [newline])
  = ([],
     fragments_of JSON_parse b1 []
     ++ (if truthy (content (processLine JSON_parse (l1 ++ [newline] ++ l2)))
         then [content (processLine JSON_parse (l1 ++ [newline] ++ l2))]
         else []))
  /\ framed JSON_parse (b1 ++ l1 ++ [newline] ++ l2)
     = (l1 ++ [newline] ++ l2, fragments_of JSON_parse b1 []).
Proof.
  intros Hv He Hn1 Hn2 Hi Hc.
  pose proof (framed_valid JSON_parse b1 Hv He) as Hf.
  pose proof (ends_lines_rest b1 He) as Hr.
  destruct (lines_rest_wrapped b1 l1 l2 Hr Hn1 Hn2) as [H1 H2].
  unfold framed in Hf |- *. rewrite H1, H2. clear H1 H2.
  destruct (lines_rest b1) as [ls1 r1].
  change (snd (ls1, r1)) with r1 in Hr. subst r1.
  change (fst (ls1, [])) with ls1.
  rewrite (consume_app JSON_parse ls1 [l1; l2] [] []).
  rewrite (consume_app JSON_parse ls1 [l1] [] []).
  destruct (consume JSON_parse [] ls1 []) as [p1 o1].
  injection Hf as Hp Ho. apply app_eq_nil in Hp. destruct Hp as [-> _].
  change (fst ([], o1)) with (@nil N). change (snd (@nil N, o1)) with o1.
  destruct (consume_wrapped l1 l2 o1 Hi Hc) as [-> ->].
  rewrite <- Ho. split.
  - rewrite app_nil_r. now destruct (truthy _); rewrite ?app_nil_r.
  - rewrite <- app_assoc. reflexivity.
Qed.

Lemma final_pass_wrapped (l1 l2 : jsstring) :
  nl_free l1 -> nl_free l2 ->
  final_line JSON_parse l1 = [] -> final_line JSON_parse l2 = [] ->
  final_pass JSON_parse (l1 ++ [newline] ++ l2) = [].
Proof.
  intros Hn1 Hn2 Hl1 Hl2. unfold final_pass.
  destruct (negb (is_empty (trim (l1 ++ [newline] ++ l2)))); [|reflexivity].
  rewrite split_lines_rest.
  change (l1 ++ [newline] ++ l2) with (l1 ++ newline :: l2).
  rewrite (lines_rest_line l1 l2 Hn1), (lines_rest_free l2 Hn2).
  cbn [fst snd app flat_map]. now rewrite Hl1, Hl2.
Qed.

End WrappedEvents.

(** X26. An event written on several lines needs a line feed after it.
    The read loop joins a data line that cannot be read alone with the
    lines that follow it, and yields the fragment of the whole once it can
    be read; the final pass reads the lines of the buffer one by one.  So
    an event on two lines is decoded when a line feed follows it, and
    lost when the stream ends right after it: the run is then the run on
    the fragments of the events before it. *)
Theorem wrapped_event_needs_line_feed
        (JSON_parse : jsstring -> option json) (opts : Options)
        (b1 l1 l2 : jsstring) :
  useStreaming opts = true ->
  valid_body JSON_parse b1 -> ends_lines b1 ->
  nl_free l1 -> nl_free l2 ->
  incomplete (processLine JSON_parse l1) = true ->
  incomplete (processLine JSON_parse (l1 ++ [newline] ++ l2)) = false ->
  final_line JSON_parse l2 = [] ->
  let whole := processLine JSON_parse (l1 ++ [newline] ++ l2) in
  streamChatCompletion JSON_parse
    (serve (ok_response [b1 ++ l1 ++ [newline] ++ l2 ++ [newline]])) opts
  = Some (stream_end
            (fragments_of JSON_parse b1 []
             ++ (if truthy (content whole) then [content whole] else []))
            [])
  /\ streamChatCompletion JSON_parse
       (serve (ok_response [b1 ++ l1 ++ [newline] ++ l2])) opts
     = Some (stream_end (fragments_of JSON_parse b1 []) []).
Proof.
  intros Hs Hv He Hn1 Hn2 Hi Hc Hl2 whole. subst whole.
  destruct (framed_wrapped JSON_parse b1 l1 l2 Hv He Hn1 Hn2 Hi Hc)
    as [Hf1 Hf2].
  destruct (incomplete_not_blank JSON_parse l1 Hi) as [_ Hl1].
  rewrite !streamChatCompletion_streaming by (reflexivity || assumption).
  change (resp_flush (ok_response ?x)) with (@nil N).
  cbn [ok_response resp_chunks concat]. rewrite !app_nil_r.
  unfold stream_run. rewrite Hf1, Hf2. cbn [fst snd is_empty].
  split; [reflexivity|].
  now rewrite (final_pass_wrapped JSON_parse l1 l2 Hn1 Hn2 Hl1 Hl2).
Qed.

Lemma wrapped_event_needs_line_feed_witness :
  streamChatCompletion json_parse
    (serve (ok_response [cut_head ++ wrapped_first ++ [newline]
                                  ++ wrapped_second ++ [newline]]))
    flash_options
  = Some (stream_end
            (fragments_of json_parse cut_head []
             ++ (if truthy (content (processLine json_parse
                                       (wrapped_first ++ [newline]
                                                      ++ wrapped_second)))
                 then [content (processLine json_parse
                                  (wrapped_first ++ [newline]
                                                 ++ wrapped_second))]
                 else []))
            [])
  /\ streamChatCompletion json_parse
       (serve (ok_response [cut_head ++ wrapped_first ++ [newline]
                                     ++ wrapped_second]))
       flash_options
     = Some (stream_end (fragments_of json_parse cut_head []) []).
Proof.
  apply (wrapped_event_needs_line_feed json_parse flash_options
           cut_head wrapped_first wrapped_second).
  - vm_compute. reflexivity.
  - exact cut_head_valid.
  - right. exists (removelast cut_head). vm_compute. reflexivity.
  - unfold nl_free. vm_compute. intuition discriminate.
  - unfold nl_free. vm_compute. intuition discriminate.
  - vm_compute. reflexivity.
  - vm_compute. reflexivity.
  - vm_compute. reflexivity.
Defined.

Example wrapped_event_runs :
  streamChatCompletion json_parse
    (serve (ok_response [cut_head ++ wrapped_first ++ [newline]
                                  ++ wrapped_second ++ [newline]]))
    flash_options
  = Some (Done [JStr (js "Hel"); JStr (js "wrapped")])
  /\ streamChatCompletion json_parse
       (serve (ok_response [cut_head ++ wrapped_first ++ [newline]
                                     ++ wrapped_second]))
       flash_options
     = Some (Done [JStr (js "Hel")]).
Proof. vm_compute. split; reflexivity. Qed.

(* ------------------------------------------------------------------ *)
(** ** The count announced by [web_search]                             *)
(* ------------------------------------------------------------------ *)

Lemma grows_mono {A} (n n' : nat) (m : M A) :
  n <= n' -> grows n m -> grows n' m.
Proof.
  intros Hn H st. destruct (H st) as (added & E & Hl).
  exists added. split; [exact E | lia].
Qed.

Lemma grows_ret {A} (a : A) : grows 0 (ret a).
Proof. intros st. exists []. simpl. now rewrite app_nil_r. Qed.

Lemma grows_lift {A} (o : outcome A) : grows 0 (lift o).
Proof. intros st. exists []. simpl. now rewrite app_nil_r. Qed.

Lemma grows_push (r : SearchResult) : grows 1 (push r).
Proof. intros st. exists [r]. simpl. split; [reflexivity | lia]. Qed.

Lemma grows_when (n : nat) (b : bool) (m : M unit) :
  grows n m -> grows n (when b m).
Proof.
  intros H. destruct b; [exact H|].
  apply grows_mono with 0; [lia | apply grows_ret].
Qed.

Lemma grows_bind {A B} (n1 n2 : nat) (m : M A) (k : A -> M B) :
  grows n1 m -> (forall a, grows n2 (k a)) -> grows (n1 + n2) (bind m k).
Proof.
  intros Hm Hk st. unfold bind.
  destruct (Hm st) as (a1 & E1 & L1).
  destruct (m st) as [[a|e] st']; simpl in E1; subst st'.
  - destruct (Hk a (st ++ a1)) as (a2 & E2 & L2).
    exists (a1 ++ a2). rewrite E2, app_assoc, length_app. split; [reflexivity | lia].
  - exists a1. simpl. split; [reflexivity | lia].
Qed.

Lemma grows_try_catch (n : nat) (m : M unit) :
  grows n m -> grows n (try_catch m).
Proof. intros H st. exact (H st). Qed.

Lemma grows_for_of {A} (l : list A) (body : A -> M unit) :
  (forall a, grows 1 (body a)) -> grows (length l) (for_of l body).
Proof.
  intros H. induction l as [|a l IH]; simpl; [apply grows_ret|].
  change (S (length l)) with (1 + length l).
  apply grows_bind; [apply H | intros _; exact IH].
Qed.

Lemma capped_same {A} (cap : Q) (m : M A) :
  (forall st, snd (m st) = st) -> capped cap m.
Proof. intros H st. left. apply H. Qed.

Lemma capped_bind {A B} (cap : Q) (m : M A) (k : A -> M B) :
  capped cap m -> (forall a, capped cap (k a)) -> capped cap (bind m k).
Proof.
  intros Hm Hk st. unfold bind.
  destruct (Hm st) as [E|E]; destruct (m st) as [[a|e] st']; simpl in E.
  - subst st'. apply Hk.
  - left. exact E.
  - destruct (Hk a st') as [E'|E']; [right; now rewrite E' | right; exact E'].
  - right. exact E.
Qed.

Lemma capped_try_catch (cap : Q) (m : M unit) :
  capped cap m -> capped cap (try_catch m).
Proof. intros H st. exact (H st). Qed.

Lemma capped_when (cap : Q) (b : bool) (m : M unit) :
  capped cap m -> capped cap (when b m).
Proof.
  intros H. destruct b; [exact H | now apply capped_same].
Qed.

(** One more result in a list that has not reached the cap. *)
Lemma len_Q_push (cap : Q) (st : list SearchResult) (r : SearchResult) :
  reached st cap = false -> (len_Q (st ++ [r]) < cap + 1)%Q.
Proof.
  unfold reached, len_Q. intros H.
  assert (Hlt : (inject_Z (Z.of_nat (length st)) < cap)%Q).
  { apply Qnot_le_lt. intros Hle. apply Qle_bool_iff in Hle. congruence. }
  rewrite length_app. simpl.
  replace (Z.of_nat (length st + 1)) with (Z.of_nat (length st) + 1)%Z by lia.
  rewrite inject_Z_plus.
  apply Qplus_lt_le_compat; [exact Hlt | apply Qle_refl].
Qed.

(** A step run below the cap that appends one result at most. *)
Lemma capped_below {A} (cap : Q) (m : M A) (st : list SearchResult) :
  reached st cap = false -> grows 1 m ->
  snd (m st) = st \/ (len_Q (snd (m st)) < cap + 1)%Q.
Proof.
  intros Hr Hg. destruct (Hg st) as (added & E & L). rewrite E.
  destruct added as [|r [|r' added]]; simpl in L; [| |lia].
  - left. apply app_nil_r.
  - right. now apply len_Q_push.
Qed.

(** A guarded step of a loop: nothing once the cap is reached, else one
    result at most and the rest of the loop. *)
Lemma capped_guarded (cap : Q) (step rest : M unit) :
  grows 1 step -> capped cap rest ->
  capped cap (all <- get_all ;;
              if reached all cap then ret tt else step ;;; rest).
Proof.
  intros Hs Hr st. unfold bind, get_all. cbv beta iota.
  destruct (reached st cap) eqn:E; [now left|].
  pose proof (capped_below cap step st E Hs) as H.
  destruct (step st) as [[[]|e] st']; simpl in H.
  - destruct H as [->|H]; [apply Hr|].
    destruct (Hr st') as [E'|E']; [right; now rewrite E' | right; exact E'].
  - exact H.
Qed.

Lemma grows_push_unless (same : SearchResult -> bool) (item : outcome SearchResult) :
  grows 1 (push_unless same item).
Proof.
  unfold push_unless.
  apply (grows_bind 0 1);
    [intros st; exists []; simpl; now rewrite app_nil_r | intros all].
  apply grows_when.
  apply (grows_bind 0 1); [apply grows_lift | intros r; apply grows_push].
Qed.

Section AnnouncedCount.

Variable net : McpNet.

Lemma mcp_instant_grows (query : jsstring) : grows 7 (mcp_instant net query).
Proof.
  unfold mcp_instant. apply grows_try_catch.
  change 7 with (0 + (0 + (1 + (1 + 5)))).
  apply grows_bind; [apply grows_lift | intros _].
  apply grows_bind; [apply grows_lift | intros data].
  apply grows_bind; [apply grows_when, grows_push | intros _].
  apply grows_bind; [apply grows_when, grows_push | intros _].
  apply grows_mono with (length (firstn 5 (RelatedTopics data))).
  { rewrite length_firstn. lia. }
  apply grows_for_of. intros topic. apply grows_when.
  change 1 with (0 + 1).
  apply grows_bind; [apply grows_lift | intros t; apply grows_push].
Qed.

Lemma mcp_wikipedia_grows (query : jsstring) : grows 1 (mcp_wikipedia net query).
Proof.
  unfold mcp_wikipedia. apply grows_try_catch.
  change 1 with (0 + (0 + 1)).
  apply grows_bind; [apply grows_lift | intros q].
  apply grows_bind; [apply grows_lift | intros w].
  apply grows_when, grows_push.
Qed.

Lemma each_result_capped (cap : Q) (elems : list ResultElement) :
  capped cap (each_result cap elems).
Proof.
  induction elems as [|elem elems IH]; simpl; [now apply capped_same|].
  apply capped_guarded; [|exact IH].
  apply grows_when, grows_push_unless.
Qed.

Lemma scrape_with_capped (query : jsstring) (cap : Q)
      (proxies : list (jsstring -> outcome jsstring)) :
  capped cap (scrape_with net query cap proxies).
Proof.
  induction proxies as [|p proxies IH]; simpl; [now apply capped_same|].
  apply capped_bind.
  - apply capped_try_catch.
    apply capped_bind; [now apply capped_same | intros searchUrl].
    apply capped_bind; [now apply capped_same | intros proxyUrl].
    apply capped_bind; [now apply capped_same | intros elems].
    apply each_result_capped.
  - intros _. apply capped_bind; [now apply capped_same | intros all].
    destruct (reached all cap); [now apply capped_same | exact IH].
Qed.

Lemma each_hit_capped (cap : Q) (hits : list HnHit) :
  capped cap (each_hit cap hits).
Proof.
  induction hits as [|hit hits IH]; simpl; [now apply capped_same|].
  apply capped_guarded; [apply grows_push | exact IH].
Qed.

Lemma late_sources_capped (query : jsstring) (cap : Q) :
  capped cap (mcp_scrape net query cap ;;; mcp_hacker_news net query cap).
Proof.
  apply capped_bind.
  - unfold mcp_scrape. apply capped_bind; [now apply capped_same | intros all].
    apply capped_when, scrape_with_capped.
  - intros _. unfold mcp_hacker_news. apply capped_when, capped_try_catch.
    apply capped_bind; [now apply capped_same | intros _].
    apply capped_bind; [now apply capped_same | intros hits].
    apply each_hit_capped.
Qed.

(** What [web_search] has collected before the cut: the quick answers
    alone, eight at most, or fewer than [cap + 1] results. *)
Lemma collect_count (query : jsstring) (cap : Q) :
  let all := snd (collect net query cap []) in
  length all <= 8 \/ (len_Q all < cap + 1)%Q.
Proof.
  unfold collect.
  assert (Hq : grows 8 (mcp_instant net query ;;; mcp_wikipedia net query)).
  { change 8 with (7 + 1).
    apply grows_bind; [apply mcp_instant_grows | intros _; apply mcp_wikipedia_grows]. }
  cbv zeta.
  rewrite total_bind by (unfold mcp_instant; apply total_try_catch).
  rewrite total_bind by (unfold mcp_wikipedia; apply total_try_catch).
  destruct (Hq []) as (quick & Eq & Lq).
  unfold bind at 1 in Eq.
  assert (Ei : fst (mcp_instant net query []) = Ok tt)
    by (unfold mcp_instant; apply total_try_catch).
  destruct (mcp_instant net query []) as [[[]|e] st1]; simpl in Ei;
    [|discriminate Ei].
  simpl in Eq |- *. rewrite Eq.
  destruct (late_sources_capped query cap quick) as [E|E].
  - left. rewrite E. exact Lq.
  - right. exact E.
Qed.

End AnnouncedCount.

Lemma slice0_whole {A} (l : list A) (k : Z) :
  (0 <= k)%Z -> slice0 l (inject_Z k) = firstn (Z.to_nat k) l.
Proof.
  intros Hk. unfold slice0, to_integer.
  assert (Hb : Qle_bool 0 (inject_Z k) = true).
  { apply Qle_bool_iff. change 0%Q with (inject_Z 0). now rewrite <- Zle_Qle. }
  rewrite Hb, Qfloor_Z.
  destruct (Z.ltb_spec k 0); [lia | reflexivity].
Qed.

(** X27. The count that [web_search] announces is the number of results
    collected before the cut to [max_results], so it is never below the
    number of results listed.  For a whole [max_results] the two differ
    only when the quick answers alone (instant answer, direct answer, five
    related topics, Wikipedia summary) outnumber [max_results]: the list
    is then full and the count announced is eight at most. *)
Theorem announced_count_and_list
        (net : McpNet) (query : jsstring) (max_results : option Z)
        (shown : list SearchResult) (found : nat) :
  web_search net query (option_map inject_Z max_results) = Listing shown found ->
  let cap := match max_results with Some k => k | None => 10%Z end in
  length shown <= found
  /\ (length shown < found ->
      found <= 8 /\ Z.of_nat (length shown) = cap).
Proof.
  intros H cap. unfold web_search in H.
  destruct (schema_accepts (option_map inject_Z max_results)) eqn:Hs;
    [|discriminate].
  assert (Hc : match option_map inject_Z max_results with
               | Some m => m | None => inject_Z 10 end = inject_Z cap).
  { unfold cap. now destruct max_results. }
  rewrite Hc in H.
  assert (Hcap : (1 <= cap)%Z).
  { unfold cap. destruct max_results as [k|]; simpl in Hs; [|lia].
    apply andb_true_iff in Hs. destruct Hs as [H1 _].
    apply Qle_bool_iff in H1. change 1%Q with (inject_Z 1) in H1.
    now rewrite <- Zle_Qle in H1. }
  unfold web_search_handler in H.
  pose proof (collect_count net query (inject_Z cap)) as Hn. cbv zeta in Hn.
  destruct (collect net query (inject_Z cap) []) as [[[]|e] all];
    [|discriminate]. simpl in Hn.
  destruct (length all =? 0); [discriminate|].
  injection H as <- <-.
  rewrite slice0_whole by lia. rewrite length_firstn.
  split; [lia|]. intros Hlt.
  destruct Hn as [Hn|Hn].
  - split; lia.
  - exfalso. unfold len_Q in Hn.
    change 1%Q with (inject_Z 1) in Hn.
    rewrite <- inject_Z_plus, <- Zlt_Qlt in Hn. lia.
Qed.

Lemma announced_count_and_list_witness :
  exists shown,
    web_search same_page_mcp (js "rust") (option_map inject_Z (Some 1%Z))
    = Listing shown 2
    /\ length shown <= 2
    /\ (length shown < 2 -> 2 <= 8 /\ Z.of_nat (length shown) = 1%Z).
Proof.
  destruct (web_search same_page_mcp (js "rust") (option_map inject_Z (Some 1%Z)))
    as [ | |shown found|e] eqn:E; try (vm_compute in E; discriminate E).
  assert (Ef : found = 2) by (vm_compute in E; now injection E).
  subst found. exists shown. split; [reflexivity|].
  exact (announced_count_and_list same_page_mcp (js "rust") (Some 1%Z) shown 2 E).
Defined.

(** Asked for one result about a page that both the instant answer and
    Wikipedia describe, the tool lists one result and announces two. *)
Example announced_count_sample :
  exists r,
    web_search same_page_mcp (js "rust") (Some (inject_Z 1)) = Listing [r] 2.
Proof. eexists. vm_compute. reflexivity. Qed.
